(** * C6Logger: the log-compaction core of [src/Logger.cpp]

    A shallow embedding of [ExtractKey], [TryParseRepeatSuffix],
    [StripRepeatSuffix], [IsTimestampStart], [SplitConcatenatedLines] and
    [CompressAndTrimLogFile], followed by the properties of the
    specification that concern them.

    Conventions of the embedding:
    - a [std::string] is a [list ascii] (a sequence of 8-bit chars);
    - positions and sizes inside a string or a vector are [nat]: they are
      bounded by the size of the container, which is far below the range of
      [std::size_t], so none of [first + 1], [second + 2], [i + 6],
      [pos + prefix.size()] can wrap;
    - the repeat counter is a [std::size_t] whose value is read from the
      file: it is a [Z] in [0, 2^64) and every operation on it is reduced
      modulo [2^64];
    - [std::string::npos] is [None];
    - a call that can throw ([std::string::substr] with a start position
      beyond the size) returns [option], [None] standing for the exception,
      and the functions built on it thread that [option]. *)

From Stdlib Require Import ZArith Ascii String List Lia.
From stdpp Require Import base option list sorting gmap strings.

Local Open Scope Z_scope.
Local Open Scope nat_scope.
Local Open Scope list_scope.

(** ** Strings *)

Abbreviation str := (list ascii).

(** A string literal of the source. *)
Definition lit (s : string) : str := list_ascii_of_string s.

(** [std::size_t] is 64 bits wide on the platforms the logger targets. *)
Definition SIZE_MOD : Z := (2 ^ 64)%Z.

(** [std::isdigit] in the "C" locale. *)
Definition isdigit (c : ascii) : bool :=
  (48 <=? nat_of_ascii c) && (nat_of_ascii c <=? 57).

(** [s[i]]; every use in the source is guarded by a bound check. *)
Definition char_at (s : str) (i : nat) : ascii := nth i s zero.

(** [pat] occurs at the very start of [s]. *)
Fixpoint starts_with (pat s : str) : bool :=
  match pat, s with
  | [], _ => true
  | _ :: _, [] => false
  | p :: pat', c :: s' => Ascii.eqb p c && starts_with pat' s'
  end.

(** First occurrence of [pat] in [s], reported with offset [i]. *)
Fixpoint find_at (pat s : str) (i : nat) : option nat :=
  if starts_with pat s then Some i
  else match s with
       | [] => None
       | _ :: s' => find_at pat s' (S i)
       end.

(** [s.find(pat, pos)]. *)
Definition string_find (s pat : str) (pos : nat) : option nat :=
  if pos <=? length s then find_at pat (drop pos s) pos else None.

(** Last occurrence of [pat] in [s], reported with offset [i]. *)
Fixpoint rfind_at (pat s : str) (i : nat) : option nat :=
  match s with
  | [] => if starts_with pat [] then Some i else None
  | _ :: s' =>
      match rfind_at pat s' (S i) with
      | Some j => Some j
      | None => if starts_with pat s then Some i else None
      end
  end.

(** [s.rfind(pat)]. *)
Definition string_rfind (s pat : str) : option nat := rfind_at pat s 0.

(** [s.substr(pos)]: throws [std::out_of_range] when [pos > s.size()]. *)
Definition substr (s : str) (pos : nat) : option str :=
  if pos <=? length s then Some (drop pos s) else None.

(** [s.substr(pos, n)]: same exception, the count is clipped. *)
Definition substr_n (s : str) (pos n : nat) : option str :=
  if pos <=? length s then Some (take n (drop pos s)) else None.

(** ** LineCodec *)

Definition BOUNDARY : str := lit "] [".

(** [ExtractKey], lines 115-128. *)
Definition ExtractKey (line : str) : option str :=
  match string_find line BOUNDARY 0 with
  | None => Some line
  | Some first =>
      match string_find line BOUNDARY (first + 1) with
      | None => substr line (first + 2)
      | Some second =>
          if length line <=? second + 2 then Some line
          else substr line (second + 2)
      end
  end.

Definition REPEAT_PREFIX : str := lit " (repeated ".
Definition REPEAT_SUFFIX : str := lit " times)".

(** The digit loop of [TryParseRepeatSuffix], lines 143-148: [None] is the
    [return false] on a non-digit; the accumulator wraps like [std::size_t]. *)
Fixpoint parse_digits (cs : str) (value : Z) : option Z :=
  match cs with
  | [] => Some value
  | c :: cs' =>
      if isdigit c
      then parse_digits cs'
             ((value * 10 + (Z.of_nat (nat_of_ascii c) - 48)) mod SIZE_MOD)%Z
      else None
  end.

(** [TryParseRepeatSuffix], lines 130-153: [Some (outCount, suffixStartPos)]
    when it returns [true], [None] when it returns [false]. *)
Definition TryParseRepeatSuffix (s : str) : option (Z * nat) :=
  if length s <? length REPEAT_PREFIX + length REPEAT_SUFFIX + 1 then None
  else
    match string_rfind s REPEAT_PREFIX with
    | None => None
    | Some pos =>
        match string_rfind s REPEAT_SUFFIX with
        | None => None
        | Some end_ =>
            if negb (end_ + length REPEAT_SUFFIX =? length s) then None
            else if end_ <=? pos + length REPEAT_PREFIX then None
            else
              let numStart := pos + length REPEAT_PREFIX in
              let numLen := end_ - numStart in
              match parse_digits (take numLen (drop numStart s)) 0%Z with
              | None => None
              | Some value =>
                  if (value =? 0)%Z then None else Some (value, pos)
              end
        end
    end.

(** [StripRepeatSuffix], lines 155-161; [substr(0, n)] cannot throw. *)
Definition StripRepeatSuffix (s : str) : str :=
  match TryParseRepeatSuffix s with
  | Some (_, startPos) => take startPos s
  | None => s
  end.

(** ** EntrySplitter *)

(** [IsTimestampStart], lines 163-173. *)
Definition IsTimestampStart (s : str) (i : nat) : bool :=
  if length s <=? i then false
  else if negb (Ascii.eqb (char_at s i) "["%char) then false
  else if length s <=? i + 6 then false
  else isdigit (char_at s (i + 1)) &&
       isdigit (char_at s (i + 2)) &&
       isdigit (char_at s (i + 3)) &&
       isdigit (char_at s (i + 4)) &&
       Ascii.eqb (char_at s (i + 5)) "-"%char.

(** The [for] loop of [SplitConcatenatedLines], lines 179-187: [n] is the
    number of iterations left, [i] the loop variable. *)
Fixpoint split_loop (raw : str) (n i start : nat) (out : list str)
  : option (nat * list str) :=
  match n with
  | O => Some (start, out)
  | S n' =>
      if IsTimestampStart raw i then
        if start <? i then
          seg ← substr_n raw start (i - start);
          split_loop raw n' (S i) i (out ++ [seg])
        else split_loop raw n' (S i) i out
      else split_loop raw n' (S i) start out
  end.

(** [SplitConcatenatedLines], lines 175-191: the segments are appended to
    the vector [out] it is given. *)
Definition SplitConcatenatedLines (raw : str) (out : list str)
  : option (list str) :=
  '(start, out') ← split_loop raw (length raw - 1) 1 0 out;
  if start <? length raw then
    seg ← substr raw start;
    Some (out' ++ [seg])
  else Some out'.

(** ** DedupCompactor *)

(** The ceiling [Log] passes to the compaction, line 33. *)
Definition MAX_LOG_LINES : nat := 1000.

(** [struct Record], line 211. *)
Record Rec := mkRec { baseLine : str; count : Z; lastIndex : nat }.

(** The [else] branch of the loop body, lines 238-241, applied to the
    element [records[it->second]]. *)
Definition bump (parsedCount : Z) (i : nat) (base : str) (kv : str * Rec)
  : str * Rec :=
  (kv.1, {| baseLine := base;
            count := ((count kv.2 + parsedCount) mod SIZE_MOD)%Z;
            lastIndex := i |}).

(** One iteration of the loop of lines 216-243 on [lines[i] = l]. The state
    is the pair of [indexByKey] and [records]. [records[idx]] is an unchecked
    access in the source; [alter] leaves the vector alone out of range, and
    [dedup_loop_index_valid] below shows that [idx] is always in range. *)
Definition process_line (i : nat) (l : str)
    (st : gmap str nat * list (str * Rec))
  : option (gmap str nat * list (str * Rec)) :=
  let '(parsedCount, suffixStart) :=
    match TryParseRepeatSuffix l with
    | Some (c, p) => (c, Some p)
    | None => (1%Z, None)
    end in
  let base := match suffixStart with None => l | Some p => take p l end in
  key ← ExtractKey base;
  match st.1 !! key with
  | None =>
      let idx := length st.2 in
      Some (<[key := idx]> st.1,
            st.2 ++ [(key, {| baseLine := base; count := parsedCount;
                              lastIndex := i |})])
  | Some idx => Some (st.1, alter (bump parsedCount i base) idx st.2)
  end.

(** The loop of lines 216-243 from index [i] on. *)
Fixpoint dedup_loop (lines : list str) (i : nat)
    (st : gmap str nat * list (str * Rec))
  : option (gmap str nat * list (str * Rec)) :=
  match lines with
  | [] => Some st
  | l :: rest => st' ← process_line i l st; dedup_loop rest (S i) st'
  end.

(** [std::stable_sort] with the comparator [a.lastIndex < b.lastIndex],
    lines 246-248, as a stable insertion sort: an element is placed before
    the first element that is not strictly older than it. *)
Fixpoint insert_by_recency (x : str * Rec) (l : list (str * Rec))
  : list (str * Rec) :=
  match l with
  | [] => [x]
  | y :: l' =>
      if lastIndex y.2 <? lastIndex x.2 then y :: insert_by_recency x l'
      else x :: l
  end.

Definition stable_sort (l : list (str * Rec)) : list (str * Rec) :=
  foldr insert_by_recency [] l.

(** [records.erase(begin, end - maxLines)] under its guard, lines 249-251. *)
Definition trim (maxLines : nat) (records : list (str * Rec))
  : list (str * Rec) :=
  if maxLines <? length records
  then drop (length records - maxLines) records
  else records.

(** Lines 211-251: the records that are left to write. *)
Definition compact_records (lines : list str) (maxLines : nat)
  : option (list (str * Rec)) :=
  st ← dedup_loop lines 0 (∅, []);
  Some (trim maxLines (stable_sort st.2)).

(** [operator<<] for a [std::size_t]: its decimal digits, most significant
    first, no leading zero. The digits are produced from the least
    significant one; a 64-bit value has at most 20 of them. *)
Definition digit_char (d : Z) : ascii := ascii_of_nat (Z.to_nat (48 + d)).

Fixpoint decimal_digits (fuel : nat) (n : Z) (acc : str) : str :=
  match fuel with
  | O => acc
  | S fuel' =>
      let acc' := digit_char (n mod 10) :: acc in
      if (n / 10 =? 0)%Z then acc' else decimal_digits fuel' (n / 10) acc'
  end.

Definition size_to_string (n : Z) : str := decimal_digits 20 n [].

(** The body of the output loop, lines 256-262, without the newline. *)
Definition SerializeRecord (rec : Rec) : str :=
  if (1 <? count rec)%Z
  then baseLine rec ++ lit " (repeated " ++ size_to_string (count rec)
         ++ lit " times)"
  else baseLine rec.

Definition NEWLINE : ascii := "010"%char.

(** The output loop, lines 255-263. *)
Definition write_records (records : list (str * Rec)) : str :=
  flat_map (fun kv => SerializeRecord kv.2 ++ [NEWLINE]) records.

(** The [std::getline] loop over the whole stream: a line ends at a newline,
    which is dropped; at the end of the stream [getline] succeeds only if it
    extracted at least one character. [line] is the line read so far. *)
Fixpoint read_lines (stream : str) (line : str) : list str :=
  match stream with
  | [] => match line with [] => [] | _ => [line] end
  | c :: rest =>
      if Ascii.eqb c NEWLINE then line :: read_lines rest []
      else read_lines rest (line ++ [c])
  end.

Definition nonempty (s : str) : bool :=
  match s with [] => false | _ => true end.

(** The body of the reading loop, lines 199-205, over the physical lines. *)
Fixpoint collect_lines (phys : list str) (lines : list str)
  : option (list str) :=
  match phys with
  | [] => Some lines
  | line :: rest =>
      if nonempty line then
        parts ← SplitConcatenatedLines line [];
        collect_lines rest (lines ++ filter (fun p => nonempty p = true) parts)
      else collect_lines rest lines
  end.

(** The log file as the function sees it: whether it can be opened for
    reading, whether it can be opened for writing, and its bytes. *)
Record LogFile := mkLogFile { readable : bool; writable : bool; content : str }.

(** What one call does to the file: it returns without opening the file for
    writing, or it truncates the file and writes these bytes. *)
Inductive Outcome :=
  | Untouched
  | Rewritten (bytes : str).

(** [CompressAndTrimLogFile], lines 193-265. *)
Definition CompressAndTrimLogFile (f : LogFile) (maxLines : nat)
  : option Outcome :=
  if negb (readable f) then Some Untouched
  else
    lines ← collect_lines (read_lines (content f) []) [];
    match lines with
    | [] => Some Untouched
    | _ =>
        records ← compact_records lines maxLines;
        if negb (writable f) then Some Untouched
        else Some (Rewritten (write_records records))
    end.

(** The file after a call with this outcome. *)
Definition file_after (f : LogFile) (o : Outcome) : LogFile :=
  match o with
  | Untouched => f
  | Rewritten bytes =>
      {| readable := readable f; writable := writable f; content := bytes |}
  end.

(** ** LogWriter: the rendered line *)

(** [enum class LogLevel] of [include/Logger.h]. *)
Inductive LogLevel := trace | debug | info | warning | error | critical.

(** The table [levelStr] of [Log], line 293. *)
Definition levelStr (level : LogLevel) : str :=
  match level with
  | trace => lit "TRACE"
  | debug => lit "DEBUG"
  | info => lit "INFO"
  | warning => lit "WARNING"
  | error => lit "ERROR"
  | critical => lit "CRITICAL"
  end.

(** [baseLine] of [Log], lines 298-305, for a given timestamp. *)
Definition render_line (timestamp : str) (level : LogLevel)
    (message messenger : str) : str :=
  if nonempty messenger
  then lit "[" ++ timestamp ++ lit "] [" ++ messenger ++ lit "] ["
         ++ levelStr level ++ lit "] " ++ message
  else lit "[" ++ timestamp ++ lit "] [" ++ levelStr level ++ lit "] "
         ++ message.

(** [key] of [Log], line 307: the key the writer means. *)
Definition dedup_key (level : LogLevel) (message : str) : str :=
  lit "[" ++ levelStr level ++ lit "] " ++ message.

(** ** Vocabulary of the statements *)

(** The boundary ["] ["] sits at position [k] of [line]. *)
Definition boundary_at (line : str) (k : nat) : Prop :=
  starts_with BOUNDARY (drop k line) = true.

(** [k] is the first boundary of [line] at or after [pos]. *)
Definition first_boundary_from (line : str) (pos k : nat) : Prop :=
  pos <= k /\ boundary_at line k /\
  forall j, pos <= j -> j < k -> ~ boundary_at line j.

Definition no_boundary_from (line : str) (pos : nat) : Prop :=
  forall j, pos <= j -> ~ boundary_at line j.

(** The character [c] does not occur in [s]. *)
Definition lacks (c : ascii) (s : str) : bool :=
  forallb (fun x => negb (Ascii.eqb x c)) s.

(** A rendered entry whose fields do not imitate the field separators: no
    closing bracket in the timestamp or in the messenger and, when there is
    no messenger, a message that neither opens with a bracket nor contains
    the boundary. *)
Definition well_delimited (timestamp message messenger : str) : bool :=
  lacks "]"%char timestamp && lacks "]"%char messenger &&
  (nonempty messenger ||
   (negb (starts_with (lit "[") message) &&
    match string_find message BOUNDARY 0 with None => true | Some _ => false end)).

(** Where the key starts in [line]: the positions [ExtractKey] passes to
    [substr], and 0 where it returns the line itself. *)
Definition key_offset (line : str) : nat :=
  match string_find line BOUNDARY 0 with
  | None => 0
  | Some first =>
      match string_find line BOUNDARY (first + 1) with
      | None => first + 2
      | Some second => second + 2
      end
  end.

Definition key_of (line : str) : str := drop (key_offset line) line.

(** The year prefix of a timestamp: an opening bracket, four digits and a
    dash. *)
Definition year_prefix (c0 c1 c2 c3 c4 c5 : ascii) : bool :=
  Ascii.eqb c0 "["%char && isdigit c1 && isdigit c2 && isdigit c3 &&
  isdigit c4 && Ascii.eqb c5 "-"%char.

(** The six positions [i .. i+5] exist in [s] and hold a year prefix. *)
Definition year_prefix_at (s : str) (i : nat) : bool :=
  (i + 5 <? length s) &&
  year_prefix (char_at s i) (char_at s (i + 1)) (char_at s (i + 2))
    (char_at s (i + 3)) (char_at s (i + 4)) (char_at s (i + 5)).

(** No position after the first starts a timestamp: the splitter leaves
    such a line in one piece. *)
Definition no_inner_start (s : str) : Prop :=
  forall j, 1 <= j -> IsTimestampStart s j = false.

(** Reading the digits written for [n] after an accumulator [v]. *)
Definition reads_as (ds : str) (n : Z) : Prop :=
  forall v, parse_digits ds v
            = Some ((v * 10 ^ Z.of_nat (length ds) + n) mod SIZE_MOD)%Z.

(** How many occurrences a logical line stands for: the parsed count, 1
    without a repeat suffix. *)
Definition line_mult (l : str) : Z :=
  match TryParseRepeatSuffix l with
  | Some (c, _) => c
  | None => 1%Z
  end.

(** The key of a logical line: the key of its text without the suffix. *)
Definition line_key (l : str) : str := key_of (StripRepeatSuffix l).

(** The sum, over the integers, of the multiplicities of the lines of key
    [k]. *)
Fixpoint mult_sum (k : str) (lines : list str) : Z :=
  match lines with
  | [] => 0%Z
  | l :: rest =>
      ((if decide (line_key l = k) then line_mult l else 0) + mult_sum k rest)%Z
  end.

(** [l] is the line at index [j], the last one of key [k]. *)
Definition last_occurrence (lines : list str) (k : str) (j : nat) (l : str)
  : Prop :=
  lines !! j = Some l /\ line_key l = k /\
  forall j' l', j < j' -> lines !! j' = Some l' -> line_key l' <> k.

(** The state of the loop once the lines [done] are processed: the map
    sends a key to the index of its record and nothing else; a record holds
    the wrapped sum of the multiplicities of its key and the data of the
    last line of that key; every key seen is in the map. *)
Definition dedup_inv (done : list str) (st : gmap str nat * list (str * Rec))
  : Prop :=
  (forall k idx, st.1 !! k = Some idx <-> exists r, st.2 !! idx = Some (k, r)) /\
  (forall idx k r, st.2 !! idx = Some (k, r) ->
     count r = (mult_sum k done mod SIZE_MOD)%Z /\
     exists l, last_occurrence done k (lastIndex r) l /\
               baseLine r = StripRepeatSuffix l) /\
  (forall l, l ∈ done -> is_Some (st.1 !! line_key l)).

(** The order of the sort: not more recent than. *)
Definition by_recency (a b : str * Rec) : Prop :=
  lastIndex a.2 <= lastIndex b.2.

(** The sum, over the integers, of the counts of a list of records. *)
Definition count_sum (records : list (str * Rec)) : Z :=
  foldr (fun kv acc => (count kv.2 + acc)%Z) 0%Z records.

(** The sum of the multiplicities of the lines whose key is one of [keys]. *)
Definition retained_sum (keys : list str) (lines : list str) : Z :=
  foldr (fun l acc =>
           ((if decide (line_key l ∈ keys) then line_mult l else 0) + acc)%Z)
        0%Z lines.

(** The sum over [keys] of the sums per key. *)
Definition key_sum (keys : list str) (lines : list str) : Z :=
  foldr (fun k acc => (mult_sum k lines + acc)%Z) 0%Z keys.

(** The logical lines of a file: the vector [lines] after the reading
    loop of [CompressAndTrimLogFile]. *)
Definition logical_lines (bytes : str) : option (list str) :=
  collect_lines (read_lines bytes []) [].

(** One call, as a function on files. *)
Definition compact_file (f : LogFile) (maxLines : nat) : option LogFile :=
  o ← CompressAndTrimLogFile f maxLines; Some (file_after f o).

(** The line ends with a year prefix that has something before it. *)
Definition dangling_year_prefix (b : str) : bool :=
  (7 <=? length b) && year_prefix_at b (length b - 6).

(** A base line that is written and read back as it is: it is not empty,
    it does not itself end with a repeat suffix, and it does not end with a
    year prefix. *)
Definition stable_base (b : str) : bool :=
  nonempty b &&
  match TryParseRepeatSuffix b with None => true | Some _ => false end &&
  negb (dangling_year_prefix b).

(** A file all of whose logical lines have a stable base line. *)
Definition stable_file (bytes : str) : Prop :=
  exists lines, logical_lines bytes = Some lines /\
    Forall (fun l => stable_base (StripRepeatSuffix l) = true) lines.

(** The records the loop builds from lines of pairwise distinct keys,
    starting at index [i]. *)
Fixpoint fresh_records (i : nat) (lines : list str) : list (str * Rec) :=
  match lines with
  | [] => []
  | l :: rest =>
      (line_key l, mkRec (StripRepeatSuffix l) (line_mult l) i)
        :: fresh_records (S i) rest
  end.

(** A record that is written and read back as it is: its key is the key
    of its base line, its base line is stable, is left in one piece by the
    splitter and holds no newline, and its count is a [std::size_t]. *)
Definition stable_record (kv : str * Rec) : Prop :=
  kv.1 = key_of (baseLine kv.2) /\
  stable_base (baseLine kv.2) = true /\
  no_inner_start (baseLine kv.2) /\
  lacks NEWLINE (baseLine kv.2) = true /\
  (0 <= count kv.2 < SIZE_MOD)%Z.

(** The number a run of digit characters denotes, read from the value [v]
    on, over the integers. *)
Definition decimal_from (v : Z) (ds : str) : Z :=
  foldl (fun acc c => (acc * 10 + (Z.of_nat (nat_of_ascii c) - 48))%Z) v ds.

Definition decimal_value (ds : str) : Z := decimal_from 0 ds.

(** [no_inner_start] as a test. *)
Definition no_inner_startb (s : str) : bool :=
  forallb (fun j => negb (IsTimestampStart s j)) (seq 1 (length s)).

(** ** LogWriter: [Log] *)

(** The ANSI colour codes, lines 20-26. *)
Definition ESC : ascii := "027"%char.
Definition YELLOW : str := ESC :: lit "[33m".
Definition BLUE : str := ESC :: lit "[34m".
Definition GRAY : str := ESC :: lit "[90m".
Definition RED : str := ESC :: lit "[31m".
Definition BRIGHT_RED : str := ESC :: lit "[91m".
Definition RESET : str := ESC :: lit "[0m".

(** The table [colorStr] of [Log], line 294. *)
Definition colorStr (level : LogLevel) : str :=
  match level with
  | trace => BLUE
  | debug => []
  | info => GRAY
  | warning => YELLOW
  | error => RED
  | critical => BRIGHT_RED
  end.

(** What [Log] acts on: the bytes sent so far to [std::cout] and to
    [std::cerr], and the log file. The file exists and its permissions do
    not change: opening it for appending succeeds exactly when it is
    [writable]. *)
Record World := mkWorld { cout : str; cerr : str; logfile : LogFile }.

(** [out << text] on the stream [Log] chooses, line 310. *)
Definition echo (level : LogLevel) (text : str) (w : World) : World :=
  match level with
  | error | critical =>
      {| cout := cout w; cerr := cerr w ++ text; logfile := logfile w |}
  | _ => {| cout := cout w ++ text; cerr := cerr w; logfile := logfile w |}
  end.

(** The append of lines 317-324. *)
Definition append_line (logPath baseLine : str) (w : World) : World :=
  if writable (logfile w) then
    {| cout := cout w; cerr := cerr w;
       logfile := {| readable := readable (logfile w);
                     writable := writable (logfile w);
                     content := content (logfile w) ++ baseLine ++ [NEWLINE] |} |}
  else
    {| cout := cout w;
       cerr := cerr w ++ RED ++ lit "[ERROR] Failed to open log file '"
                 ++ logPath ++ lit "' for writing." ++ RESET ++ [NEWLINE];
       logfile := logfile w |}.

(** [Log], lines 290-328, given what [GetTimestamp] and [GetLogPathOnce]
    return; [std::endl] writes a newline. The mutex is not modelled: calls
    are sequential. *)
Definition Log (timestamp logPath : str) (level : LogLevel)
    (message messenger : str) (w : World) : option World :=
  let baseLine := render_line timestamp level message messenger in
  let w1 := echo level (colorStr level ++ baseLine ++ RESET ++ [NEWLINE]) w in
  let w2 := append_line logPath baseLine w1 in
  o ← CompressAndTrimLogFile (logfile w2) MAX_LOG_LINES;
  Some {| cout := cout w2; cerr := cerr w2;
          logfile := file_after (logfile w2) o |}.

(** The two-argument overload, lines 286-288. *)
Definition Log_no_messenger (timestamp logPath : str) (level : LogLevel)
    (message : str) (w : World) : option World :=
  Log timestamp logPath level message [] w.

(** Successive calls of [Log] with one level and one message, each with
    its timestamp and messenger. *)
Fixpoint Log_each (logPath : str) (level : LogLevel) (message : str)
    (entries : list (str * str)) (w : World) : option World :=
  match entries with
  | [] => Some w
  | e :: rest =>
      w' ← Log e.1 logPath level message e.2 w;
      Log_each logPath level message rest w'
  end.

(** An entry whose rendered line is written and read back as it is: it is
    well delimited, holds no newline and no timestamp start after its first
    character, and is a stable base line. *)
Definition clean_entry (timestamp : str) (level : LogLevel)
    (message messenger : str) : bool :=
  well_delimited timestamp message messenger &&
  lacks NEWLINE (render_line timestamp level message messenger) &&
  no_inner_startb (render_line timestamp level message messenger) &&
  stable_base (render_line timestamp level message messenger).

(** ** PathResolver: [GetLogPathOnce] in the [__linux__] configuration *)

(** What the function reads from its environment: the two variables
    ([None] when [std::getenv] returns a null pointer), whether
    [create_directories] reports an error for a directory, and what
    [readlink("/proc/self/exe")] gives ([None] when it returns -1). *)
Record Env := mkEnv {
  XDG_STATE_HOME : option str;
  HOME : option str;
  create_directories_fails : str -> bool;
  proc_self_exe : option str
}.

(** [p / q] of [std::filesystem::path] for a relative [q], in the POSIX
    format: a separator is added when [p] has a file name, that is when it
    is not empty and does not end with a separator. *)
Definition path_append (p q : str) : str :=
  match last p with
  | None => q
  | Some c => if Ascii.eqb c "/"%char then p ++ q else p ++ lit "/" ++ q
  end.

(** [s.find_last_of(set)], reported with offset [i]. *)
Fixpoint find_last_of_at (set s : str) (i : nat) : option nat :=
  match s with
  | [] => None
  | c :: s' =>
      match find_last_of_at set s' (S i) with
      | Some j => Some j
      | None => if existsb (Ascii.eqb c) set then Some i else None
      end
  end.

Definition find_last_of (s set : str) : option nat := find_last_of_at set s 0.

(** The directory of the executable, lines 99-109; [substr(0, pos)] cannot
    throw. *)
Definition exeDir_of (env : Env) : str :=
  match proc_self_exe env with
  | Some path =>
      match find_last_of path (lit "/") with
      | Some pos => take pos path
      | None => []
      end
  | None => []
  end.

(** [GetLogPathOnce], lines 36-113: the static [cachedPath] is passed in
    and out; the result is the pair of the string returned and of the new
    [cachedPath]. *)
Definition GetLogPathOnce (env : Env) (cachedPath : str) : str * str :=
  if nonempty cachedPath then (cachedPath, cachedPath)
  else
    let home_base :=
      path_append
        (path_append (match HOME env with Some h => h | None => lit "." end)
           (lit ".local"))
        (lit "state") in
    let base :=
      match XDG_STATE_HOME env with
      | Some x => if nonempty x then x else home_base
      | None => home_base
      end in
    let p := path_append base (lit "C6GE") in
    if negb (create_directories_fails env p) then
      (path_append p (lit "log.txt"), path_append p (lit "log.txt"))
    else (exeDir_of env ++ lit "/log.txt", exeDir_of env ++ lit "/log.txt").

(** The boundary does not occur in [s] at or after [pos]. *)
Definition boundary_free_from (s : str) (pos : nat) : bool :=
  match string_find s BOUNDARY pos with None => true | Some _ => false end.

(** The entries whose rendered line gives back the writer's key. With a
    messenger: the boundary occurs neither in the timestamp nor in the
    messenger. Without: the boundary does not occur in the timestamp and the
    message neither opens with a bracket nor contains the boundary, or the
    boundary occurs exactly once in the timestamp (it is then read as the
    end of the timestamp, and the true end as the end of a messenger). *)
Definition key_recoverable (timestamp message messenger : str) : bool :=
  if nonempty messenger
  then boundary_free_from timestamp 0 && boundary_free_from messenger 0
  else match string_find timestamp BOUNDARY 0 with
       | None =>
           negb (starts_with (lit "[") message) && boundary_free_from message 0
       | Some p => boundary_free_from timestamp (p + 1)
       end.

(** * Properties *)

#[local] Arguments Ascii.eqb : simpl never.

(** Settles a boolean comparison whose value follows from the context:
    the impossible branch is closed by arithmetic. *)
Ltac settle_cmp b :=
  let E := fresh "E" in
  destruct b eqn:E;
  [ try (exfalso;
         first [ apply Nat.ltb_lt in E | apply Nat.leb_le in E
               | apply Nat.eqb_eq in E | apply Z.ltb_lt in E
               | apply Z.eqb_eq in E ]; lia)
  | try (exfalso;
         first [ apply Nat.ltb_ge in E | apply Nat.leb_gt in E
               | apply Nat.eqb_neq in E | apply Z.ltb_ge in E
               | apply Z.eqb_neq in E ]; lia) ];
  clear E.

(** ** Searching in strings *)

Lemma starts_with_app (pat s : str) : starts_with pat (pat ++ s) = true.
Proof.
  induction pat as [|p pat IH]; simpl; [reflexivity|].
  rewrite Ascii.eqb_refl. exact IH.
Qed.

Lemma starts_with_inv (pat s : str) :
  starts_with pat s = true -> exists t, s = pat ++ t.
Proof.
  revert s. induction pat as [|p pat IH]; intros s H.
  - exists s. reflexivity.
  - destruct s as [|c s]; simpl in H; [discriminate|].
    apply andb_true_iff in H as [Hc Hs].
    apply Ascii.eqb_eq in Hc. subst c.
    destruct (IH _ Hs) as [t ->]. exists t. reflexivity.
Qed.

Lemma starts_with_length (pat s : str) :
  starts_with pat s = true -> length pat <= length s.
Proof.
  intros H. destruct (starts_with_inv _ _ H) as [t ->].
  rewrite length_app. lia.
Qed.

Lemma starts_with_short (pat s : str) :
  length s < length pat -> starts_with pat s = false.
Proof.
  intros Hlt. destruct (starts_with pat s) eqn:E; [|reflexivity].
  apply starts_with_length in E. lia.
Qed.

(** What [find_at] returns is the first position where [pat] occurs. *)
Lemma find_at_Some (pat s : str) (i j : nat) :
  find_at pat s i = Some j <->
  exists k, j = i + k /\ k <= length s /\
            starts_with pat (drop k s) = true /\
            forall k', k' < k -> starts_with pat (drop k' s) = false.
Proof.
  revert i j. induction s as [|c s IH]; intros i j; simpl.
  - destruct (starts_with pat []) eqn:E.
    + split.
      * intros [= <-]. exists 0. split_and!; [lia|simpl; lia|exact E|intros; lia].
      * intros (k & -> & Hk & _ & _). simpl in Hk.
        replace k with 0 by lia. f_equal. lia.
    + split; [discriminate|].
      intros (k & _ & Hk & Hp & _). simpl in Hk.
      replace k with 0 in Hp by lia. simpl in Hp. congruence.
  - destruct (starts_with pat (c :: s)) eqn:E.
    + split.
      * intros [= <-]. exists 0. split_and!; [lia|simpl; lia|exact E|intros; lia].
      * intros (k & -> & _ & _ & Hmin).
        destruct k as [|k]; [f_equal; lia|].
        specialize (Hmin 0 ltac:(lia)). simpl in Hmin. congruence.
    + rewrite IH. split.
      * intros (k & -> & Hk & Hp & Hmin). exists (S k).
        split_and!; [lia|simpl; lia|exact Hp|].
        intros [|k'] Hlt; [exact E|]. simpl. apply Hmin. lia.
      * intros (k & -> & Hk & Hp & Hmin).
        destruct k as [|k]; [simpl in Hp; congruence|].
        exists k. split_and!; [lia|simpl in Hk; lia|exact Hp|].
        intros k' Hlt. apply (Hmin (S k')). lia.
Qed.

Lemma find_at_None (pat s : str) (i : nat) :
  find_at pat s i = None <->
  forall k, k <= length s -> starts_with pat (drop k s) = false.
Proof.
  revert i. induction s as [|c s IH]; intros i; simpl.
  - destruct (starts_with pat []) eqn:E.
    + split; [discriminate|]. intros H. specialize (H 0 ltac:(lia)).
      simpl in H. congruence.
    + split; [|reflexivity]. intros _ k Hk.
      replace k with 0 by lia. exact E.
  - destruct (starts_with pat (c :: s)) eqn:E.
    + split; [discriminate|]. intros H. specialize (H 0 ltac:(lia)).
      simpl in H. congruence.
    + rewrite IH. split.
      * intros H [|k] Hk; [exact E|]. simpl. apply H. lia.
      * intros H k Hk. apply (H (S k)). lia.
Qed.

Lemma string_find_Some (s pat : str) (pos k : nat) :
  string_find s pat pos = Some k <->
  pos <= k /\ k <= length s /\ starts_with pat (drop k s) = true /\
  forall j, pos <= j -> j < k -> starts_with pat (drop j s) = false.
Proof.
  unfold string_find. destruct (pos <=? length s) eqn:Hpos.
  - apply Nat.leb_le in Hpos. rewrite find_at_Some. split.
    + intros (d & -> & Hd & Hp & Hmin). rewrite length_drop in Hd.
      rewrite drop_drop in Hp. split_and!; [lia|lia|exact Hp|].
      intros j Hj Hlt. specialize (Hmin (j - pos) ltac:(lia)).
      rewrite drop_drop in Hmin. replace (pos + (j - pos)) with j in Hmin by lia.
      exact Hmin.
    + intros (Hle & Hk & Hp & Hmin). exists (k - pos).
      rewrite length_drop, drop_drop.
      replace (pos + (k - pos)) with k by lia.
      split_and!; [lia|lia|exact Hp|].
      intros k' Hlt. rewrite drop_drop. apply Hmin; lia.
  - apply Nat.leb_gt in Hpos. split; [discriminate|]. lia.
Qed.

Lemma string_find_None (s pat : str) (pos : nat) :
  pat <> [] ->
  (string_find s pat pos = None <->
   forall j, pos <= j -> starts_with pat (drop j s) = false).
Proof.
  intros Hpat. unfold string_find. destruct (pos <=? length s) eqn:Hpos.
  - apply Nat.leb_le in Hpos. rewrite find_at_None. split.
    + intros H j Hj. destruct (decide (j <= length s)) as [Hle|Hgt].
      * specialize (H (j - pos)). rewrite length_drop, drop_drop in H.
        replace (pos + (j - pos)) with j in H by lia. apply H. lia.
      * rewrite drop_ge by lia. destruct pat; [congruence|reflexivity].
    + intros H k Hk. rewrite drop_drop. apply H. lia.
  - split; [|reflexivity]. intros _ j Hj. apply Nat.leb_gt in Hpos.
    rewrite drop_ge by lia. destruct pat; [congruence|reflexivity].
Qed.

(** ** ExtractKey *)

Lemma BOUNDARY_nonempty : BOUNDARY <> [].
Proof. discriminate. Qed.

Lemma boundary_room (line : str) (k : nat) :
  starts_with BOUNDARY (drop k line) = true -> k + 3 <= length line.
Proof.
  intros H. apply starts_with_length in H.
  rewrite length_drop in H. change (length BOUNDARY) with 3 in H. lia.
Qed.

(** [ExtractKey] never throws: both calls of [substr] are in range, and the
    guard of line 126 never fires. *)
Lemma ExtractKey_offset (line : str) : ExtractKey line = Some (key_of line).
Proof.
  unfold ExtractKey, key_of, key_offset.
  destruct (string_find line BOUNDARY 0) as [first|] eqn:E1; [|reflexivity].
  apply string_find_Some in E1 as (_ & _ & H1 & _).
  apply boundary_room in H1.
  destruct (string_find line BOUNDARY (first + 1)) as [second|] eqn:E2.
  - apply string_find_Some in E2 as (_ & _ & H2 & _).
    apply boundary_room in H2.
    settle_cmp (length line <=? second + 2).
    unfold substr. destruct (second + 2 <=? length line) eqn:Hs;
      [reflexivity|apply Nat.leb_gt in Hs; lia].
  - unfold substr. destruct (first + 2 <=? length line) eqn:Hs;
      [reflexivity|apply Nat.leb_gt in Hs; lia].
Qed.

Lemma first_boundary_find (line : str) (pos k : nat) :
  first_boundary_from line pos k <-> string_find line BOUNDARY pos = Some k.
Proof.
  unfold first_boundary_from, boundary_at. rewrite string_find_Some. split.
  - intros (Hle & Hk & Hmin). split_and!; [exact Hle| |exact Hk|].
    + apply boundary_room in Hk. lia.
    + intros j Hj Hlt. specialize (Hmin j Hj Hlt).
      destruct (starts_with BOUNDARY (drop j line)); [congruence|reflexivity].
  - intros (Hle & _ & Hk & Hmin). split_and!; [exact Hle|exact Hk|].
    intros j Hj Hlt. rewrite (Hmin j Hj Hlt). discriminate.
Qed.

Lemma no_boundary_find (line : str) (pos : nat) :
  no_boundary_from line pos <-> string_find line BOUNDARY pos = None.
Proof.
  unfold no_boundary_from, boundary_at.
  rewrite (string_find_None _ _ _ BOUNDARY_nonempty). split.
  - intros H j Hj. specialize (H j Hj).
    destruct (starts_with BOUNDARY (drop j line)); [congruence|reflexivity].
  - intros H j Hj. rewrite (H j Hj). discriminate.
Qed.

(** The three cases of [ExtractKey], in terms of the boundaries of the line. *)
Lemma ExtractKey_cases (line : str) :
  (no_boundary_from line 0 -> key_of line = line) /\
  (forall first, first_boundary_from line 0 first ->
     no_boundary_from line (first + 1) ->
     key_of line = drop (first + 2) line) /\
  (forall first second, first_boundary_from line 0 first ->
     first_boundary_from line (first + 1) second ->
     key_of line = drop (second + 2) line).
Proof.
  unfold key_of, key_offset. split_and!.
  - intros H. apply no_boundary_find in H. rewrite H. reflexivity.
  - intros first H1 H2. apply first_boundary_find in H1.
    apply no_boundary_find in H2. rewrite H1, H2. reflexivity.
  - intros first second H1 H2. apply first_boundary_find in H1.
    apply first_boundary_find in H2. rewrite H1, H2. reflexivity.
Qed.

(** C9. For every line, [ExtractKey] returns (it does not throw) and what it
    returns is a suffix of the line: the line is some prefix followed by the
    key. *)
Theorem ExtractKey_is_suffix (line : str) :
  exists key, ExtractKey line = Some key /\ key `suffix_of` line.
Proof.
  exists (key_of line). split; [apply ExtractKey_offset|].
  exists (take (key_offset line) line). unfold key_of.
  symmetry. apply take_drop.
Qed.

Lemma find_at_here (pat s : str) (i : nat) :
  starts_with pat s = true -> find_at pat s i = Some i.
Proof. intros H. destruct s; simpl in *; rewrite H; reflexivity. Qed.

Lemma find_at_None_offset (pat s : str) (i j : nat) :
  find_at pat s i = None -> find_at pat s j = None.
Proof. rewrite !find_at_None. auto. Qed.

Lemma find_at_skip (p rest : str) (i : nat) :
  lacks "]"%char p = true ->
  find_at BOUNDARY (p ++ rest) i = find_at BOUNDARY rest (i + length p).
Proof.
  revert i. induction p as [|c p IH]; intros i Hp; simpl.
  - f_equal. lia.
  - simpl in Hp. apply andb_true_iff in Hp as [Hc Hp].
    replace (Ascii.eqb "]" c) with false.
    + simpl. rewrite IH by exact Hp. f_equal. lia.
    + rewrite Ascii.eqb_sym. apply negb_true_iff in Hc. congruence.
Qed.

Lemma string_find_app (P Q pat : str) (n : nat) :
  n = length P -> string_find (P ++ Q) pat n = find_at pat Q n.
Proof.
  intros ->. unfold string_find. rewrite length_app.
  settle_cmp (length P <=? length P + length Q).
  rewrite drop_app_length. reflexivity.
Qed.

Lemma string_find_first (A R : str) :
  lacks "]"%char A = true ->
  string_find (A ++ BOUNDARY ++ R) BOUNDARY 0 = Some (length A).
Proof.
  intros HA. unfold string_find. rewrite drop_0. simpl (0 <=? _).
  rewrite find_at_skip by exact HA. apply find_at_here, starts_with_app.
Qed.

(** The shape of a line with a messenger: two boundaries, nothing that
    looks like one before them. *)
Lemma key_of_two_boundaries (A B R : str) :
  lacks "]"%char A = true -> lacks "]"%char B = true ->
  key_of (A ++ BOUNDARY ++ B ++ BOUNDARY ++ R) = "["%char :: R.
Proof.
  intros HA HB. unfold key_of, key_offset.
  rewrite (string_find_first A _ HA).
  assert (Hsnd : string_find (A ++ BOUNDARY ++ B ++ BOUNDARY ++ R) BOUNDARY
                   (length A + 1) = Some (length A + 3 + length B)).
  { change (A ++ BOUNDARY ++ B ++ BOUNDARY ++ R)
      with (A ++ ["]"%char] ++ (lit " [" ++ B) ++ BOUNDARY ++ R).
    rewrite (app_assoc A). rewrite string_find_app by (rewrite length_app; simpl; lia).
    rewrite (find_at_skip (lit " [" ++ B)).
    - rewrite find_at_here by apply starts_with_app.
      f_equal. rewrite length_app. simpl. lia.
    - simpl. exact HB. }
  rewrite Hsnd.
  change (A ++ BOUNDARY ++ B ++ BOUNDARY ++ R)
    with (A ++ BOUNDARY ++ B ++ lit "] " ++ "["%char :: R).
  rewrite !app_assoc. rewrite drop_app_length'; [reflexivity|].
  rewrite !length_app. simpl. lia.
Qed.

(** The shape of a line without messenger: one boundary and none after. *)
Lemma key_of_one_boundary (A R : str) :
  lacks "]"%char A = true ->
  find_at BOUNDARY (lit " [" ++ R) 0 = None ->
  key_of (A ++ BOUNDARY ++ R) = "["%char :: R.
Proof.
  intros HA HR. unfold key_of, key_offset.
  rewrite (string_find_first A _ HA).
  assert (Hsnd : string_find (A ++ BOUNDARY ++ R) BOUNDARY (length A + 1)
                 = None).
  { change (A ++ BOUNDARY ++ R) with (A ++ ["]"%char] ++ lit " [" ++ R).
    rewrite (app_assoc A).
    rewrite string_find_app by (rewrite length_app; simpl; lia).
    exact (find_at_None_offset _ _ _ _ HR). }
  rewrite Hsnd.
  change (A ++ BOUNDARY ++ R) with (A ++ lit "] " ++ "["%char :: R).
  rewrite app_assoc. rewrite drop_app_length'; [reflexivity|].
  rewrite length_app. simpl. lia.
Qed.

Lemma levelStr_lacks (level : LogLevel) : lacks "]"%char (levelStr level) = true.
Proof. destruct level; reflexivity. Qed.

Lemma lacks_app (c : ascii) (s t : str) :
  lacks c (s ++ t) = lacks c s && lacks c t.
Proof. apply forallb_app. Qed.

Lemma find_at_after_level (message : str) (i : nat) :
  starts_with (lit "[") message = false ->
  find_at BOUNDARY message 0 = None ->
  find_at BOUNDARY (lit "] " ++ message) i = None.
Proof.
  intros Hopen Hin. apply find_at_None. intros k Hk.
  destruct k as [|[|k]].
  - change (starts_with BOUNDARY (drop 0 (lit "] " ++ message)))
      with (Ascii.eqb "]" "]" && (Ascii.eqb " " " " && starts_with (lit "[") message)).
    rewrite Hopen, !andb_false_r. reflexivity.
  - reflexivity.
  - change (drop (S (S k)) (lit "] " ++ message)) with (drop k message).
    rewrite find_at_None in Hin. apply Hin.
    change (length (lit "] " ++ message)) with (S (S (length message))) in Hk.
    lia.
Qed.

(** On a well delimited entry [ExtractKey] finds the key the writer means. *)
Lemma key_of_render_line (timestamp : str) (level : LogLevel)
    (message messenger : str) :
  well_delimited timestamp message messenger = true ->
  key_of (render_line timestamp level message messenger)
  = dedup_key level message.
Proof.
  unfold well_delimited, render_line. intros H.
  apply andb_true_iff in H as [H Hmsg]. apply andb_true_iff in H as [Hts Hsrc].
  destruct (nonempty messenger) eqn:Hne.
  - rewrite (app_assoc (lit "[")).
    change (lit "] [") with BOUNDARY.
    rewrite key_of_two_boundaries; [reflexivity| |exact Hsrc].
    simpl. exact Hts.
  - simpl in Hmsg. apply andb_true_iff in Hmsg as [Hopen Hin].
    rewrite (app_assoc (lit "[")). change (lit "] [") with BOUNDARY.
    rewrite key_of_one_boundary; [reflexivity|simpl; exact Hts|].
    rewrite app_assoc. rewrite find_at_skip
      by (rewrite lacks_app; simpl; apply levelStr_lacks).
    destruct (string_find message BOUNDARY 0) eqn:Hf; [discriminate|].
    unfold string_find in Hf. simpl in Hf. rewrite drop_0 in Hf.
    apply negb_true_iff in Hopen.
    apply find_at_after_level; assumption.
Qed.

Lemma dedup_key_inj (lv1 lv2 : LogLevel) (msg1 msg2 : str) :
  dedup_key lv1 msg1 = dedup_key lv2 msg2 -> lv1 = lv2 /\ msg1 = msg2.
Proof.
  destruct lv1, lv2; unfold dedup_key; simpl; intros H;
    try discriminate H; split; congruence.
Qed.

(** ** The boundaries of a rendered line *)

Lemma starts_with_app_long (pat a b : str) :
  length pat <= length a -> starts_with pat (a ++ b) = starts_with pat a.
Proof.
  revert a. induction pat as [|p pat IH]; intros a Hlen; [reflexivity|].
  destruct a as [|c a]; simpl in Hlen; [lia|].
  simpl. rewrite IH by lia. reflexivity.
Qed.

Lemma boundary_at_succ (c : ascii) (s : str) (m : nat) :
  boundary_at (c :: s) (S m) <-> boundary_at s m.
Proof. reflexivity. Qed.

Lemma boundary_at_other (c : ascii) (s : str) :
  c <> "]"%char -> ~ boundary_at (c :: s) 0.
Proof.
  unfold boundary_at. intros Hc H.
  change (starts_with BOUNDARY (drop 0 (c :: s)))
    with (Ascii.eqb "]" c && starts_with (lit " [") s) in H.
  apply andb_true_iff in H as [H _]. apply Ascii.eqb_eq in H. congruence.
Qed.

(** No boundary straddles a closing bracket that follows a piece: the
    boundaries of the whole are those of the piece and those from the
    bracket on. *)
Lemma boundary_at_app (X r : str) (k : nat) :
  boundary_at (X ++ "]"%char :: r) k <->
  boundary_at X k \/
  (length X <= k /\ boundary_at ("]"%char :: r) (k - length X)).
Proof.
  unfold boundary_at. destruct (decide (length X <= k)) as [Hge|Hlt].
  - rewrite drop_app_ge by exact Hge. split; [intros H; right; auto|].
    intros [H|[_ H]]; [|exact H]. apply boundary_room in H. lia.
  - rewrite drop_app_le by lia. split.
    + intros H. left. destruct (decide (k + 3 <= length X)) as [Hin|Hout].
      * rewrite starts_with_app_long in H; [exact H|].
        rewrite length_drop. change (length BOUNDARY) with 3. lia.
      * exfalso.
        assert (Hl : length (drop k X) = 1 \/ length (drop k X) = 2)
          by (rewrite length_drop; lia).
        destruct (drop k X) as [|a [|b [|c t]]];
          cbn [length] in Hl; try lia.
        -- change (starts_with BOUNDARY ([a] ++ "]"%char :: r))
             with (Ascii.eqb "]" a && (false && starts_with (lit "[") r)) in H.
           rewrite andb_false_r in H. discriminate.
        -- change (starts_with BOUNDARY ([a; b] ++ "]"%char :: r))
             with (Ascii.eqb "]" a && (Ascii.eqb " " b && false)) in H.
           rewrite !andb_false_r in H. discriminate.
    + intros [H|[Hle _]]; [|lia]. pose proof (boundary_room _ _ H) as Hroom.
      rewrite starts_with_app_long; [exact H|].
      rewrite length_drop. change (length BOUNDARY) with 3. lia.
Qed.

Lemma lacks_no_boundary (s : str) (j : nat) :
  lacks "]"%char s = true -> ~ boundary_at s j.
Proof.
  unfold boundary_at. intros Hs H.
  pose proof (find_at_skip s [] 0 Hs) as Hf. rewrite app_nil_r in Hf.
  simpl in Hf. rewrite find_at_None in Hf.
  pose proof (boundary_room _ _ H) as Hroom.
  rewrite (Hf j) in H by lia. discriminate.
Qed.

(** Which offset [ExtractKey] cuts at, for a line with a boundary at [b]:
    it cuts right after [b] exactly when [b] is the only boundary of the
    line, or the second one. *)
Lemma key_offset_target (line : str) (b : nat) :
  boundary_at line b ->
  (key_offset line = b + 2 <->
   (forall j, boundary_at line j -> j = b) \/
   (exists f, f < b /\ boundary_at line f /\
              forall j, j < b -> boundary_at line j -> j = f)).
Proof.
  intros Hb. unfold key_offset.
  destruct (string_find line BOUNDARY 0) as [first|] eqn:E1.
  - apply first_boundary_find in E1 as (_ & Hb1 & Hmin1).
    assert (Hfb : first <= b).
    { destruct (decide (first <= b)); [assumption|].
      exfalso. apply (Hmin1 b); [lia|lia|exact Hb]. }
    destruct (string_find line BOUNDARY (first + 1)) as [second|] eqn:E2.
    + apply first_boundary_find in E2 as (Hle2 & Hb2 & Hmin2). split.
      * intros Heq. assert (second = b) as -> by lia. right.
        exists first. split_and!; [lia|exact Hb1|].
        intros j Hj Hbj. destruct (lt_eq_lt_dec j first) as [[Hlt|Heq']|Hgt].
        -- exfalso. apply (Hmin1 j); [lia|lia|exact Hbj].
        -- exact Heq'.
        -- exfalso. apply (Hmin2 j); [lia|lia|exact Hbj].
      * intros [Hall|(f & Hf & Hbf & Huniq)].
        -- pose proof (Hall _ Hb1). pose proof (Hall _ Hb2). lia.
        -- assert (first < b).
           { destruct (decide (first = b)) as [->|]; [|lia].
             exfalso. apply (Hmin1 f); [lia|lia|exact Hbf]. }
           pose proof (Huniq first ltac:(lia) Hb1) as Hff.
           assert (second <= b).
           { destruct (decide (second <= b)); [assumption|].
             exfalso. apply (Hmin2 b); [lia|lia|exact Hb]. }
           destruct (decide (second = b)) as [->|]; [reflexivity|].
           pose proof (Huniq second ltac:(lia) Hb2). lia.
    + apply no_boundary_find in E2. split.
      * intros Heq. assert (first = b) as -> by lia. left.
        intros j Hbj. destruct (lt_eq_lt_dec j b) as [[Hlt|Heq']|Hgt].
        -- exfalso. apply (Hmin1 j); [lia|lia|exact Hbj].
        -- exact Heq'.
        -- exfalso. apply (E2 j); [lia|exact Hbj].
      * intros [Hall|(f & Hf & Hbf & Huniq)].
        -- rewrite (Hall _ Hb1). reflexivity.
        -- exfalso. apply (E2 b); [|exact Hb].
           destruct (decide (first + 1 <= b)); [assumption|].
           exfalso. apply (Hmin1 f); [lia|lia|exact Hbf].
  - apply no_boundary_find in E1. exfalso. apply (E1 b); [lia|exact Hb].
Qed.

Lemma key_of_target (P T : str) :
  key_of (P ++ BOUNDARY ++ T) = "["%char :: T <->
  key_offset (P ++ BOUNDARY ++ T) = length P + 2.
Proof.
  unfold key_of. split.
  - intros H. apply (f_equal length) in H.
    rewrite length_drop, !length_app in H.
    change (length BOUNDARY) with 3 in H. cbn [length] in H. lia.
  - intros ->.
    change (P ++ BOUNDARY ++ T) with (P ++ lit "] " ++ "["%char :: T).
    rewrite app_assoc. rewrite drop_app_length'; [reflexivity|].
    rewrite length_app. simpl. lia.
Qed.

(** A line made of a part [P], a boundary, and the rest [T] of the writer's
    key: [ExtractKey] gives the writer's key exactly when the line has no
    other boundary, or [P] has exactly one. *)
Lemma key_of_boundary_iff (P T : str) :
  key_of (P ++ BOUNDARY ++ T) = "["%char :: T <->
  ((forall j, ~ boundary_at P j) /\
   (forall j, ~ boundary_at (lit " [" ++ T) j)) \/
  (exists f, boundary_at P f /\ forall j, boundary_at P j -> j = f).
Proof.
  rewrite key_of_target.
  assert (Hsplit : forall k, boundary_at (P ++ BOUNDARY ++ T) k <->
            boundary_at P k \/ k = length P \/
            exists m, k = length P + S m /\ boundary_at (lit " [" ++ T) m).
  { intros k.
    change (P ++ BOUNDARY ++ T) with (P ++ "]"%char :: lit " [" ++ T).
    rewrite boundary_at_app. split.
    - intros [H|[Hle H]]; [left; exact H|right].
      destruct (k - length P) as [|m] eqn:Em; [left; lia|right].
      exists m. split; [lia|]. exact H.
    - intros [H|[->|(m & -> & H)]]; [left; exact H| |].
      + right. split; [lia|]. rewrite Nat.sub_diag.
        exact (starts_with_app BOUNDARY T).
      + right. split; [lia|].
        replace (length P + S m - length P) with (S m) by lia. exact H. }
  assert (Hroom : forall k, boundary_at P k -> k < length P).
  { intros k H. apply boundary_room in H. lia. }
  rewrite key_offset_target by (apply Hsplit; right; left; reflexivity).
  split.
  - intros [Hall|(f & Hf & Hbf & Huniq)].
    + left. split.
      * intros j H. pose proof (Hroom _ H).
        pose proof (Hall j (proj2 (Hsplit j) (or_introl H))). lia.
      * intros m H.
        pose proof (Hall (length P + S m)
                      (proj2 (Hsplit _) (or_intror (or_intror
                         (ex_intro _ m (conj eq_refl H)))))).
        lia.
    + right. exists f. apply Hsplit in Hbf as [Hbf|[->|(m & -> & _)]]; [|lia|lia].
      split; [exact Hbf|]. intros j H. apply Huniq; [exact (Hroom _ H)|].
      apply Hsplit. left. exact H.
  - intros [[HP HT]|(f & Hbf & Huniq)].
    + left. intros j H. apply Hsplit in H as [H|[->|(m & -> & H)]].
      * destruct (HP _ H).
      * reflexivity.
      * destruct (HT _ H).
    + right. exists f. split_and!; [exact (Hroom _ Hbf)| |].
      * apply Hsplit. left. exact Hbf.
      * intros j Hj H. apply Hsplit in H as [H|[->|(m & -> & _)]]; [|lia|lia].
        exact (Huniq _ H).
Qed.

(** The boundaries of the level and the message that follow the last
    separator. *)
Lemma level_message_boundaries (level : LogLevel) (message : str) :
  (forall j, ~ boundary_at (lit " [" ++ levelStr level ++ lit "] " ++ message) j)
  <-> starts_with (lit "[") message = false /\
      forall j, ~ boundary_at message j.
Proof.
  assert (Hsplit : forall k,
            boundary_at (lit " [" ++ levelStr level ++ lit "] " ++ message) k <->
            (k = length (levelStr level) + 2 /\
             starts_with (lit "[") message = true) \/
            exists m, k = length (levelStr level) + 4 + m /\
                      boundary_at message m).
  { intros k.
    change (lit " [" ++ levelStr level ++ lit "] " ++ message)
      with ((lit " [" ++ levelStr level) ++ "]"%char :: " "%char :: message).
    rewrite boundary_at_app.
    change (length (lit " [" ++ levelStr level))
      with (S (S (length (levelStr level)))).
    split.
    - intros [H|[Hle H]].
      + exfalso. revert H. apply lacks_no_boundary.
        rewrite lacks_app, levelStr_lacks. reflexivity.
      + destruct (k - S (S (length (levelStr level)))) as [|[|m]] eqn:Em.
        * left. split; [lia|].
          unfold boundary_at in H.
          change (starts_with BOUNDARY (drop 0 ("]"%char :: " "%char :: message)))
            with (true && (true && starts_with (lit "[") message)) in H.
          exact H.
        * exfalso. revert H. apply (boundary_at_other " "%char). discriminate.
        * right. exists m. split; [lia|exact H].
    - intros [[-> H]|(m & -> & H)].
      + right. split; [lia|].
        replace (length (levelStr level) + 2 - S (S (length (levelStr level))))
          with 0 by lia.
        unfold boundary_at.
        change (starts_with BOUNDARY (drop 0 ("]"%char :: " "%char :: message)))
          with (true && (true && starts_with (lit "[") message)).
        exact H.
      + right. split; [lia|].
        replace (length (levelStr level) + 4 + m - S (S (length (levelStr level))))
          with (S (S m)) by lia.
        exact H. }
  split.
  - intros Hnone. split.
    + destruct (starts_with (lit "[") message) eqn:E; [|reflexivity].
      exfalso. apply (Hnone (length (levelStr level) + 2)).
      apply Hsplit. left. split; reflexivity.
    + intros j H. apply (Hnone (length (levelStr level) + 4 + j)).
      apply Hsplit. right. exists j. split; [reflexivity|exact H].
  - intros [Hopen Hin] j H. apply Hsplit in H as [[_ H]|(m & _ & H)].
    + congruence.
    + exact (Hin _ H).
Qed.

(** The boundaries of an opening bracket followed by a field are those of
    the field. *)
Lemma bracket_field_boundaries (field : str) (k : nat) :
  boundary_at ("["%char :: field) k <->
  exists m, k = S m /\ boundary_at field m.
Proof.
  destruct k as [|m].
  - split.
    + intros H. exfalso. revert H. apply boundary_at_other. discriminate.
    + intros (m & Hm & _). discriminate Hm.
  - rewrite boundary_at_succ. split.
    + intros H. exists m. split; [reflexivity|exact H].
    + intros (m' & [= ->] & H). exact H.
Qed.

(** The boundaries of the timestamp and the messenger with their brackets:
    those of the timestamp, the separator, those of the messenger. *)
Lemma timestamp_messenger_boundaries (timestamp messenger : str) (k : nat) :
  boundary_at (("["%char :: timestamp) ++ BOUNDARY ++ messenger) k <->
  (exists m, k = S m /\ boundary_at timestamp m) \/
  k = S (length timestamp) \/
  exists m, k = length timestamp + 4 + m /\ boundary_at messenger m.
Proof.
  change (("["%char :: timestamp) ++ BOUNDARY ++ messenger)
    with (("["%char :: timestamp) ++ "]"%char :: " "%char :: "["%char :: messenger).
  rewrite boundary_at_app, bracket_field_boundaries.
  cbn [length]. split.
  - intros [H|[Hle H]]; [left; exact H|right].
    destruct (k - S (length timestamp)) as [|[|[|m]]] eqn:Em.
    + left. lia.
    + exfalso. revert H. apply (boundary_at_other " "%char). discriminate.
    + exfalso. revert H. apply (boundary_at_other "["%char). discriminate.
    + right. exists m. split; [lia|exact H].
  - intros [H|[->|(m & -> & H)]]; [left; exact H| |].
    + right. split; [lia|]. rewrite Nat.sub_diag.
      exact (starts_with_app BOUNDARY messenger).
    + right. split; [lia|].
      replace (length timestamp + 4 + m - S (length timestamp))
        with (S (S (S m))) by lia.
      exact H.
Qed.

Lemma boundary_free_from_true (s : str) (pos : nat) :
  boundary_free_from s pos = true <-> no_boundary_from s pos.
Proof.
  unfold boundary_free_from. rewrite no_boundary_find.
  destruct (string_find s BOUNDARY pos); split; congruence.
Qed.

Lemma boundary_free_true (s : str) :
  boundary_free_from s 0 = true <-> forall j, ~ boundary_at s j.
Proof.
  rewrite boundary_free_from_true. unfold no_boundary_from. split.
  - intros H j. apply H. lia.
  - intros H j _. apply H.
Qed.

(** On a rendered line [ExtractKey] finds the key the writer means exactly
    for the entries singled out by [key_recoverable]. *)
Lemma key_of_render_line_iff (timestamp : str) (level : LogLevel)
    (message messenger : str) :
  key_of (render_line timestamp level message messenger)
  = dedup_key level message
  <-> key_recoverable timestamp message messenger = true.
Proof.
  unfold render_line, key_recoverable.
  change (dedup_key level message)
    with ("["%char :: levelStr level ++ lit "] " ++ message).
  destruct (nonempty messenger).
  - replace (lit "[" ++ timestamp ++ lit "] [" ++ messenger ++ lit "] [" ++
             levelStr level ++ lit "] " ++ message)
      with ((("["%char :: timestamp) ++ BOUNDARY ++ messenger) ++ BOUNDARY ++
            levelStr level ++ lit "] " ++ message)
      by (rewrite <- !app_assoc; reflexivity).
    rewrite key_of_boundary_iff, andb_true_iff, !boundary_free_true. split.
    + intros [[Hnone _]|(f & Hbf & Huniq)].
      * exfalso. apply (Hnone (S (length timestamp))).
        apply timestamp_messenger_boundaries. right. left. reflexivity.
      * assert (f = S (length timestamp)) as ->.
        { symmetry. apply Huniq, timestamp_messenger_boundaries.
          right. left. reflexivity. }
        split; intros j H.
        -- pose proof (boundary_room _ _ H).
           assert (S j = S (length timestamp)); [|lia].
           apply Huniq, timestamp_messenger_boundaries.
           left. exists j. split; [reflexivity|exact H].
        -- assert (length timestamp + 4 + j = S (length timestamp)); [|lia].
           apply Huniq, timestamp_messenger_boundaries.
           right. right. exists j. split; [reflexivity|exact H].
    + intros [Hts Hsrc]. right. exists (S (length timestamp)). split.
      * apply timestamp_messenger_boundaries. right. left. reflexivity.
      * intros j H.
        apply timestamp_messenger_boundaries in H as [(m & _ & H)|[->|(m & _ & H)]].
        -- destruct (Hts _ H).
        -- reflexivity.
        -- destruct (Hsrc _ H).
  - replace (lit "[" ++ timestamp ++ lit "] [" ++ levelStr level ++ lit "] " ++
             message)
      with (("["%char :: timestamp) ++ BOUNDARY ++
            levelStr level ++ lit "] " ++ message)
      by reflexivity.
    rewrite key_of_boundary_iff, level_message_boundaries.
    destruct (string_find timestamp BOUNDARY 0) as [p|] eqn:E.
    + apply first_boundary_find in E as (_ & Hbp & Hmin).
      rewrite boundary_free_from_true. split.
      * intros [[Hnone _]|(f & Hbf & Huniq)].
        -- exfalso. apply (Hnone (S p)), bracket_field_boundaries.
           exists p. split; [reflexivity|exact Hbp].
        -- intros j Hj H.
           assert (S j = f)
             by (apply Huniq, bracket_field_boundaries; exists j; auto).
           assert (S p = f)
             by (apply Huniq, bracket_field_boundaries; exists p; auto).
           lia.
      * intros Hfree. right. exists (S p). split.
        -- apply bracket_field_boundaries. exists p. auto.
        -- intros j H. apply bracket_field_boundaries in H as (m & -> & H).
           f_equal. destruct (lt_eq_lt_dec m p) as [[Hlt|Heq]|Hgt].
           ++ exfalso. apply (Hmin m); [lia|lia|exact H].
           ++ exact Heq.
           ++ exfalso. apply (Hfree m); [lia|exact H].
    + apply no_boundary_find in E.
      rewrite andb_true_iff, negb_true_iff, boundary_free_true. split.
      * intros [[_ Hmsg]|(f & Hbf & _)]; [exact Hmsg|].
        exfalso. apply bracket_field_boundaries in Hbf as (m & _ & H).
        apply (E m); [lia|exact H].
      * intros Hmsg. left. split; [|exact Hmsg].
        intros j H. apply bracket_field_boundaries in H as (m & _ & H).
        apply (E m); [lia|exact H].
Qed.

(** C3, as amended. [ExtractKey] never throws, and its result is the line
    from the opening bracket that ends the second boundary on if there are
    two boundaries, from the one that ends the first boundary on if there is
    one, and the whole line if there is none. On a rendered line the result
    is the writer's key ["[LEVEL] message"] exactly for the entries that are
    [key_recoverable]: with a messenger, the boundary occurs neither in the
    timestamp nor in the messenger; without, the boundary does not occur in
    the timestamp and the message neither opens with a bracket nor contains
    the boundary, or the boundary occurs exactly once in the timestamp. The
    keys of two such entries are equal exactly when their level and message
    are, whatever their timestamps and messengers. *)
Theorem ExtractKey_rendered_key (line : str)
    (ts1 : str) (lv1 : LogLevel) (msg1 src1 : str)
    (ts2 : str) (lv2 : LogLevel) (msg2 src2 : str) :
  (exists key, ExtractKey line = Some key /\
     (no_boundary_from line 0 -> key = line) /\
     (forall first, first_boundary_from line 0 first ->
        no_boundary_from line (first + 1) -> key = drop (first + 2) line) /\
     (forall first second, first_boundary_from line 0 first ->
        first_boundary_from line (first + 1) second ->
        key = drop (second + 2) line)) /\
  (ExtractKey (render_line ts1 lv1 msg1 src1) = Some (dedup_key lv1 msg1)
   <-> key_recoverable ts1 msg1 src1 = true) /\
  (key_recoverable ts1 msg1 src1 = true ->
   key_recoverable ts2 msg2 src2 = true ->
   ExtractKey (render_line ts1 lv1 msg1 src1) = Some (dedup_key lv1 msg1) /\
   ExtractKey (render_line ts2 lv2 msg2 src2) = Some (dedup_key lv2 msg2) /\
   (ExtractKey (render_line ts1 lv1 msg1 src1)
    = ExtractKey (render_line ts2 lv2 msg2 src2)
    <-> lv1 = lv2 /\ msg1 = msg2)).
Proof.
  split_and!.
  - exists (key_of line). split; [apply ExtractKey_offset|].
    apply ExtractKey_cases.
  - rewrite ExtractKey_offset. split.
    + intros [= H]. exact (proj1 (key_of_render_line_iff _ _ _ _) H).
    + intros H. rewrite (proj2 (key_of_render_line_iff _ lv1 _ _) H).
      reflexivity.
  - intros H1 H2. rewrite !ExtractKey_offset.
    rewrite (proj2 (key_of_render_line_iff _ lv1 _ _) H1).
    rewrite (proj2 (key_of_render_line_iff _ lv2 _ _) H2).
    split_and!; [reflexivity|reflexivity|]. split.
    + intros H. apply dedup_key_inj. congruence.
    + intros [-> ->]. reflexivity.
Qed.

Lemma ExtractKey_rendered_key_witness :
  ExtractKey (render_line (lit "2024-01-01 00:00:00") info (lit "Started") [])
  = ExtractKey
      (render_line (lit "2024-01-02 10:30:00") info (lit "Started")
         (lit "Renderer[0]"))
  <-> info = info /\ lit "Started" = lit "Started".
Proof.
  apply (proj2 (proj2 (proj2 (proj2
           (ExtractKey_rendered_key []
              (lit "2024-01-01 00:00:00") info (lit "Started") []
              (lit "2024-01-02 10:30:00") info (lit "Started")
              (lit "Renderer[0]")))
           eq_refl eq_refl))).
Defined.

(** C3 as it is written fails: the two entries below render to the same
    line, so they get the same key, and their levels and messages differ. *)
Lemma ExtractKey_rendered_key_counterexample :
  ~ (forall (ts1 : str) (lv1 : LogLevel) (msg1 src1 : str)
            (ts2 : str) (lv2 : LogLevel) (msg2 src2 : str),
       ExtractKey (render_line ts1 lv1 msg1 src1)
       = ExtractKey (render_line ts2 lv2 msg2 src2)
       <-> lv1 = lv2 /\ msg1 = msg2).
Proof.
  intros H.
  specialize (H (lit "2024-01-01 00:00:00") info (lit "[ERROR] x") []
                (lit "2024-01-01 00:00:00") error (lit "x") (lit "INFO")).
  destruct H as [H _]. destruct (H eq_refl) as [Hlv _]. discriminate Hlv.
Qed.

(** ** IsTimestampStart *)

(** What the function computes: the year prefix at [i] and one more
    character after it. *)
Lemma IsTimestampStart_eq (s : str) (i : nat) :
  IsTimestampStart s i = (i + 6 <? length s) && year_prefix_at s i.
Proof.
  unfold IsTimestampStart, year_prefix_at, year_prefix.
  destruct (length s <=? i) eqn:E1; destruct (length s <=? i + 6) eqn:E2;
    destruct (i + 6 <? length s) eqn:E3; destruct (i + 5 <? length s) eqn:E4;
    repeat match goal with
           | H : (_ <=? _) = true |- _ => apply Nat.leb_le in H
           | H : (_ <=? _) = false |- _ => apply Nat.leb_gt in H
           | H : (_ <? _) = true |- _ => apply Nat.ltb_lt in H
           | H : (_ <? _) = false |- _ => apply Nat.ltb_ge in H
           end; try lia; simpl; try reflexivity;
    destruct (Ascii.eqb (char_at s i) "["); reflexivity.
Qed.

(** C7. The function does not accept every year prefix: on ["x[2024-"] at
    position 1 the six characters of the prefix are all there, and the
    function answers [false], because it asks for a seventh. *)
Theorem IsTimestampStart_wants_seventh_char :
  year_prefix_at (lit "x[2024-") 1 = true /\
  IsTimestampStart (lit "x[2024-") 1 = false /\
  IsTimestampStart (lit "x[2024-0") 1 = true.
Proof. split_and!; reflexivity. Qed.

Lemma char_at_embed (seg raw : str) (off k : nat) :
  (forall k, k < length seg -> seg !! k = raw !! (off + k)) ->
  k < length seg -> char_at seg k = char_at raw (off + k).
Proof.
  intros H Hk. unfold char_at. rewrite !nth_lookup, (H k Hk). reflexivity.
Qed.

Lemma embed_length (seg raw : str) (off : nat) :
  (forall k, k < length seg -> seg !! k = raw !! (off + k)) ->
  seg = [] \/ off + length seg <= length raw.
Proof.
  intros H. destruct (decide (length seg = 0)) as [E|E].
  - left. destruct seg; [reflexivity|discriminate].
  - right. specialize (H (length seg - 1) ltac:(lia)).
    destruct (lookup_lt_is_Some_2 seg (length seg - 1) ltac:(lia)) as [c Hc].
    rewrite Hc in H. symmetry in H. apply lookup_lt_Some in H. lia.
Qed.

(** A timestamp start inside a piece of [raw] is one of [raw]. *)
Lemma IsTimestampStart_embed (seg raw : str) (off j : nat) :
  (forall k, k < length seg -> seg !! k = raw !! (off + k)) ->
  IsTimestampStart seg j = true -> IsTimestampStart raw (off + j) = true.
Proof.
  intros H. rewrite !IsTimestampStart_eq. unfold year_prefix_at.
  intros Hs. apply andb_true_iff in Hs as [H6 Hs].
  apply andb_true_iff in Hs as [H5 Hs].
  apply Nat.ltb_lt in H6. apply Nat.ltb_lt in H5.
  destruct (embed_length _ _ _ H) as [->|Hlen]; [simpl in H6; lia|].
  rewrite !(char_at_embed seg raw off) in Hs by (exact H || lia).
  replace (off + j + 1) with (off + (j + 1)) by lia.
  replace (off + j + 2) with (off + (j + 2)) by lia.
  replace (off + j + 3) with (off + (j + 3)) by lia.
  replace (off + j + 4) with (off + (j + 4)) by lia.
  replace (off + j + 5) with (off + (j + 5)) by lia.
  rewrite Hs.
  settle_cmp (off + j + 6 <? length raw).
  destruct (off + (j + 5) <? length raw) eqn:E2;
    [reflexivity|apply Nat.ltb_ge in E2; lia].
Qed.

Lemma embed_take_drop (raw : str) (start n : nat) :
  forall k, k < length (take n (drop start raw)) ->
            take n (drop start raw) !! k = raw !! (start + k).
Proof.
  intros k Hk. rewrite length_take in Hk.
  rewrite lookup_take_lt by lia. apply lookup_drop.
Qed.

Lemma embed_drop (raw : str) (start : nat) :
  forall k, k < length (drop start raw) ->
            drop start raw !! k = raw !! (start + k).
Proof. intros k _. apply lookup_drop. Qed.

(** ** SplitConcatenatedLines *)

(** The loop invariant: the segments flushed so far spell the line from the
    first [start] to the current one, each is non-empty and holds no inner
    timestamp start, and none follows the current [start] before [i]. *)
Lemma split_loop_spec (raw : str) (n : nat) :
  forall i start out,
    start < i ->
    (forall j, start < j -> j < i -> IsTimestampStart raw j = false) ->
    exists start' segs,
      split_loop raw n i start out = Some (start', out ++ segs) /\
      start <= start' /\ start' < i + n /\
      concat segs = take (start' - start) (drop start raw) /\
      Forall (fun seg => seg <> [] /\ no_inner_start seg) segs /\
      (forall j, start' < j -> j < i + n -> IsTimestampStart raw j = false).
Proof.
  induction n as [|n IH]; intros i start out Hlt Hnone.
  - exists start, []. simpl. rewrite app_nil_r, Nat.sub_diag.
    split_and!; [reflexivity|lia|lia|reflexivity|constructor|].
    intros j H1 H2. apply Hnone; lia.
  - simpl. destruct (IsTimestampStart raw i) eqn:Hi.
    + assert (Hin : i + 6 < length raw).
      { rewrite IsTimestampStart_eq in Hi.
        apply andb_true_iff in Hi as [Hi _]. apply Nat.ltb_lt in Hi. lia. }
      settle_cmp (start <? i).
      unfold substr_n.
      settle_cmp (start <=? length raw).
      simpl.
      destruct (IH (S i) i (out ++ [take (i - start) (drop start raw)]))
        as (start' & segs & Heq & Hle & Hub & Hcat & Hall & Hrest);
        [lia|intros; lia|].
      exists start', (take (i - start) (drop start raw) :: segs).
      split_and!.
      * rewrite Heq, <- app_assoc. reflexivity.
      * lia.
      * lia.
      * simpl. rewrite Hcat.
        replace (drop i raw) with (drop (i - start) (drop start raw))
          by (rewrite drop_drop; f_equal; lia).
        rewrite take_take_drop. f_equal. lia.
      * constructor; [|exact Hall]. split.
        -- intros Hnil. apply (f_equal length) in Hnil.
           rewrite length_take, length_drop in Hnil. simpl in Hnil. lia.
        -- intros j Hj.
           destruct (IsTimestampStart (take (i - start) (drop start raw)) j)
             eqn:Hseg; [|reflexivity].
           assert (Hlen : j + 6 < i - start).
           { rewrite IsTimestampStart_eq in Hseg.
             apply andb_true_iff in Hseg as [Hseg _].
             apply Nat.ltb_lt in Hseg. rewrite length_take in Hseg. lia. }
           apply (IsTimestampStart_embed _ raw start) in Hseg;
             [|apply embed_take_drop].
           rewrite Hnone in Hseg by lia. discriminate.
      * intros j H1 H2. apply Hrest; lia.
    + destruct (IH (S i) start out)
        as (start' & segs & Heq & Hle & Hub & Hcat & Hall & Hrest).
      * lia.
      * intros j H1 H2. destruct (decide (j = i)) as [->|Hne];
          [exact Hi|apply Hnone; lia].
      * exists start', segs.
        split_and!; [exact Heq|lia|lia|exact Hcat|exact Hall|].
        intros j H1 H2. apply Hrest; lia.
Qed.

(** The segments of a line: their concatenation is the line, none is
    empty, none holds an inner timestamp start, and there is one at least
    unless the line is empty. *)
Lemma SplitConcatenatedLines_spec (raw : str) (out : list str) :
  exists segs,
    SplitConcatenatedLines raw out = Some (out ++ segs) /\
    concat segs = raw /\
    Forall (fun seg => seg <> [] /\ no_inner_start seg) segs /\
    (raw = [] <-> segs = []).
Proof.
  destruct raw as [|c raw'] eqn:Hraw.
  - exists []. rewrite app_nil_r.
    split_and!; [reflexivity|reflexivity|constructor|tauto].
  - rewrite <- Hraw. assert (Hlen : 0 < length raw) by (subst; simpl; lia).
    clear Hraw c raw'. unfold SplitConcatenatedLines.
    destruct (split_loop_spec raw (length raw - 1) 1 0 out)
      as (start' & segs & Heq & _ & Hub & Hcat & Hall & Hrest);
      [lia|intros; lia|].
    rewrite Heq. simpl.
    assert (Hs : start' < length raw) by lia.
    settle_cmp (start' <? length raw).
    unfold substr. settle_cmp (start' <=? length raw).
    simpl. exists (segs ++ [drop start' raw]). split_and!.
    + rewrite app_assoc. reflexivity.
    + rewrite concat_app, Hcat. simpl.
      rewrite app_nil_r, Nat.sub_0_r, drop_0. apply take_drop.
    + apply Forall_app. split; [exact Hall|]. constructor; [|constructor].
      split.
      * intros Hnil. apply (f_equal length) in Hnil.
        rewrite length_drop in Hnil. simpl in Hnil. lia.
      * intros j Hj.
        destruct (IsTimestampStart (drop start' raw) j) eqn:Hseg;
          [|reflexivity].
        assert (Hj6 : j + 6 < length raw - start').
        { rewrite IsTimestampStart_eq in Hseg.
          apply andb_true_iff in Hseg as [Hseg _].
          apply Nat.ltb_lt in Hseg. rewrite length_drop in Hseg. lia. }
        apply (IsTimestampStart_embed _ raw start') in Hseg;
          [|apply embed_drop].
        rewrite Hrest in Hseg by lia. discriminate.
    + split; [intros ->; simpl in Hlen; lia|].
      intros Hnil. destruct segs; discriminate Hnil.
Qed.

(** C6. For every raw line (and whatever the vector already holds) the
    splitter returns, the segments it appends concatenate to the raw line,
    and it appends none when the raw line is empty. *)
Theorem SplitConcatenatedLines_concat (raw : str) (out : list str) :
  exists segs,
    SplitConcatenatedLines raw out = Some (out ++ segs) /\
    concat segs = raw /\
    (raw = [] -> segs = []).
Proof.
  destruct (SplitConcatenatedLines_spec raw out) as (segs & H1 & H2 & _ & H3).
  exists segs. split_and!; [exact H1|exact H2|apply H3].
Qed.

(** ** The repeat suffix *)

Lemma SIZE_MOD_pos : (0 < SIZE_MOD)%Z.
Proof. reflexivity. Qed.

Lemma digit_char_code (d : Z) :
  (0 <= d < 10)%Z -> Z.of_nat (nat_of_ascii (digit_char d)) = (48 + d)%Z.
Proof.
  intros Hd. unfold digit_char. rewrite nat_ascii_embedding by lia. lia.
Qed.

Lemma digit_char_isdigit (d : Z) :
  (0 <= d < 10)%Z -> isdigit (digit_char d) = true.
Proof.
  intros Hd. pose proof (digit_char_code d Hd) as Hc. unfold isdigit.
  apply andb_true_iff. split; apply Nat.leb_le; lia.
Qed.

Lemma parse_digits_app (a b : str) (v : Z) :
  parse_digits (a ++ b) v = parse_digits a v ≫= parse_digits b.
Proof.
  revert v. induction a as [|c a IH]; intros v; simpl; [reflexivity|].
  destruct (isdigit c); [apply IH|reflexivity].
Qed.

Lemma reads_as_digit (d : Z) :
  (0 <= d < 10)%Z -> reads_as [digit_char d] d.
Proof.
  intros Hd v. simpl. rewrite (digit_char_isdigit d Hd), (digit_char_code d Hd).
  do 2 f_equal. lia.
Qed.

Lemma reads_as_snoc (ds : str) (n d : Z) :
  (0 <= d < 10)%Z -> reads_as ds n ->
  reads_as (ds ++ [digit_char d]) (n * 10 + d).
Proof.
  intros Hd Hds v. rewrite parse_digits_app, Hds. simpl.
  rewrite (digit_char_isdigit d Hd), (digit_char_code d Hd).
  rewrite length_app. simpl length.
  rewrite Nat2Z.inj_add, Z.pow_add_r by lia. f_equal.
  rewrite <- Z.add_mod_idemp_l by (pose proof SIZE_MOD_pos; lia).
  rewrite Z.mul_mod_idemp_l by (pose proof SIZE_MOD_pos; lia).
  rewrite Z.add_mod_idemp_l by (pose proof SIZE_MOD_pos; lia).
  f_equal. change (10 ^ Z.of_nat 1)%Z with 10%Z. lia.
Qed.

(** With enough fuel the digits written for [n] are put in front of the
    accumulator, are digits, and read back as [n]. *)
Lemma decimal_digits_spec (fuel : nat) :
  forall n acc,
    (0 <= n < 10 ^ Z.of_nat (S fuel))%Z ->
    exists ds, decimal_digits (S fuel) n acc = ds ++ acc /\
               ds <> [] /\ Forall (fun c => isdigit c = true) ds /\
               reads_as ds n.
Proof.
  induction fuel as [|fuel IH]; intros n acc Hn.
  - change (10 ^ Z.of_nat 1)%Z with 10%Z in Hn.
    exists [digit_char n]. simpl.
    rewrite Z.div_small, Z.mod_small by lia. simpl.
    split_and!; [reflexivity|discriminate| |apply reads_as_digit; lia].
    constructor; [apply digit_char_isdigit; lia|constructor].
  - assert (Hmod : (0 <= n mod 10 < 10)%Z) by (apply Z.mod_pos_bound; lia).
    change (decimal_digits (S (S fuel)) n acc)
      with (if (n / 10 =? 0)%Z then digit_char (n mod 10) :: acc
            else decimal_digits (S fuel) (n / 10) (digit_char (n mod 10) :: acc)).
    destruct (n / 10 =? 0)%Z eqn:Hq.
    + apply Z.eqb_eq in Hq. exists [digit_char (n mod 10)].
      assert (Hsmall : (n mod 10 = n)%Z).
      { rewrite (Z.div_mod n 10) at 2 by lia. lia. }
      split_and!; [reflexivity|discriminate| |].
      * constructor; [apply digit_char_isdigit; lia|constructor].
      * rewrite Hsmall. apply reads_as_digit. lia.
    + destruct (IH (n / 10)%Z (digit_char (n mod 10) :: acc))
        as (ds & Heq & Hne & Hdig & Hread).
      { split; [apply Z.div_pos; lia|].
        apply Z.div_lt_upper_bound; [lia|].
        rewrite (Nat2Z.inj_succ (S fuel)), Z.pow_succ_r in Hn by lia. lia. }
      exists (ds ++ [digit_char (n mod 10)]). split_and!.
      * rewrite Heq, <- app_assoc. reflexivity.
      * destruct ds; discriminate.
      * apply Forall_app. split; [exact Hdig|].
        constructor; [apply digit_char_isdigit; lia|constructor].
      * replace n with (n / 10 * 10 + n mod 10)%Z at 2
          by (rewrite (Z.div_mod n 10) at 3 by lia; lia).
        apply reads_as_snoc; assumption.
Qed.

Lemma size_to_string_spec (n : Z) :
  (0 <= n < SIZE_MOD)%Z ->
  size_to_string n <> [] /\
  Forall (fun c => isdigit c = true) (size_to_string n) /\
  parse_digits (size_to_string n) 0 = Some n.
Proof.
  intros Hn. unfold size_to_string.
  destruct (decimal_digits_spec 19 n []) as (ds & Heq & Hne & Hdig & Hread).
  { unfold SIZE_MOD in Hn. split; [lia|].
    apply Z.lt_trans with (2 ^ 64)%Z; [lia|reflexivity]. }
  rewrite Heq, app_nil_r. split_and!; [exact Hne|exact Hdig|].
  rewrite Hread. f_equal. rewrite Z.mul_0_l, Z.add_0_l.
  apply Z.mod_small. exact Hn.
Qed.

Lemma rfind_at_app_tail (pat b t : str) (i j : nat) :
  rfind_at pat t (i + length b) = Some j -> rfind_at pat (b ++ t) i = Some j.
Proof.
  revert i. induction b as [|c b IH]; intros i H; simpl in *.
  - rewrite Nat.add_0_r in H. exact H.
  - rewrite (IH (S i)); [reflexivity|].
    rewrite <- H. f_equal. lia.
Qed.

Lemma rfind_at_short (pat s : str) (i : nat) :
  length s < length pat -> rfind_at pat s i = None.
Proof.
  revert i. induction s as [|c s IH]; intros i Hlt.
  - simpl. rewrite starts_with_short by exact Hlt. reflexivity.
  - cbn [rfind_at]. rewrite IH by (simpl in Hlt; lia).
    rewrite starts_with_short by exact Hlt. reflexivity.
Qed.

Lemma rfind_at_self (pat : str) (i : nat) :
  pat <> [] -> rfind_at pat pat i = Some i.
Proof.
  intros Hne. destruct pat as [|c p]; [congruence|].
  cbn [rfind_at]. rewrite rfind_at_short by (simpl; lia).
  rewrite <- (app_nil_r (c :: p)) at 2. rewrite starts_with_app. reflexivity.
Qed.

(** An occurrence of [" (repeated "] needs an opening parenthesis after
    the first character. *)
Lemma rfind_at_prefix_none (s : str) (i : nat) :
  lacks "("%char (drop 1 s) = true -> rfind_at REPEAT_PREFIX s i = None.
Proof.
  revert i. induction s as [|c s IH]; intros i H; [reflexivity|].
  cbn [rfind_at]. simpl in H. rewrite IH.
  - destruct s as [|c' s].
    { change (starts_with REPEAT_PREFIX [c]) with (Ascii.eqb " " c && false).
      rewrite andb_false_r. reflexivity. }
    simpl in H. apply andb_true_iff in H as [Hc _].
    apply negb_true_iff in Hc. rewrite Ascii.eqb_sym in Hc.
    change (starts_with REPEAT_PREFIX (c :: c' :: s))
      with (Ascii.eqb " " c &&
            (Ascii.eqb "(" c' && starts_with (lit "repeated ") s)).
    rewrite Hc, andb_false_r. reflexivity.
  - destruct s as [|c' s]; [reflexivity|].
    simpl in H. apply andb_true_iff in H as [_ H]. exact H.
Qed.

Lemma digits_lack (c : ascii) (ds : str) :
  isdigit c = false -> Forall (fun d => isdigit d = true) ds ->
  lacks c ds = true.
Proof.
  intros Hc. induction 1 as [|d ds Hd _ IH]; [reflexivity|].
  simpl. rewrite IH, andb_true_r. apply negb_true_iff.
  destruct (Ascii.eqb d c) eqn:E; [|reflexivity].
  apply Ascii.eqb_eq in E. congruence.
Qed.

(** Parsing a base line followed by a suffix whose number is written by
    [size_to_string]. *)
Lemma TryParseRepeatSuffix_serialized (base : str) (n : Z) :
  (1 <= n < SIZE_MOD)%Z ->
  TryParseRepeatSuffix
    (base ++ lit " (repeated " ++ size_to_string n ++ lit " times)")
  = Some (n, length base).
Proof.
  intros Hn.
  destruct (size_to_string_spec n ltac:(lia)) as (Hne & Hdig & Hparse).
  set (ds := size_to_string n) in *.
  assert (Hlen : 0 < length ds) by (destruct ds; [congruence|simpl; lia]).
  unfold TryParseRepeatSuffix.
  change (lit " (repeated ") with REPEAT_PREFIX.
  change (lit " times)") with REPEAT_SUFFIX.
  change (length REPEAT_PREFIX) with 11. change (length REPEAT_SUFFIX) with 7.
  assert (Hsize : length (base ++ REPEAT_PREFIX ++ ds ++ REPEAT_SUFFIX)
                  = length base + 11 + length ds + 7).
  { rewrite !length_app. change (length REPEAT_PREFIX) with 11.
    change (length REPEAT_SUFFIX) with 7. lia. }
  rewrite Hsize.
  settle_cmp (length base + 11 + length ds + 7 <? 11 + 7 + 1).
  assert (Hpos : string_rfind (base ++ REPEAT_PREFIX ++ ds ++ REPEAT_SUFFIX)
                   REPEAT_PREFIX = Some (length base)).
  { unfold string_rfind. apply rfind_at_app_tail. simpl (0 + _).
    change (REPEAT_PREFIX ++ ds ++ REPEAT_SUFFIX)
      with (" "%char :: lit "(repeated " ++ ds ++ REPEAT_SUFFIX).
    cbn [rfind_at]. rewrite rfind_at_prefix_none.
    - change (" "%char :: lit "(repeated " ++ ds ++ REPEAT_SUFFIX)
        with (REPEAT_PREFIX ++ ds ++ REPEAT_SUFFIX).
      rewrite starts_with_app. reflexivity.
    - change (drop 1 (lit "(repeated " ++ ds ++ REPEAT_SUFFIX))
        with (lit "repeated " ++ ds ++ REPEAT_SUFFIX).
      rewrite !lacks_app, (digits_lack "(" ds eq_refl Hdig). reflexivity. }
  assert (Hend : string_rfind (base ++ REPEAT_PREFIX ++ ds ++ REPEAT_SUFFIX)
                   REPEAT_SUFFIX = Some (length base + 11 + length ds)).
  { unfold string_rfind. rewrite !app_assoc. apply rfind_at_app_tail.
    rewrite rfind_at_self by discriminate. f_equal.
    rewrite !length_app. change (length REPEAT_PREFIX) with 11. lia. }
  rewrite Hpos, Hend.
  destruct (length base + 11 + length ds + 7 =? length base + 11 + length ds + 7)
    eqn:E; [clear E|apply Nat.eqb_neq in E; lia].
  settle_cmp (length base + 11 + length ds <=? length base + 11).
  cbn [negb].
  replace (take (length base + 11 + length ds - (length base + 11))
             (drop (length base + 11)
                (base ++ REPEAT_PREFIX ++ ds ++ REPEAT_SUFFIX)))
    with ds.
  - rewrite Hparse. destruct (n =? 0)%Z eqn:E; [apply Z.eqb_eq in E; lia|].
    reflexivity.
  - rewrite (app_assoc base). rewrite drop_app_length'
      by (rewrite length_app; change (length REPEAT_PREFIX) with 11; lia).
    rewrite take_app_length' by lia. reflexivity.
Qed.

(** C4. For every base line and every count from 1 up (a [std::size_t]):
    with count 1 the record is written as the base line itself; with a
    larger count the written line parses back to that count with the suffix
    starting right after the base line, so that stripping gives the base
    line back. *)
Theorem suffix_round_trip (base : str) (n : Z) (i : nat) :
  (1 <= n < SIZE_MOD)%Z ->
  (n = 1%Z -> SerializeRecord (mkRec base n i) = base) /\
  ((1 < n)%Z ->
   SerializeRecord (mkRec base n i)
   = base ++ lit " (repeated " ++ size_to_string n ++ lit " times)" /\
   TryParseRepeatSuffix (SerializeRecord (mkRec base n i))
   = Some (n, length base) /\
   StripRepeatSuffix (SerializeRecord (mkRec base n i)) = base).
Proof.
  intros Hn. unfold SerializeRecord, StripRepeatSuffix. cbn [baseLine count].
  split.
  - intros ->. reflexivity.
  - intros Hgt. destruct (1 <? n)%Z eqn:E; [|apply Z.ltb_ge in E; lia].
    rewrite (TryParseRepeatSuffix_serialized base n Hn).
    split_and!; [reflexivity|reflexivity|].
    apply take_app_length.
Qed.

Lemma suffix_round_trip_witness :
  TryParseRepeatSuffix
    (SerializeRecord (mkRec (lit "[2024-01-01 00:00:00] [INFO] Started") 7 0))
  = Some (7%Z, 36).
Proof.
  apply (proj2 (suffix_round_trip
                  (lit "[2024-01-01 00:00:00] [INFO] Started") 7 0
                  ltac:(unfold SIZE_MOD; lia))
               ltac:(lia)).
Defined.

(** ** The deduplication loop *)

Lemma parse_digits_range (cs : str) (v r : Z) :
  (0 <= v < SIZE_MOD)%Z -> parse_digits cs v = Some r ->
  (0 <= r < SIZE_MOD)%Z.
Proof.
  revert v. induction cs as [|c cs IH]; intros v Hv H; simpl in H.
  - congruence.
  - destruct (isdigit c); [|discriminate].
    apply IH in H; [exact H|]. apply Z.mod_pos_bound, SIZE_MOD_pos.
Qed.

Lemma TryParseRepeatSuffix_range (s : str) (c : Z) (p : nat) :
  TryParseRepeatSuffix s = Some (c, p) -> (1 <= c < SIZE_MOD)%Z.
Proof.
  unfold TryParseRepeatSuffix. intros H.
  repeat match type of H with
         | (if ?b then _ else _) = _ => destruct b eqn:?; [discriminate|]
         | match string_rfind ?a ?b with Some _ => _ | None => _ end = _ =>
             destruct (string_rfind a b) eqn:?; [|discriminate]
         end.
  match type of H with
  | match parse_digits ?cs ?v with Some _ => _ | None => _ end = _ =>
      destruct (parse_digits cs v) as [value|] eqn:Hp; [|discriminate]
  end.
  destruct (value =? 0)%Z eqn:Hz; [discriminate|].
  injection H as <- _. apply Z.eqb_neq in Hz.
  apply parse_digits_range in Hp; [lia|pose proof SIZE_MOD_pos; lia].
Qed.

Lemma line_mult_range (l : str) : (1 <= line_mult l < SIZE_MOD)%Z.
Proof.
  unfold line_mult. destruct (TryParseRepeatSuffix l) as [[c p]|] eqn:E.
  - exact (TryParseRepeatSuffix_range _ _ _ E).
  - pose proof SIZE_MOD_pos. unfold SIZE_MOD in *. lia.
Qed.

(** One iteration never throws; its effect in terms of the line's key,
    base and multiplicity. *)
Lemma process_line_total (i : nat) (l : str)
    (st : gmap str nat * list (str * Rec)) :
  process_line i l st
  = Some (match st.1 !! line_key l with
          | None =>
              (<[line_key l := length st.2]> st.1,
               st.2 ++ [(line_key l, mkRec (StripRepeatSuffix l) (line_mult l) i)])
          | Some idx =>
              (st.1, alter (bump (line_mult l) i (StripRepeatSuffix l)) idx st.2)
          end).
Proof.
  unfold process_line, line_key, StripRepeatSuffix, line_mult.
  destruct (TryParseRepeatSuffix l) as [[c p]|];
    rewrite ExtractKey_offset; simpl;
    match goal with |- context [ ?m !! ?k ] => destruct (m !! k) end;
    reflexivity.
Qed.

Lemma dedup_loop_app (a b : list str) (i : nat)
    (st : gmap str nat * list (str * Rec)) :
  dedup_loop (a ++ b) i st
  = dedup_loop a i st ≫= dedup_loop b (i + length a).
Proof.
  revert i st. induction a as [|l a IH]; intros i st; simpl.
  - rewrite Nat.add_0_r. reflexivity.
  - destruct (process_line i l st) as [st'|]; simpl; [|reflexivity].
    rewrite IH. do 2 f_equal. lia.
Qed.

Lemma mult_sum_snoc (k : str) (done : list str) (l : str) :
  mult_sum k (done ++ [l])
  = (mult_sum k done + (if decide (line_key l = k) then line_mult l else 0))%Z.
Proof.
  induction done as [|l' done IH]; simpl; [lia|]. rewrite IH. lia.
Qed.

Lemma mult_sum_absent (k : str) (done : list str) :
  (forall l, l ∈ done -> line_key l <> k) -> mult_sum k done = 0%Z.
Proof.
  induction done as [|l done IH]; intros H; simpl; [reflexivity|].
  rewrite IH by (intros l' Hl'; apply H; right; exact Hl').
  destruct (decide (line_key l = k)) as [E|_]; [|reflexivity].
  exfalso. apply (H l); [left|exact E].
Qed.

Lemma last_occurrence_snoc_ne (done : list str) (k : str) (j : nat)
    (l0 l : str) :
  line_key l <> k -> last_occurrence done k j l0 ->
  last_occurrence (done ++ [l]) k j l0.
Proof.
  intros Hne (Hj & Hk & Hlast). split_and!.
  - apply lookup_app_l_Some. exact Hj.
  - exact Hk.
  - intros j' l' Hlt Hj'. apply lookup_snoc_Some in Hj' as [[_ Hj']|[_ <-]].
    + exact (Hlast j' l' Hlt Hj').
    + exact Hne.
Qed.

Lemma last_occurrence_snoc_eq (done : list str) (l : str) :
  last_occurrence (done ++ [l]) (line_key l) (length done) l.
Proof.
  split_and!.
  - apply list_lookup_middle. reflexivity.
  - reflexivity.
  - intros j' l' Hlt Hj'. apply lookup_lt_Some in Hj'.
    rewrite length_app in Hj'. simpl in Hj'. lia.
Qed.

Lemma dedup_inv_empty : dedup_inv [] (∅, []).
Proof.
  split_and!.
  - intros k idx. simpl. rewrite lookup_empty. split; [discriminate|].
    intros [r Hr]. discriminate Hr.
  - intros idx k r Hr. discriminate Hr.
  - intros l Hl. inversion Hl.
Qed.

(** A line whose key is new. *)
Lemma dedup_inv_fresh (done : list str) (l : str)
    (m : gmap str nat) (recs : list (str * Rec)) :
  dedup_inv done (m, recs) -> m !! line_key l = None ->
  dedup_inv (done ++ [l])
    (<[line_key l := length recs]> m,
     recs ++ [(line_key l,
               mkRec (StripRepeatSuffix l) (line_mult l) (length done))]).
Proof.
  intros (I1 & I2 & I3) Hnew. simpl in *.
  assert (Hold : forall idx k r, recs !! idx = Some (k, r) -> k <> line_key l).
  { intros idx k r Hr ->.
    assert (m !! line_key l = Some idx) by (apply I1; eauto). congruence. }
  split_and!; simpl.
  - intros k idx. destruct (decide (k = line_key l)) as [->|Hne].
    + rewrite lookup_insert_eq. split.
      * intros [= <-]. eexists. apply list_lookup_middle. reflexivity.
      * intros [r Hr]. apply lookup_snoc_Some in Hr as [[_ Hr]|[<- _]].
        -- exfalso. exact (Hold _ _ _ Hr eq_refl).
        -- reflexivity.
    + rewrite lookup_insert_ne by congruence. rewrite I1. split.
      * intros [r Hr]. exists r. apply lookup_app_l_Some. exact Hr.
      * intros [r Hr]. apply lookup_snoc_Some in Hr as [[_ Hr]|[_ Hr]].
        -- eauto.
        -- congruence.
  - intros idx k r Hr. apply lookup_snoc_Some in Hr as [[_ Hr]|[_ Hr]].
    + pose proof (Hold _ _ _ Hr) as Hne.
      destruct (I2 _ _ _ Hr) as (Hc & l0 & Hlast & Hb).
      rewrite mult_sum_snoc.
      destruct (decide (line_key l = k)) as [E|_]; [congruence|].
      rewrite Z.add_0_r. split; [exact Hc|].
      exists l0. split; [|exact Hb].
      apply last_occurrence_snoc_ne; [congruence|exact Hlast].
    + injection Hr as <- <-. simpl. split.
      * rewrite mult_sum_snoc, mult_sum_absent.
        -- destruct (decide (line_key l = line_key l)); [|congruence].
           rewrite Z.add_0_l, Z.mod_small; [reflexivity|].
           pose proof (line_mult_range l). lia.
        -- intros l' Hl' E. destruct (I3 l' Hl') as [idx' Hidx'].
           rewrite E in Hidx'. congruence.
      * exists l. split; [apply last_occurrence_snoc_eq|reflexivity].
  - intros l' Hl'. destruct (decide (line_key l' = line_key l)) as [->|Hne].
    + rewrite lookup_insert_eq. eauto.
    + rewrite lookup_insert_ne by congruence.
      apply elem_of_app in Hl' as [Hl'|Hl']; [exact (I3 l' Hl')|].
      apply list_elem_of_singleton in Hl'. congruence.
Qed.

(** A line whose key already has a record, at index [idx0]. *)
Lemma dedup_inv_repeat (done : list str) (l : str)
    (m : gmap str nat) (recs : list (str * Rec)) (idx0 : nat) :
  dedup_inv done (m, recs) -> m !! line_key l = Some idx0 ->
  dedup_inv (done ++ [l])
    (m, alter (bump (line_mult l) (length done) (StripRepeatSuffix l))
          idx0 recs).
Proof.
  intros (I1 & I2 & I3) Hold. simpl in *.
  destruct (proj1 (I1 _ _) Hold) as [r0 Hr0].
  split_and!; simpl.
  - intros k idx. rewrite I1. destruct (decide (idx = idx0)) as [->|Hne].
    + rewrite list_lookup_alter_eq, Hr0. simpl. split.
      * intros [r Hr]. injection Hr as <- _. eauto.
      * intros [r Hr]. injection Hr as <- _. eauto.
    + rewrite list_lookup_alter_ne by congruence. reflexivity.
  - intros idx k r. destruct (decide (idx = idx0)) as [->|Hne].
    + rewrite list_lookup_alter_eq, Hr0. simpl. intros Hr.
      injection Hr as <- <-. simpl. split.
      * destruct (I2 _ _ _ Hr0) as (Hc & _). rewrite Hc, mult_sum_snoc.
        destruct (decide (line_key l = line_key l)); [|congruence].
        apply Z.add_mod_idemp_l. pose proof SIZE_MOD_pos. lia.
      * exists l. split; [apply last_occurrence_snoc_eq|reflexivity].
    + rewrite list_lookup_alter_ne by congruence. intros Hr.
      assert (Hk : line_key l <> k).
      { intros <-. assert (m !! line_key l = Some idx) by (apply I1; eauto).
        congruence. }
      destruct (I2 _ _ _ Hr) as (Hc & l0 & Hlast & Hb).
      rewrite mult_sum_snoc.
      destruct (decide (line_key l = k)) as [E|_]; [congruence|].
      rewrite Z.add_0_r. split; [exact Hc|].
      exists l0. split; [|exact Hb].
      apply last_occurrence_snoc_ne; assumption.
  - intros l' Hl'. apply elem_of_app in Hl' as [Hl'|Hl']; [exact (I3 l' Hl')|].
    apply list_elem_of_singleton in Hl'. subst l'. eauto.
Qed.

(** The loop never throws and ends in a state that satisfies the
    invariant for all the lines. *)
Lemma dedup_loop_inv (lines : list str) :
  exists st, dedup_loop lines 0 (∅, []) = Some st /\ dedup_inv lines st.
Proof.
  induction lines as [|l done IH] using rev_ind.
  - exists (∅, []). split; [reflexivity|apply dedup_inv_empty].
  - destruct IH as ([m recs] & Heq & Hinv).
    rewrite dedup_loop_app, Heq. simpl.
    rewrite process_line_total. simpl.
    destruct (m !! line_key l) as [idx0|] eqn:Hk; eexists; (split; [reflexivity|]).
    + apply dedup_inv_repeat; assumption.
    + apply dedup_inv_fresh; assumption.
Qed.

(** The index read from the map is a valid index of [records]. *)
Lemma dedup_loop_index_valid (done : list str)
    (st : gmap str nat * list (str * Rec)) (k : str) (idx : nat) :
  dedup_inv done st -> st.1 !! k = Some idx -> idx < length st.2.
Proof.
  intros (I1 & _ & _) Hk. apply I1 in Hk as [r Hr].
  exact (lookup_lt_Some _ _ _ Hr).
Qed.

(** ** Sorting and trimming *)

#[local] Instance by_recency_trans : Transitive by_recency.
Proof. intros a b c. unfold by_recency. lia. Qed.

Lemma insert_by_recency_perm (x : str * Rec) (l : list (str * Rec)) :
  insert_by_recency x l ≡ₚ x :: l.
Proof.
  induction l as [|y l IH]; simpl; [reflexivity|].
  destruct (lastIndex y.2 <? lastIndex x.2); [|reflexivity].
  rewrite IH. apply Permutation_swap.
Qed.

Lemma stable_sort_perm (l : list (str * Rec)) : stable_sort l ≡ₚ l.
Proof.
  induction l as [|x l IH]; simpl; [reflexivity|].
  rewrite insert_by_recency_perm, IH. reflexivity.
Qed.

Lemma insert_by_recency_sorted (x : str * Rec) (l : list (str * Rec)) :
  Sorted by_recency l -> Sorted by_recency (insert_by_recency x l).
Proof.
  induction l as [|y l IH]; intros Hs; simpl.
  - repeat constructor.
  - destruct (lastIndex y.2 <? lastIndex x.2) eqn:E.
    + apply Nat.ltb_lt in E. inversion Hs as [|? ? Hs' Hhd]; subst.
      constructor; [apply IH; exact Hs'|].
      destruct l as [|z l]; simpl.
      * constructor. unfold by_recency. lia.
      * destruct (lastIndex z.2 <? lastIndex x.2).
        -- constructor. inversion Hhd; subst. assumption.
        -- constructor. unfold by_recency. lia.
    + apply Nat.ltb_ge in E. constructor; [exact Hs|].
      constructor. exact E.
Qed.

Lemma stable_sort_sorted (l : list (str * Rec)) :
  StronglySorted by_recency (stable_sort l).
Proof.
  apply Sorted_StronglySorted; [apply by_recency_trans|].
  induction l as [|x l IH]; simpl; [constructor|].
  apply insert_by_recency_sorted, IH.
Qed.

(** Sorting leaves a sorted vector as it is. *)
Lemma insert_by_recency_head (x : str * Rec) (l : list (str * Rec)) :
  Forall (by_recency x) l -> insert_by_recency x l = x :: l.
Proof.
  intros H. destruct l as [|y l]; simpl; [reflexivity|].
  inversion H as [|? ? Hxy _]; subst. unfold by_recency in Hxy.
  destruct (lastIndex y.2 <? lastIndex x.2) eqn:E; [|reflexivity].
  apply Nat.ltb_lt in E. lia.
Qed.

Lemma stable_sort_sorted_id (l : list (str * Rec)) :
  StronglySorted by_recency l -> stable_sort l = l.
Proof.
  induction 1 as [|x l _ IH Hx]; simpl; [reflexivity|].
  rewrite IH. apply insert_by_recency_head, Hx.
Qed.

Lemma trim_split (maxLines : nat) (l : list (str * Rec)) :
  take (length l - maxLines) l ++ trim maxLines l = l.
Proof.
  unfold trim. destruct (maxLines <? length l) eqn:E.
  - apply take_drop.
  - apply Nat.ltb_ge in E. replace (length l - maxLines) with 0 by lia.
    reflexivity.
Qed.

Lemma trim_length (maxLines : nat) (l : list (str * Rec)) :
  length (trim maxLines l) = Nat.min maxLines (length l).
Proof.
  unfold trim. destruct (maxLines <? length l) eqn:E.
  - apply Nat.ltb_lt in E. rewrite length_drop. lia.
  - apply Nat.ltb_ge in E. lia.
Qed.

(** ** The records of one pass *)

Lemma records_keys_NoDup (done : list str)
    (st : gmap str nat * list (str * Rec)) :
  dedup_inv done st -> NoDup (st.2.*1).
Proof.
  intros (I1 & _ & _). apply NoDup_alt. intros i j k Hi Hj.
  apply list_lookup_fmap_Some in Hi as ([k1 r1] & -> & Hr1).
  apply list_lookup_fmap_Some in Hj as ([k2 r2] & Hk & Hr2). simpl in *.
  subst k2.
  assert (st.1 !! k1 = Some i) by (apply (proj2 (I1 _ _)); eauto).
  assert (st.1 !! k1 = Some j) by (apply (proj2 (I1 _ _)); eauto).
  congruence.
Qed.

Lemma records_lastIndex_NoDup (done : list str)
    (st : gmap str nat * list (str * Rec)) :
  dedup_inv done st -> NoDup ((fun kv => lastIndex kv.2) <$> st.2).
Proof.
  intros (I1 & I2 & _). apply NoDup_alt. intros i j n Hi Hj.
  apply list_lookup_fmap_Some in Hi as ([k1 r1] & -> & Hr1).
  apply list_lookup_fmap_Some in Hj as ([k2 r2] & Hn & Hr2). simpl in *.
  destruct (I2 _ _ _ Hr1) as (_ & l1 & (Hl1 & <- & _) & _).
  destruct (I2 _ _ _ Hr2) as (_ & l2 & (Hl2 & <- & _) & _).
  rewrite <- Hn in Hl2. assert (l2 = l1) by congruence. subst l2.
  assert (st.1 !! line_key l1 = Some i) by (apply (proj2 (I1 _ _)); eauto).
  assert (st.1 !! line_key l1 = Some j) by (apply (proj2 (I1 _ _)); eauto).
  congruence.
Qed.

Lemma records_keys_are_line_keys (done : list str)
    (st : gmap str nat * list (str * Rec)) (k : str) :
  dedup_inv done st -> (k ∈ st.2.*1 <-> k ∈ line_key <$> done).
Proof.
  intros (I1 & I2 & I3). split.
  - intros Hk. apply list_elem_of_fmap in Hk as ([k' r] & -> & Hr).
    apply list_elem_of_lookup in Hr as [idx Hr].
    destruct (I2 _ _ _ Hr) as (_ & l & (Hl & Hkl & _) & _). simpl.
    apply list_elem_of_fmap. exists l. split; [congruence|].
    apply list_elem_of_lookup. eauto.
  - intros Hk. apply list_elem_of_fmap in Hk as (l & -> & Hl).
    destruct (I3 l Hl) as [idx Hidx]. apply (proj1 (I1 _ _)) in Hidx as [r Hr].
    apply list_elem_of_fmap. exists (line_key l, r). split; [reflexivity|].
    apply list_elem_of_lookup. eauto.
Qed.

Lemma records_length (done : list str)
    (st : gmap str nat * list (str * Rec)) :
  dedup_inv done st ->
  length st.2 = length (remove_dups (line_key <$> done)).
Proof.
  intros Hinv. rewrite <- (length_fmap fst st.2).
  apply Permutation_length, NoDup_Permutation.
  - exact (records_keys_NoDup _ _ Hinv).
  - apply NoDup_remove_dups.
  - intros k. rewrite elem_of_remove_dups.
    exact (records_keys_are_line_keys _ _ k Hinv).
Qed.

Lemma compact_records_spec (lines : list str) (maxLines : nat) :
  exists st,
    dedup_loop lines 0 (∅, []) = Some st /\ dedup_inv lines st /\
    compact_records lines maxLines = Some (trim maxLines (stable_sort st.2)).
Proof.
  destruct (dedup_loop_inv lines) as (st & Heq & Hinv).
  exists st. split_and!; [exact Heq|exact Hinv|].
  unfold compact_records. rewrite Heq. reflexivity.
Qed.

Lemma trim_elem_of (maxLines : nat) (l : list (str * Rec)) (x : str * Rec) :
  x ∈ trim maxLines l -> x ∈ l.
Proof.
  intros Hx. rewrite <- (trim_split maxLines l). apply elem_of_app. auto.
Qed.

Lemma kept_record_lookup (maxLines : nat) (recs : list (str * Rec))
    (x : str * Rec) :
  x ∈ trim maxLines (stable_sort recs) -> exists idx, recs !! idx = Some x.
Proof.
  intros Hx. apply trim_elem_of in Hx. rewrite stable_sort_perm in Hx.
  apply list_elem_of_lookup. exact Hx.
Qed.

Lemma kept_keys_NoDup (maxLines : nat) (recs : list (str * Rec)) :
  NoDup (recs.*1) -> NoDup ((trim maxLines (stable_sort recs)).*1).
Proof.
  intros Hnd. rewrite <- (stable_sort_perm recs) in Hnd.
  rewrite <- (trim_split maxLines (stable_sort recs)), fmap_app in Hnd.
  apply NoDup_app in Hnd as (_ & _ & Hnd). exact Hnd.
Qed.

(** C10. For every input and every [maxLines] the pass returns its records
    without throwing, no two of them have the same key, and the key stored
    with a record is the key [ExtractKey] gives for its base line. *)
Theorem one_record_per_key (lines : list str) (maxLines : nat) :
  exists out,
    compact_records lines maxLines = Some out /\
    NoDup (out.*1) /\
    forall k r, (k, r) ∈ out -> ExtractKey (baseLine r) = Some k.
Proof.
  destruct (compact_records_spec lines maxLines) as (st & _ & Hinv & Heq).
  exists (trim maxLines (stable_sort st.2)). split_and!; [exact Heq| |].
  - apply kept_keys_NoDup, (records_keys_NoDup lines), Hinv.
  - intros k r Hr. apply kept_record_lookup in Hr as [idx Hr].
    destruct Hinv as (_ & I2 & _).
    destruct (I2 _ _ _ Hr) as (_ & l & (_ & <- & _) & ->).
    apply ExtractKey_offset.
Qed.

(** C1. For every sequence of logical lines and every [maxLines] the pass
    returns; it builds one record per distinct key, no two with the same
    key and one for the key of every line, and the [lastIndex] of a record
    is the index of the last line of its key in the input; it keeps
    [min maxLines (number of distinct keys)] of them, in non-decreasing
    order of [lastIndex]; the records it drops together with those it
    keeps are the records built, there are as many dropped as the distinct
    keys exceed [maxLines], and every dropped record has a smaller
    [lastIndex] than every kept one: the keys dropped are those whose last
    line comes earliest. *)
Theorem compaction_keeps_most_recent (lines : list str) (maxLines : nat) :
  exists st out dropped,
    dedup_loop lines 0 (∅, []) = Some st /\
    compact_records lines maxLines = Some out /\
    length st.2 = length (remove_dups (line_key <$> lines)) /\
    length out = Nat.min maxLines (length (remove_dups (line_key <$> lines))) /\
    StronglySorted by_recency out /\
    dropped ++ out ≡ₚ st.2 /\
    length dropped = length (remove_dups (line_key <$> lines)) - maxLines /\
    (forall d k, d ∈ dropped -> k ∈ out -> lastIndex d.2 < lastIndex k.2) /\
    NoDup ((dropped ++ out).*1) /\
    (forall l, l ∈ lines -> line_key l ∈ (dropped ++ out).*1) /\
    (forall kv, kv ∈ dropped ++ out ->
       exists l, last_occurrence lines kv.1 (lastIndex kv.2) l).
Proof.
  destruct (compact_records_spec lines maxLines) as (st & Hloop & Hinv & Heq).
  pose proof (records_length _ _ Hinv) as Hlen.
  pose proof (stable_sort_sorted st.2) as Hsorted.
  pose proof (records_lastIndex_NoDup _ _ Hinv) as Hnd.
  rewrite <- (stable_sort_perm st.2) in Hnd.
  pose proof (Permutation_length (stable_sort_perm st.2)) as Hslen.
  pose proof (records_keys_NoDup _ _ Hinv) as Hkeys.
  pose proof (stable_sort_perm st.2) as Hperm.
  set (sorted := stable_sort st.2) in *.
  pose proof (trim_split maxLines sorted) as Hsplit.
  exists st, (trim maxLines sorted), (take (length sorted - maxLines) sorted).
  rewrite <- Hsplit in Hsorted, Hnd.
  split_and!.
  - exact Hloop.
  - exact Heq.
  - exact Hlen.
  - rewrite trim_length. lia.
  - exact (StronglySorted_app_1_r _ _ _ Hsorted).
  - rewrite Hsplit. exact Hperm.
  - rewrite length_take. lia.
  - intros d k Hd Hk.
    pose proof (StronglySorted_app_1_elem_of _ _ _ _ _ Hsorted Hd Hk) as Hle.
    unfold by_recency in Hle.
    rewrite fmap_app in Hnd. apply NoDup_app in Hnd as (_ & Hdisj & _).
    assert (lastIndex d.2 <> lastIndex k.2); [|lia].
    intros E. apply (Hdisj (lastIndex d.2)).
    + apply list_elem_of_fmap. exists d. auto.
    + apply list_elem_of_fmap. exists k. auto.
  - rewrite Hsplit, Hperm. exact Hkeys.
  - intros l Hl. rewrite Hsplit, Hperm.
    apply (records_keys_are_line_keys _ _ _ Hinv).
    apply list_elem_of_fmap. exists l. auto.
  - intros [k r] Hkv. rewrite Hsplit, Hperm in Hkv.
    apply list_elem_of_lookup in Hkv as [idx Hr].
    destruct Hinv as (_ & I2 & _).
    destruct (I2 _ _ _ Hr) as (_ & l & Hlast & _).
    exists l. exact Hlast.
Qed.

(** ** Count conservation *)

Lemma count_sum_key_sum (lines : list str) (out : list (str * Rec)) :
  (forall k r, (k, r) ∈ out -> count r = (mult_sum k lines mod SIZE_MOD)%Z) ->
  (count_sum out mod SIZE_MOD = key_sum (out.*1) lines mod SIZE_MOD)%Z.
Proof.
  induction out as [|[k r] out IH]; intros H; [reflexivity|].
  simpl. rewrite (H k r) by left.
  rewrite Z.add_mod_idemp_l by (pose proof SIZE_MOD_pos; lia).
  rewrite <- Z.add_mod_idemp_r by (pose proof SIZE_MOD_pos; lia).
  rewrite IH by (intros k' r' Hr'; apply H; right; exact Hr').
  apply Z.add_mod_idemp_r. pose proof SIZE_MOD_pos. lia.
Qed.

Lemma key_sum_cons (keys : list str) (l : str) (lines : list str) :
  key_sum keys (l :: lines)
  = (foldr (fun k acc =>
              ((if decide (line_key l = k) then line_mult l else 0) + acc)%Z)
       0%Z keys
     + key_sum keys lines)%Z.
Proof. induction keys as [|k keys IH]; simpl; [reflexivity|]. rewrite IH. lia. Qed.

Lemma key_pick_sum (keys : list str) (a : str) (v : Z) :
  NoDup keys ->
  foldr (fun k acc => ((if decide (a = k) then v else 0) + acc)%Z) 0%Z keys
  = if decide (a ∈ keys) then v else 0%Z.
Proof.
  induction 1 as [|k keys Hk _ IH]; simpl.
  - destruct (decide (a ∈ [])) as [Hin|_]; [inversion Hin|reflexivity].
  - rewrite IH. destruct (decide (a = k)) as [->|Hne].
    + destruct (decide (k ∈ keys)); [contradiction|].
      destruct (decide (k ∈ k :: keys)) as [_|Hn]; [lia|].
      exfalso. apply Hn. left.
    + destruct (decide (a ∈ keys)) as [Hin|Hnin].
      * destruct (decide (a ∈ k :: keys)) as [_|Hn]; [lia|].
        exfalso. apply Hn. right. exact Hin.
      * destruct (decide (a ∈ k :: keys)) as [Hin|_]; [|lia].
        exfalso. apply elem_of_cons in Hin as [?|?]; contradiction.
Qed.

Lemma key_sum_retained (keys : list str) (lines : list str) :
  NoDup keys -> key_sum keys lines = retained_sum keys lines.
Proof.
  intros Hnd. induction lines as [|l lines IH].
  - clear Hnd. unfold key_sum, retained_sum.
    induction keys as [|k keys IHk]; [reflexivity|].
    cbn [foldr mult_sum] in *. rewrite IHk. reflexivity.
  - rewrite key_sum_cons, IH, (key_pick_sum _ _ _ Hnd). reflexivity.
Qed.

(** What a kept record holds. *)
Lemma kept_record_spec (lines : list str) (maxLines : nat) :
  exists out,
    compact_records lines maxLines = Some out /\
    NoDup (out.*1) /\
    forall k r, (k, r) ∈ out ->
      count r = (mult_sum k lines mod SIZE_MOD)%Z /\
      exists l, last_occurrence lines k (lastIndex r) l /\
                baseLine r = StripRepeatSuffix l.
Proof.
  destruct (compact_records_spec lines maxLines) as (st & _ & Hinv & Heq).
  exists (trim maxLines (stable_sort st.2)). split_and!; [exact Heq| |].
  - apply kept_keys_NoDup, (records_keys_NoDup lines), Hinv.
  - intros k r Hr. apply kept_record_lookup in Hr as [idx Hr].
    destruct Hinv as (_ & I2 & _). exact (I2 _ _ _ Hr).
Qed.

(** C2, as amended. For every sequence of logical lines and every
    [maxLines] the pass returns; the count of each record it keeps is the
    sum of the multiplicities of the lines of its key reduced modulo
    [2^64], the arithmetic of [std::size_t]; its base line is the
    suffix-stripped text of the last line of its key and its [lastIndex] is
    the index of that line; and the records' counts add up, modulo [2^64],
    to the multiplicities of the lines whose key is kept. *)
Theorem count_conservation (lines : list str) (maxLines : nat) :
  exists out,
    compact_records lines maxLines = Some out /\
    (forall k r, (k, r) ∈ out ->
       count r = (mult_sum k lines mod SIZE_MOD)%Z /\
       exists l, last_occurrence lines k (lastIndex r) l /\
                 baseLine r = StripRepeatSuffix l) /\
    (count_sum out mod SIZE_MOD
     = retained_sum (out.*1) lines mod SIZE_MOD)%Z.
Proof.
  destruct (kept_record_spec lines maxLines) as (out & Heq & Hnd & Hrec).
  exists out. split_and!; [exact Heq|exact Hrec|].
  rewrite (count_sum_key_sum lines)
    by (intros k r Hr; apply (Hrec k r Hr)).
  rewrite key_sum_retained by exact Hnd. reflexivity.
Qed.

(** Without overflow the sums are the plain ones. *)
Lemma mult_sum_nonneg (k : str) (lines : list str) : (0 <= mult_sum k lines)%Z.
Proof.
  induction lines as [|l lines IH]; simpl; [lia|].
  pose proof (line_mult_range l).
  destruct (decide (line_key l = k)); lia.
Qed.

Lemma count_exact (lines : list str) (maxLines : nat)
    (out : list (str * Rec)) (k : str) (r : Rec) :
  compact_records lines maxLines = Some out -> (k, r) ∈ out ->
  (mult_sum k lines < SIZE_MOD)%Z -> count r = mult_sum k lines.
Proof.
  intros Heq Hr Hlt.
  destruct (kept_record_spec lines maxLines) as (out' & Heq' & _ & Hrec).
  assert (out' = out) by congruence. subst out'.
  destruct (Hrec k r Hr) as [-> _].
  apply Z.mod_small. pose proof (mult_sum_nonneg k lines). lia.
Qed.

(** C2 as it is written fails when the sum passes [2^64]: a line that
    stands for [2^64 - 1] occurrences followed by one more occurrence of
    the same key leaves a record whose count is 0. *)
Lemma count_conservation_counterexample :
  ~ (forall (lines : list str) (maxLines : nat) (out : list (str * Rec))
            (k : str) (r : Rec),
       compact_records lines maxLines = Some out -> (k, r) ∈ out ->
       count r = mult_sum k lines).
Proof.
  intros H.
  specialize (H [lit "a (repeated 18446744073709551615 times)"; lit "a"] 10
                [(lit "a", mkRec (lit "a") 0 1)] (lit "a")
                (mkRec (lit "a") 0 1)).
  assert (Hrun : compact_records
                   [lit "a (repeated 18446744073709551615 times)"; lit "a"] 10
                 = Some [(lit "a", mkRec (lit "a") 0 1)])
    by (vm_compute; reflexivity).
  specialize (H Hrun ltac:(left)). vm_compute in H. discriminate H.
Qed.

(** ** Reading the file *)

Lemma lacks_elem_of (c : ascii) (s : str) :
  lacks c s = true <-> c ∉ s.
Proof.
  unfold lacks. rewrite forallb_forall. split.
  - intros H Hin. apply list_elem_of_In in Hin. specialize (H c Hin).
    rewrite Ascii.eqb_refl in H. discriminate.
  - intros H x Hx. apply negb_true_iff. destruct (Ascii.eqb x c) eqn:E;
      [|reflexivity].
    apply Ascii.eqb_eq in E. subst x. exfalso. apply H, list_elem_of_In, Hx.
Qed.

Lemma read_lines_lack_newline (stream line : str) :
  lacks NEWLINE line = true ->
  Forall (fun l => lacks NEWLINE l = true) (read_lines stream line).
Proof.
  revert line. induction stream as [|c rest IH]; intros line Hline; simpl.
  - destruct line; repeat constructor. exact Hline.
  - destruct (Ascii.eqb c NEWLINE) eqn:E.
    + constructor; [exact Hline|]. apply IH. reflexivity.
    + apply IH. rewrite lacks_app, Hline. simpl. rewrite E. reflexivity.
Qed.

Lemma lacks_concat (c : ascii) (segs : list str) :
  lacks c (concat segs) = true -> Forall (fun seg => lacks c seg = true) segs.
Proof.
  induction segs as [|seg segs IH]; simpl; [constructor|].
  rewrite lacks_app. intros H. apply andb_true_iff in H as [H1 H2].
  constructor; [exact H1|apply IH, H2].
Qed.

Lemma filter_nonempty_id (segs : list str) :
  Forall (fun seg => seg <> [] /\ no_inner_start seg) segs ->
  filter (fun p => nonempty p = true) segs = segs.
Proof.
  induction 1 as [|seg segs [Hne _] _ IH]; [reflexivity|].
  rewrite filter_cons, IH. destruct seg; [congruence|]. reflexivity.
Qed.

(** The reading loop never throws; the logical lines it collects are not
    empty, hold no inner timestamp start, and hold no newline if the
    physical lines hold none. *)
Lemma collect_lines_spec (phys : list str) :
  forall acc,
  exists lines,
    collect_lines phys acc = Some (acc ++ lines) /\
    Forall (fun l => l <> [] /\ no_inner_start l) lines /\
    (Forall (fun l => lacks NEWLINE l = true) phys ->
     Forall (fun l => lacks NEWLINE l = true) lines) /\
    (lines = [] <-> Forall (fun l => l = []) phys).
Proof.
  induction phys as [|line rest IH]; intros acc.
  - exists []. rewrite app_nil_r.
    split_and!; [reflexivity|constructor|constructor|]. split; constructor.
  - simpl. destruct line as [|c line'] eqn:Hline.
    + destruct (IH acc) as (lines & Heq & Hall & Hnl & Hnil).
      exists lines. split_and!; [exact Heq|exact Hall| |].
      * intros H. apply Hnl. inversion H; assumption.
      * rewrite Hnil. split; [constructor; [reflexivity|assumption]|].
        intros H. inversion H; assumption.
    + rewrite <- Hline.
      destruct (SplitConcatenatedLines_spec line []) as (segs & Hs & Hcat & Hsegs & Hne).
      assert (Hnonempty : nonempty line = true) by (subst line; reflexivity).
      rewrite Hnonempty, Hs. simpl. rewrite (filter_nonempty_id _ Hsegs).
      destruct (IH (acc ++ segs)) as (lines & Heq & Hall & Hnl & Hnil).
      exists (segs ++ lines). split_and!.
      * rewrite Heq, app_assoc. reflexivity.
      * apply Forall_app. split; [exact Hsegs|exact Hall].
      * intros H. inversion H as [|? ? Hl Hrest]; subst.
        apply Forall_app. split; [|apply Hnl, Hrest].
        apply lacks_concat. rewrite Hcat. exact Hl.
      * split.
        -- intros Happ. apply app_eq_nil in Happ as [Hsn _].
           apply Hne in Hsn. congruence.
        -- intros H. inversion H; subst. discriminate.
Qed.

Lemma logical_lines_spec (bytes : str) :
  exists lines,
    logical_lines bytes = Some lines /\
    Forall (fun l => l <> [] /\ no_inner_start l /\ lacks NEWLINE l = true)
           lines /\
    (lines = [] <-> Forall (fun l => l = []) (read_lines bytes [])).
Proof.
  unfold logical_lines.
  destruct (collect_lines_spec (read_lines bytes []) [])
    as (lines & Heq & Hall & Hnl & Hnil).
  exists lines. split_and!; [exact Heq| |exact Hnil].
  specialize (Hnl (read_lines_lack_newline bytes [] eq_refl)).
  rewrite Forall_forall in *. intros l Hl.
  destruct (Hall l Hl). split_and!; [assumption|assumption|apply Hnl, Hl].
Qed.

(** ** No rewrite *)

(** C8. If the file cannot be opened for reading, or if it holds no
    non-empty logical line, the function returns without opening the file
    for writing: the file is the one it was, which is not the outcome of
    writing zero lines. *)
Theorem compaction_skipped (f : LogFile) (maxLines : nat) :
  readable f = false \/ logical_lines (content f) = Some [] ->
  CompressAndTrimLogFile f maxLines = Some Untouched /\
  compact_file f maxLines = Some f /\
  Untouched <> Rewritten [].
Proof.
  intros H.
  assert (Hrun : CompressAndTrimLogFile f maxLines = Some Untouched).
  { unfold CompressAndTrimLogFile. destruct (readable f); simpl.
    - destruct H as [H|H]; [discriminate|].
      unfold logical_lines in H. rewrite H. reflexivity.
    - reflexivity. }
  split_and!; [exact Hrun| |discriminate].
  unfold compact_file. rewrite Hrun. reflexivity.
Qed.

Lemma compaction_skipped_witness :
  CompressAndTrimLogFile (mkLogFile true true [NEWLINE; NEWLINE]) MAX_LOG_LINES
  = Some Untouched.
Proof.
  apply (compaction_skipped (mkLogFile true true [NEWLINE; NEWLINE]) MAX_LOG_LINES).
  right. reflexivity.
Defined.

(** The file holds no non-empty logical line exactly when all its physical
    lines are empty. *)
Lemma logical_lines_empty (bytes : str) :
  logical_lines bytes = Some [] <->
  Forall (fun l => l = []) (read_lines bytes []).
Proof.
  destruct (logical_lines_spec bytes) as (lines & Heq & _ & Hnil).
  rewrite Heq, <- Hnil. split; congruence.
Qed.

(** Writing zero lines does happen, and is another outcome. *)
Lemma rewrite_with_zero_lines :
  CompressAndTrimLogFile (mkLogFile true true (lit "a" ++ [NEWLINE])) 0
  = Some (Rewritten []).
Proof. reflexivity. Qed.

(** ** Reading back what a pass wrote *)

Lemma read_lines_line (l rest acc : str) :
  lacks NEWLINE l = true ->
  read_lines (l ++ NEWLINE :: rest) acc = (acc ++ l) :: read_lines rest [].
Proof.
  revert acc. induction l as [|c l IH]; intros acc Hl; cbn [app read_lines].
  - rewrite Ascii.eqb_refl, app_nil_r. reflexivity.
  - simpl in Hl. apply andb_true_iff in Hl as [Hc Hl].
    apply negb_true_iff in Hc. rewrite Hc, IH by exact Hl.
    rewrite <- app_assoc. reflexivity.
Qed.

Lemma read_lines_written (ls : list str) :
  Forall (fun l => lacks NEWLINE l = true) ls ->
  read_lines (flat_map (fun l => l ++ [NEWLINE]) ls) [] = ls.
Proof.
  induction 1 as [|l ls Hl _ IH]; [reflexivity|].
  simpl. rewrite <- app_assoc. simpl.
  rewrite read_lines_line by exact Hl. rewrite IH. reflexivity.
Qed.

Lemma write_records_lines (records : list (str * Rec)) :
  write_records records
  = flat_map (fun l => l ++ [NEWLINE])
      ((fun kv => SerializeRecord kv.2) <$> records).
Proof.
  unfold write_records. induction records as [|kv records IH];
    [reflexivity|].
  simpl. rewrite IH. reflexivity.
Qed.

Lemma split_loop_no_start (raw : str) (n : nat) :
  forall i out, no_inner_start raw -> 1 <= i ->
                split_loop raw n i 0 out = Some (0, out).
Proof.
  induction n as [|n IH]; intros i out Hraw Hi; simpl; [reflexivity|].
  rewrite (Hraw i Hi). apply IH; [exact Hraw|lia].
Qed.

Lemma SplitConcatenatedLines_whole (raw : str) :
  raw <> [] -> no_inner_start raw ->
  SplitConcatenatedLines raw [] = Some [raw].
Proof.
  intros Hne Hraw. unfold SplitConcatenatedLines.
  rewrite split_loop_no_start by (exact Hraw || lia). simpl.
  destruct raw as [|c raw]; [congruence|]. reflexivity.
Qed.

Lemma collect_lines_whole (ls : list str) :
  forall acc,
    Forall (fun l => l <> [] /\ no_inner_start l) ls ->
    collect_lines ls acc = Some (acc ++ ls).
Proof.
  induction ls as [|l ls IH]; intros acc H; simpl.
  - rewrite app_nil_r. reflexivity.
  - inversion H as [|? ? [Hne Hl] Hrest]; subst.
    destruct l as [|c l'] eqn:El; [congruence|]. rewrite <- El in *.
    assert (Hn : nonempty l = true) by (subst l; reflexivity).
    rewrite Hn, SplitConcatenatedLines_whole by assumption. simpl.
    rewrite (filter_nonempty_id [l]) by (constructor; [split; assumption|constructor]).
    rewrite IH by exact Hrest. rewrite <- app_assoc. reflexivity.
Qed.

(** Lines of pairwise distinct keys, none of them in the map, each get a
    record of their own, in order. *)
Lemma dedup_loop_fresh (ls : list str) :
  forall i (m : gmap str nat) (recs : list (str * Rec)),
    NoDup (line_key <$> ls) ->
    (forall l, l ∈ ls -> m !! line_key l = None) ->
    exists m', dedup_loop ls i (m, recs)
               = Some (m', recs ++ fresh_records i ls).
Proof.
  induction ls as [|l ls IH]; intros i m recs Hnd Hm; simpl.
  - exists m. rewrite app_nil_r. reflexivity.
  - rewrite process_line_total. simpl.
    rewrite (Hm l) by left. simpl.
    rewrite fmap_cons in Hnd. apply NoDup_cons in Hnd as [Hl Hnd].
    destruct (IH (S i) (<[line_key l := length recs]> m)
                (recs ++ [(line_key l,
                           mkRec (StripRepeatSuffix l) (line_mult l) i)])
                Hnd) as [m' Heq].
    + intros l' Hl'. rewrite lookup_insert_ne.
      * apply Hm. right. exact Hl'.
      * intros E. apply Hl. rewrite E. apply list_elem_of_fmap.
        exists l'. auto.
    + exists m'. rewrite Heq, <- app_assoc. reflexivity.
Qed.

Lemma fresh_records_sorted (ls : list str) (i : nat) :
  StronglySorted by_recency (fresh_records i ls) /\
  Forall (fun kv => i <= lastIndex kv.2) (fresh_records i ls).
Proof.
  revert i. induction ls as [|l ls IH]; intros i; simpl.
  - split; constructor.
  - destruct (IH (S i)) as [Hs Hge]. split.
    + constructor; [exact Hs|].
      eapply Forall_impl; [exact Hge|]. intros kv Hkv.
      unfold by_recency. simpl in *. lia.
    + constructor; [simpl; lia|].
      eapply Forall_impl; [exact Hge|]. intros kv Hkv. simpl in *. lia.
Qed.

Lemma fresh_records_length (ls : list str) (i : nat) :
  length (fresh_records i ls) = length ls.
Proof.
  revert i. induction ls as [|l ls IH]; intros i; simpl; [reflexivity|].
  rewrite IH. reflexivity.
Qed.

Lemma char_at_app_l (a b : str) (k : nat) :
  k < length a -> char_at (a ++ b) k = char_at a k.
Proof.
  intros Hk. unfold char_at. rewrite !nth_lookup, lookup_app_l by exact Hk.
  reflexivity.
Qed.

Lemma char_at_app_r (a b : str) (k : nat) :
  length a <= k -> char_at (a ++ b) k = char_at b (k - length a).
Proof.
  intros Hk. unfold char_at. rewrite !nth_lookup, lookup_app_r by exact Hk.
  reflexivity.
Qed.

Lemma char_at_elem_of (s : str) (k : nat) : k < length s -> char_at s k ∈ s.
Proof.
  intros Hk. unfold char_at. rewrite nth_lookup.
  destruct (lookup_lt_is_Some_2 s k Hk) as [c Hc]. rewrite Hc. simpl.
  apply list_elem_of_lookup. eauto.
Qed.

Lemma year_prefix_at_app_l (a b : str) (j : nat) :
  j + 5 < length a -> year_prefix_at (a ++ b) j = year_prefix_at a j.
Proof.
  intros Hj. unfold year_prefix_at.
  rewrite !char_at_app_l by lia. rewrite length_app.
  settle_cmp (j + 5 <? length a + length b).
  settle_cmp (j + 5 <? length a).
  reflexivity.
Qed.

Lemma year_prefix_at_dash (s : str) (j : nat) :
  year_prefix_at s j = true ->
  j + 5 < length s /\ char_at s (j + 5) = "-"%char.
Proof.
  unfold year_prefix_at, year_prefix. intros H.
  apply andb_true_iff in H as [Hlen H]. apply Nat.ltb_lt in Hlen.
  apply andb_true_iff in H as [_ H]. apply Ascii.eqb_eq in H. auto.
Qed.

(** Appending text without a dash to a base line that does not end in a
    year prefix creates no timestamp start. *)
Lemma no_inner_start_app (base sfx : str) :
  no_inner_start base -> dangling_year_prefix base = false ->
  lacks "-"%char sfx = true -> no_inner_start (base ++ sfx).
Proof.
  intros Hbase Hdang Hsfx j Hj.
  destruct (IsTimestampStart (base ++ sfx) j) eqn:E; [exfalso|reflexivity].
  rewrite IsTimestampStart_eq in E. apply andb_true_iff in E as [_ E].
  destruct (year_prefix_at_dash _ _ E) as [Hlen Hdash].
  assert (Hin : j + 5 < length base).
  { destruct (decide (j + 5 < length base)) as [?|Hge]; [assumption|].
    exfalso. rewrite char_at_app_r in Hdash by lia.
    apply lacks_elem_of in Hsfx. apply Hsfx. rewrite <- Hdash.
    apply char_at_elem_of. rewrite length_app in Hlen. lia. }
  rewrite year_prefix_at_app_l in E by exact Hin.
  destruct (decide (j + 6 < length base)) as [Hlt|Hge].
  - specialize (Hbase j Hj). rewrite IsTimestampStart_eq, E in Hbase.
    destruct (j + 6 <? length base) eqn:E6; [discriminate|].
    apply Nat.ltb_ge in E6. lia.
  - unfold dangling_year_prefix in Hdang.
    replace (length base - 6) with j in Hdang by lia. rewrite E in Hdang.
    destruct (7 <=? length base) eqn:E7; [discriminate|].
    apply Nat.leb_gt in E7. lia.
Qed.

Lemma no_inner_start_take (l : str) (p : nat) :
  no_inner_start l -> no_inner_start (take p l).
Proof.
  intros Hl j Hj.
  destruct (IsTimestampStart (take p l) j) eqn:E; [|reflexivity].
  apply (IsTimestampStart_embed _ l 0) in E.
  - simpl in E. rewrite (Hl j Hj) in E. discriminate.
  - intros k Hk. rewrite length_take in Hk. apply lookup_take_lt. lia.
Qed.

Lemma lacks_take (c : ascii) (l : str) (p : nat) :
  lacks c l = true -> lacks c (take p l) = true.
Proof.
  intros H. rewrite <- (take_drop p l), lacks_app in H.
  apply andb_true_iff in H as [H _]. exact H.
Qed.

Lemma no_inner_start_StripRepeatSuffix (l : str) :
  no_inner_start l -> no_inner_start (StripRepeatSuffix l).
Proof.
  intros H. unfold StripRepeatSuffix.
  destruct (TryParseRepeatSuffix l) as [[c p]|];
    [apply no_inner_start_take|]; exact H.
Qed.

Lemma lacks_StripRepeatSuffix (c : ascii) (l : str) :
  lacks c l = true -> lacks c (StripRepeatSuffix l) = true.
Proof.
  intros H. unfold StripRepeatSuffix.
  destruct (TryParseRepeatSuffix l) as [[n p]|]; [apply lacks_take|]; exact H.
Qed.

(** The line written for a stable record reads back as that record. *)
Lemma serialized_reparse (k : str) (r : Rec) (j : nat) :
  stable_record (k, r) ->
  StripRepeatSuffix (SerializeRecord r) = baseLine r /\
  line_key (SerializeRecord r) = k /\
  SerializeRecord (mkRec (StripRepeatSuffix (SerializeRecord r))
                     (line_mult (SerializeRecord r)) j)
  = SerializeRecord r /\
  SerializeRecord r <> [] /\
  no_inner_start (SerializeRecord r) /\
  lacks NEWLINE (SerializeRecord r) = true.
Proof.
  intros (Hk & Hst & Hin & Hnl & Hc). simpl in *.
  unfold stable_base in Hst.
  apply andb_true_iff in Hst as [Hst Hdang].
  apply andb_true_iff in Hst as [Hne Hparse].
  apply negb_true_iff in Hdang.
  unfold line_key, line_mult, StripRepeatSuffix, SerializeRecord.
  cbn [baseLine count].
  destruct (1 <? count r)%Z eqn:Hgt.
  - apply Z.ltb_lt in Hgt.
    rewrite (TryParseRepeatSuffix_serialized (baseLine r) (count r))
      by lia.
    rewrite take_app_length.
    destruct (size_to_string_spec (count r) ltac:(lia)) as (_ & Hdig & _).
    destruct (1 <? count r)%Z eqn:Hgt'; [|apply Z.ltb_ge in Hgt'; lia].
    split_and!; [reflexivity|congruence|reflexivity| | |].
    + destruct (baseLine r); discriminate.
    + apply no_inner_start_app; [exact Hin|exact Hdang|].
      rewrite !lacks_app, (digits_lack "-" _ eq_refl Hdig). reflexivity.
    + rewrite !lacks_app, Hnl, (digits_lack NEWLINE _ eq_refl Hdig).
      reflexivity.
  - destruct (TryParseRepeatSuffix (baseLine r)); [discriminate|].
    split_and!; [reflexivity|congruence|reflexivity| |exact Hin|exact Hnl].
    destruct (baseLine r); [discriminate|discriminate].
Qed.

(** The records a pass keeps from a stable file are stable. *)
Lemma first_pass_records (lines : list str) (maxLines : nat) :
  Forall (fun l => l <> [] /\ no_inner_start l /\ lacks NEWLINE l = true)
         lines ->
  Forall (fun l => stable_base (StripRepeatSuffix l) = true) lines ->
  exists out,
    compact_records lines maxLines = Some out /\
    NoDup (out.*1) /\ length out <= maxLines /\
    Forall stable_record out.
Proof.
  intros Hlines Hbases.
  destruct (compact_records_spec lines maxLines) as (st & _ & Hinv & Heq).
  exists (trim maxLines (stable_sort st.2)). split_and!.
  - exact Heq.
  - apply kept_keys_NoDup, (records_keys_NoDup lines), Hinv.
  - rewrite trim_length. lia.
  - apply Forall_forall. intros [k r] Hr.
    apply kept_record_lookup in Hr as [idx Hr].
    destruct Hinv as (_ & I2 & _).
    destruct (I2 _ _ _ Hr) as (Hc & l & (Hl & Hkl & _) & Hb).
    assert (Hin : l ∈ lines) by (apply list_elem_of_lookup; eauto).
    rewrite Forall_forall in Hlines, Hbases.
    destruct (Hlines l Hin) as (_ & Hstart & Hnl).
    unfold stable_record. simpl. rewrite Hb. split_and!.
    + rewrite <- Hkl. reflexivity.
    + apply Hbases, Hin.
    + apply no_inner_start_StripRepeatSuffix, Hstart.
    + apply lacks_StripRepeatSuffix, Hnl.
    + rewrite Hc. apply Z.mod_pos_bound, SIZE_MOD_pos.
    + rewrite Hc. apply Z.mod_pos_bound, SIZE_MOD_pos.
Qed.

Lemma reserialize_fresh (out : list (str * Rec)) :
  Forall stable_record out ->
  forall j,
    (fun kv => SerializeRecord kv.2)
      <$> fresh_records j ((fun kv => SerializeRecord kv.2) <$> out)
    = (fun kv => SerializeRecord kv.2) <$> out.
Proof.
  induction 1 as [|[k r] out Hr _ IH]; intros j; [reflexivity|].
  rewrite fmap_cons. cbn [fresh_records]. rewrite fmap_cons, IH.
  f_equal. cbn [snd].
  exact (proj1 (proj2 (proj2 (serialized_reparse k r j Hr)))).
Qed.

Lemma written_keys (out : list (str * Rec)) :
  Forall stable_record out ->
  line_key <$> ((fun kv => SerializeRecord kv.2) <$> out) = out.*1.
Proof.
  induction 1 as [|[k r] out Hr _ IH]; [reflexivity|].
  rewrite !fmap_cons, IH. f_equal.
  exact (proj1 (proj2 (serialized_reparse k r 0 Hr))).
Qed.

Lemma match_nonempty {A B : Type} (l : list A) (x y : B) :
  l <> [] -> match l with [] => x | _ :: _ => y end = y.
Proof. destruct l; [congruence|reflexivity]. Qed.

(** A second pass over what a pass wrote from stable records writes the
    same bytes, or nothing if there was no record. *)
Lemma second_pass (out : list (str * Rec)) (maxLines : nat) :
  Forall stable_record out -> NoDup (out.*1) -> length out <= maxLines ->
  CompressAndTrimLogFile (mkLogFile true true (write_records out)) maxLines
  = Some (match out with
          | [] => Untouched
          | _ => Rewritten (write_records out)
          end).
Proof.
  intros Hout Hnd Hlen.
  destruct (decide (out = [])) as [->|Hne]; [reflexivity|].
  rewrite (match_nonempty out) by exact Hne.
  unfold CompressAndTrimLogFile. cbn [readable negb content].
  set (lines2 := (fun kv => SerializeRecord kv.2) <$> out).
  assert (Hgood : Forall (fun l => l <> [] /\ no_inner_start l) lines2).
  { apply Forall_fmap. eapply Forall_impl; [exact Hout|].
    intros [k r] Hr. simpl.
    destruct (serialized_reparse k r 0 Hr) as (_ & _ & _ & H1 & H2 & _).
    auto. }
  assert (Hnl : Forall (fun l => lacks NEWLINE l = true) lines2).
  { apply Forall_fmap. eapply Forall_impl; [exact Hout|].
    intros [k r] Hr. simpl.
    destruct (serialized_reparse k r 0 Hr) as (_ & _ & _ & _ & _ & H3).
    exact H3. }
  assert (Hl2 : length lines2 = length out)
    by (unfold lines2; apply length_fmap).
  assert (Hlines2 : lines2 <> []).
  { intros E. rewrite E in Hl2. destruct out; [congruence|discriminate]. }
  rewrite write_records_lines. fold lines2.
  rewrite (read_lines_written _ Hnl), (collect_lines_whole _ [] Hgood).
  cbn [mbind option_bind app].
  rewrite (match_nonempty lines2) by exact Hlines2.
  destruct (dedup_loop_fresh lines2 0 ∅ []) as [m' Hloop].
  { unfold lines2. rewrite (written_keys _ Hout). exact Hnd. }
  { intros l _. apply lookup_empty. }
  unfold compact_records. rewrite Hloop. cbn [mbind option_bind snd app].
  rewrite stable_sort_sorted_id by apply fresh_records_sorted.
  unfold trim. rewrite fresh_records_length.
  settle_cmp (maxLines <? length lines2).
  cbn [writable negb]. do 2 f_equal.
  rewrite !write_records_lines. f_equal.
  unfold lines2. apply reserialize_fresh, Hout.
Qed.

(** ** Idempotence *)

(** C5, as amended. For every file whose logical lines have a stable base
    line (once the repeat suffix is stripped the line is not empty, does
    not end with a further repeat suffix and does not end with a year
    prefix), and for every [maxLines], a pass returns a file, and a second
    pass on that file returns it unchanged: the bytes are the same after two
    passes as after one. *)
Theorem compaction_idempotent (f : LogFile) (maxLines : nat) :
  stable_file (content f) ->
  exists f1,
    compact_file f maxLines = Some f1 /\
    compact_file f1 maxLines = Some f1.
Proof.
  destruct f as [rd wr bytes]. cbn [content].
  intros (lines & Hll & Hbases).
  destruct (logical_lines_spec bytes) as (lines' & Hll' & Hprops & _).
  assert (lines' = lines) by congruence. subst lines'.
  unfold compact_file at 1. unfold CompressAndTrimLogFile.
  cbn [readable writable content].
  destruct rd; cbn [negb]; [|exists (mkLogFile false wr bytes); split; reflexivity].
  unfold logical_lines in Hll. rewrite Hll. cbn [mbind option_bind].
  assert (Hsame : compact_file (mkLogFile true wr bytes) maxLines
                  = Some (mkLogFile true wr bytes) ->
                  exists f1, Some (mkLogFile true wr bytes) = Some f1 /\
                             compact_file f1 maxLines = Some f1)
    by (intros Hs; eexists; split; [reflexivity|exact Hs]).
  destruct (decide (lines = [])) as [->|Hne].
  - apply Hsame. unfold compact_file, CompressAndTrimLogFile.
    cbn [readable content negb]. rewrite Hll. reflexivity.
  - rewrite (match_nonempty lines) by exact Hne.
    destruct (first_pass_records lines maxLines Hprops Hbases)
      as (out & Heq & Hnd & Hlen & Hstable).
    rewrite Heq. cbn [mbind option_bind].
    destruct wr; cbn [negb file_after readable writable].
    + exists (mkLogFile true true (write_records out)).
      split; [reflexivity|]. unfold compact_file.
      rewrite (second_pass out maxLines Hstable Hnd Hlen).
      destruct out; reflexivity.
    + apply Hsame. unfold compact_file, CompressAndTrimLogFile.
      cbn [readable writable content negb]. rewrite Hll.
      cbn [mbind option_bind]. rewrite (match_nonempty lines) by exact Hne.
      rewrite Heq. reflexivity.
Qed.

Lemma compaction_idempotent_witness :
  exists f1,
    compact_file
      (mkLogFile true true
         (lit "[2024-01-01 00:00:00] [INFO] Started" ++ [NEWLINE] ++
          lit "[2024-01-02 00:00:00] [INFO] Started" ++ [NEWLINE] ++
          lit "[2024-01-03 00:00:00] [net] [ERROR] Down (repeated 3 times)"
          ++ [NEWLINE])) MAX_LOG_LINES = Some f1 /\
    compact_file f1 MAX_LOG_LINES = Some f1.
Proof.
  apply compaction_idempotent. cbn [content].
  exists [lit "[2024-01-01 00:00:00] [INFO] Started";
          lit "[2024-01-02 00:00:00] [INFO] Started";
          lit "[2024-01-03 00:00:00] [net] [ERROR] Down (repeated 3 times)"].
  split; [vm_compute; reflexivity|].
  repeat (constructor; [vm_compute; reflexivity|]). constructor.
Defined.

(** C5 as it is written fails: the first line below carries two repeat
    suffixes; the first pass strips one and keeps two records, the second
    pass strips the other and merges them. *)
Lemma compaction_idempotent_counterexample :
  ~ (forall (f : LogFile) (maxLines : nat) (f1 f2 : LogFile),
       compact_file f maxLines = Some f1 ->
       compact_file f1 maxLines = Some f2 ->
       content f2 = content f1).
Proof.
  intros H.
  specialize (H (mkLogFile true true
                   (lit "a (repeated 2 times) (repeated 1 times)"
                    ++ [NEWLINE] ++ lit "a" ++ [NEWLINE]))
                MAX_LOG_LINES
                (mkLogFile true true
                   (lit "a (repeated 2 times)" ++ [NEWLINE] ++ lit "a"
                    ++ [NEWLINE]))
                (mkLogFile true true
                   (lit "a (repeated 3 times)" ++ [NEWLINE]))).
  assert (H1 : compact_file
                 (mkLogFile true true
                    (lit "a (repeated 2 times) (repeated 1 times)"
                     ++ [NEWLINE] ++ lit "a" ++ [NEWLINE])) MAX_LOG_LINES
               = Some (mkLogFile true true
                         (lit "a (repeated 2 times)" ++ [NEWLINE] ++ lit "a"
                          ++ [NEWLINE])))
    by (vm_compute; reflexivity).
  assert (H2 : compact_file
                 (mkLogFile true true
                    (lit "a (repeated 2 times)" ++ [NEWLINE] ++ lit "a"
                     ++ [NEWLINE])) MAX_LOG_LINES
               = Some (mkLogFile true true
                         (lit "a (repeated 3 times)" ++ [NEWLINE])))
    by (vm_compute; reflexivity).
  specialize (H H1 H2). vm_compute in H. discriminate H.
Qed.

(** The off-by-one of [IsTimestampStart] (C7) breaks idempotence too: a
    line that ends with a year prefix is kept whole by the first pass and
    split by the second once a suffix follows the prefix. *)
Lemma year_prefix_breaks_idempotence :
  compact_file
    (mkLogFile true true
       (lit "x[2024-" ++ [NEWLINE] ++ lit "x[2024-" ++ [NEWLINE])) MAX_LOG_LINES
  = Some (mkLogFile true true (lit "x[2024- (repeated 2 times)" ++ [NEWLINE]))
  /\
  compact_file
    (mkLogFile true true (lit "x[2024- (repeated 2 times)" ++ [NEWLINE])) MAX_LOG_LINES
  = Some (mkLogFile true true
            (lit "x" ++ [NEWLINE] ++ lit "[2024- (repeated 2 times)"
             ++ [NEWLINE])).
Proof. split; vm_compute; reflexivity. Qed.

(** * Further properties of the code *)

(** ** TryParseRepeatSuffix and StripRepeatSuffix *)

(** What [rfind_at] returns is the last position where [pat] occurs. *)
Lemma rfind_at_Some (pat s : str) (i j : nat) :
  rfind_at pat s i = Some j ->
  exists k, j = i + k /\ k <= length s /\
            starts_with pat (drop k s) = true.
Proof.
  revert i j. induction s as [|c s IH]; intros i j H.
  - simpl in H. destruct (starts_with pat []) eqn:E; [|discriminate].
    injection H as <-. exists 0. split_and!; [lia|simpl; lia|exact E].
  - cbn [rfind_at] in H.
    destruct (rfind_at pat s (S i)) as [j'|] eqn:Hr.
    + injection H as <-. destruct (IH _ _ Hr) as (k & -> & Hk & Hp).
      exists (S k). split_and!; [lia|simpl; lia|exact Hp].
    + destruct (starts_with pat (c :: s)) eqn:E; [|discriminate].
      injection H as <-. exists 0. split_and!; [lia|simpl; lia|exact E].
Qed.

Lemma parse_digits_Some_digits (ds : str) (v r : Z) :
  parse_digits ds v = Some r -> Forall (fun c => isdigit c = true) ds.
Proof.
  revert v. induction ds as [|c ds IH]; intros v H; [constructor|].
  simpl in H. destruct (isdigit c) eqn:E; [|discriminate].
  constructor; [exact E|exact (IH _ H)].
Qed.

Lemma parse_digits_None (ds : str) (v : Z) :
  forallb isdigit ds = false -> parse_digits ds v = None.
Proof.
  revert v. induction ds as [|c ds IH]; intros v H; [discriminate|].
  simpl in *. destruct (isdigit c); [apply IH, H|reflexivity].
Qed.

Lemma decimal_from_congr (ds : str) (a b : Z) :
  (a mod SIZE_MOD = b mod SIZE_MOD)%Z ->
  (decimal_from a ds mod SIZE_MOD = decimal_from b ds mod SIZE_MOD)%Z.
Proof.
  revert a b. induction ds as [|c ds IH]; intros a b H; [exact H|].
  unfold decimal_from. cbn [foldl]. apply IH.
  rewrite <- (Z.add_mod_idemp_l (a * 10)), <- (Z.add_mod_idemp_l (b * 10))
    by (pose proof SIZE_MOD_pos; lia).
  rewrite <- (Z.mul_mod_idemp_l a), <- (Z.mul_mod_idemp_l b)
    by (pose proof SIZE_MOD_pos; lia).
  rewrite H. reflexivity.
Qed.

(** The digit loop computes the decimal value modulo [2^64]. *)
Lemma parse_digits_value (ds : str) (v : Z) :
  Forall (fun c => isdigit c = true) ds -> (0 <= v < SIZE_MOD)%Z ->
  parse_digits ds v = Some (decimal_from v ds mod SIZE_MOD)%Z.
Proof.
  intros H. revert v. induction H as [|c ds Hc _ IH]; intros v Hv.
  - simpl. rewrite Z.mod_small by exact Hv. reflexivity.
  - simpl. rewrite Hc. rewrite IH by (apply Z.mod_pos_bound, SIZE_MOD_pos).
    f_equal. unfold decimal_from at 2. cbn [foldl].
    apply decimal_from_congr. apply Z.mod_mod. pose proof SIZE_MOD_pos. lia.
Qed.

(** Where the two searches land on a line that ends with the prefix, a
    number field without parenthesis, and the suffix. *)
Lemma repeat_suffix_positions (base ds : str) :
  lacks "("%char ds = true ->
  string_rfind (base ++ REPEAT_PREFIX ++ ds ++ REPEAT_SUFFIX) REPEAT_PREFIX
  = Some (length base) /\
  string_rfind (base ++ REPEAT_PREFIX ++ ds ++ REPEAT_SUFFIX) REPEAT_SUFFIX
  = Some (length base + 11 + length ds).
Proof.
  intros Hds. split.
  - unfold string_rfind. apply rfind_at_app_tail. simpl (0 + _).
    change (REPEAT_PREFIX ++ ds ++ REPEAT_SUFFIX)
      with (" "%char :: lit "(repeated " ++ ds ++ REPEAT_SUFFIX).
    cbn [rfind_at]. rewrite rfind_at_prefix_none.
    + change (" "%char :: lit "(repeated " ++ ds ++ REPEAT_SUFFIX)
        with (REPEAT_PREFIX ++ ds ++ REPEAT_SUFFIX).
      rewrite starts_with_app. reflexivity.
    + change (drop 1 (lit "(repeated " ++ ds ++ REPEAT_SUFFIX))
        with (lit "repeated " ++ ds ++ REPEAT_SUFFIX).
      rewrite !lacks_app, Hds. reflexivity.
  - unfold string_rfind. rewrite !app_assoc. apply rfind_at_app_tail.
    rewrite rfind_at_self by discriminate. f_equal.
    rewrite !length_app. change (length REPEAT_PREFIX) with 11. lia.
Qed.

(** Parsing such a line comes down to reading its number field. *)
Lemma TryParseRepeatSuffix_field (base ds : str) :
  lacks "("%char ds = true ->
  TryParseRepeatSuffix (base ++ REPEAT_PREFIX ++ ds ++ REPEAT_SUFFIX)
  = match ds with
    | [] => None
    | _ => match parse_digits ds 0 with
           | None => None
           | Some value =>
               if (value =? 0)%Z then None else Some (value, length base)
           end
    end.
Proof.
  intros Hds. destruct (repeat_suffix_positions base ds Hds) as [Hpos Hend].
  unfold TryParseRepeatSuffix. rewrite Hpos, Hend.
  change (length REPEAT_PREFIX) with 11. change (length REPEAT_SUFFIX) with 7.
  assert (Hsize : length (base ++ REPEAT_PREFIX ++ ds ++ REPEAT_SUFFIX)
                  = length base + 11 + length ds + 7).
  { rewrite !length_app. change (length REPEAT_PREFIX) with 11.
    change (length REPEAT_SUFFIX) with 7. lia. }
  rewrite Hsize. rewrite Nat.eqb_refl. cbn [negb].
  destruct ds as [|d ds'] eqn:Eds.
  - simpl length. rewrite Nat.add_0_r.
    destruct (length base + 11 + 7 <? 11 + 7 + 1); [reflexivity|].
    rewrite Nat.leb_refl. reflexivity.
  - rewrite <- Eds in *.
    assert (Hlen : 0 < length ds) by (subst ds; simpl; lia).
    settle_cmp (length base + 11 + length ds + 7 <? 11 + 7 + 1).
    settle_cmp (length base + 11 + length ds <=? length base + 11).
    replace (take (length base + 11 + length ds - (length base + 11))
               (drop (length base + 11)
                  (base ++ REPEAT_PREFIX ++ ds ++ REPEAT_SUFFIX)))
      with ds; [subst ds; reflexivity|].
    rewrite (app_assoc base). rewrite drop_app_length'
      by (rewrite length_app; change (length REPEAT_PREFIX) with 11; lia).
    rewrite take_app_length' by lia. reflexivity.
Qed.

(** X1. When [TryParseRepeatSuffix] succeeds on [s] with count [c] and
    position [pos], the line really is its first [pos] characters followed
    by [" (repeated "], a non-empty run of digits and [" times)"]; [c] is
    the decimal value of the digits modulo [2^64], it is not zero, and
    [StripRepeatSuffix] returns exactly the first [pos] characters. *)
Theorem TryParseRepeatSuffix_sound (s : str) (c : Z) (pos : nat) :
  TryParseRepeatSuffix s = Some (c, pos) ->
  exists ds,
    s = take pos s ++ lit " (repeated " ++ ds ++ lit " times)" /\
    length (take pos s) = pos /\
    ds <> [] /\ Forall (fun d => isdigit d = true) ds /\
    c = (decimal_value ds mod SIZE_MOD)%Z /\ (1 <= c < SIZE_MOD)%Z /\
    StripRepeatSuffix s = take pos s.
Proof.
  intros H. pose proof (TryParseRepeatSuffix_range _ _ _ H) as Hrange.
  assert (Hstrip : StripRepeatSuffix s = take pos s)
    by (unfold StripRepeatSuffix; rewrite H; reflexivity).
  unfold TryParseRepeatSuffix in H.
  destruct (length s <? _); [discriminate|].
  destruct (string_rfind s REPEAT_PREFIX) as [p|] eqn:Hp; [|discriminate].
  destruct (string_rfind s REPEAT_SUFFIX) as [e|] eqn:He; [|discriminate].
  change (length REPEAT_PREFIX) with 11 in H.
  change (length REPEAT_SUFFIX) with 7 in H.
  destruct (e + 7 =? length s) eqn:Hend; [|discriminate].
  apply Nat.eqb_eq in Hend. cbn [negb] in H.
  destruct (e <=? p + 11) eqn:Hgap; [discriminate|].
  apply Nat.leb_gt in Hgap.
  destruct (parse_digits (take (e - (p + 11)) (drop (p + 11) s)) 0)
    as [value|] eqn:Hparse; [|discriminate].
  destruct (value =? 0)%Z; [discriminate|]. injection H as <- <-.
  apply rfind_at_Some in Hp as (kp & Hkp & _ & Hpre). simpl in Hkp. subst kp.
  apply rfind_at_Some in He as (ke & Hke & _ & Hsuf). simpl in Hke. subst ke.
  apply starts_with_inv in Hpre as [t Ht].
  apply starts_with_inv in Hsuf as [t' Ht'].
  assert (Ht'nil : t' = []).
  { apply (f_equal length) in Ht'. rewrite length_drop, length_app in Ht'.
    change (length REPEAT_SUFFIX) with 7 in Ht'.
    destruct t'; [reflexivity|simpl in Ht'; lia]. }
  subst t'. rewrite app_nil_r in Ht'.
  assert (Hdrop : drop (p + 11) s = t).
  { rewrite <- drop_drop, Ht. reflexivity. }
  assert (Htail : drop (e - (p + 11)) t = REPEAT_SUFFIX).
  { rewrite <- Hdrop, drop_drop, <- Ht'. f_equal. lia. }
  set (ds := take (e - (p + 11)) (drop (p + 11) s)) in *.
  exists ds. split_and!.
  - rewrite <- (take_drop p s) at 1. rewrite Ht. do 2 f_equal.
    rewrite <- (take_drop (e - (p + 11)) t), Htail.
    unfold ds. rewrite Hdrop. reflexivity.
  - apply length_take_le.
    apply (f_equal length) in Ht. rewrite length_drop in Ht.
    rewrite length_app in Ht. lia.
  - intros Hnil. apply (f_equal length) in Hnil. unfold ds in Hnil.
    rewrite length_take, length_drop in Hnil. simpl in Hnil. lia.
  - exact (parse_digits_Some_digits _ _ _ Hparse).
  - pose proof (parse_digits_Some_digits _ _ _ Hparse) as Hdig.
    rewrite (parse_digits_value ds 0 Hdig) in Hparse
      by (pose proof SIZE_MOD_pos; lia).
    injection Hparse as <-. reflexivity.
  - lia.
  - lia.
  - exact Hstrip.
Qed.

Lemma TryParseRepeatSuffix_sound_witness :
  exists ds,
    lit "job done (repeated 12 times)"
    = take 8 (lit "job done (repeated 12 times)")
        ++ lit " (repeated " ++ ds ++ lit " times)" /\
    ds <> [].
Proof.
  destruct (TryParseRepeatSuffix_sound (lit "job done (repeated 12 times)")
              12 8 eq_refl) as (ds & H1 & _ & H2 & _).
  exists ds. split; assumption.
Defined.

(** X2. A line that ends with [" (repeated "], a non-empty run of digits
    and [" times)"] is parsed whatever precedes the suffix: the count is the
    decimal value of the digits modulo [2^64] (leading zeros are accepted,
    longer numbers wrap), the suffix starts right after what precedes it,
    and the line is rejected exactly when that count is zero. *)
Theorem TryParseRepeatSuffix_decimal (base ds : str) :
  ds <> [] -> Forall (fun d => isdigit d = true) ds ->
  TryParseRepeatSuffix (base ++ lit " (repeated " ++ ds ++ lit " times)")
  = if (decimal_value ds mod SIZE_MOD =? 0)%Z then None
    else Some ((decimal_value ds mod SIZE_MOD)%Z, length base).
Proof.
  intros Hne Hdig.
  change (lit " (repeated ") with REPEAT_PREFIX.
  change (lit " times)") with REPEAT_SUFFIX.
  rewrite TryParseRepeatSuffix_field by (apply digits_lack; [reflexivity|exact Hdig]).
  destruct ds as [|d ds'] eqn:Eds; [congruence|]. rewrite <- Eds in *.
  rewrite (parse_digits_value ds 0 Hdig) by (pose proof SIZE_MOD_pos; lia).
  reflexivity.
Qed.

Lemma TryParseRepeatSuffix_decimal_witness :
  TryParseRepeatSuffix (lit "x" ++ lit " (repeated " ++ lit "007" ++ lit " times)")
  = Some (7%Z, 1).
Proof.
  rewrite (TryParseRepeatSuffix_decimal (lit "x") (lit "007"));
    [reflexivity|discriminate|repeat constructor].
Defined.

(** X3. A line that ends with [" (repeated "], a number field and
    [" times)"] is not taken for a repeat suffix when the field is empty
    or holds a character that is not a digit (the field holding no opening
    parenthesis): the parser fails and [StripRepeatSuffix] returns the
    line unchanged. *)
Theorem TryParseRepeatSuffix_rejects_non_number (base ds : str) :
  lacks "("%char ds = true -> forallb isdigit ds = false \/ ds = [] ->
  TryParseRepeatSuffix (base ++ lit " (repeated " ++ ds ++ lit " times)")
  = None /\
  StripRepeatSuffix (base ++ lit " (repeated " ++ ds ++ lit " times)")
  = base ++ lit " (repeated " ++ ds ++ lit " times)".
Proof.
  intros Hds Hbad.
  assert (H : TryParseRepeatSuffix
                (base ++ lit " (repeated " ++ ds ++ lit " times)") = None).
  { change (lit " (repeated ") with REPEAT_PREFIX.
    change (lit " times)") with REPEAT_SUFFIX.
    rewrite TryParseRepeatSuffix_field by exact Hds.
    destruct Hbad as [Hbad| ->]; [|reflexivity].
    rewrite (parse_digits_None ds 0 Hbad). destruct ds; reflexivity. }
  split; [exact H|]. unfold StripRepeatSuffix. rewrite H. reflexivity.
Qed.

Lemma TryParseRepeatSuffix_rejects_non_number_witness :
  TryParseRepeatSuffix (lit "x" ++ lit " (repeated " ++ lit "-3" ++ lit " times)")
  = None.
Proof.
  apply (TryParseRepeatSuffix_rejects_non_number (lit "x") (lit "-3"));
    [reflexivity|left; reflexivity].
Defined.

(** ** ExtractKey *)

Lemma drop_after_boundary (line : str) (p : nat) :
  starts_with BOUNDARY (drop p line) = true ->
  exists rest, drop (p + 2) line = "["%char :: rest /\
               length line = p + 3 + length rest.
Proof.
  intros H. pose proof (boundary_room _ _ H) as Hroom.
  apply starts_with_inv in H as [t Ht]. exists t. split.
  - rewrite <- drop_drop, Ht. reflexivity.
  - apply (f_equal length) in Ht. rewrite length_drop, length_app in Ht.
    change (length BOUNDARY) with 3 in Ht. lia.
Qed.

(** X4. If the line holds the boundary ["] ["] anywhere, [ExtractKey] does
    not return the whole line: the key starts with an opening bracket and
    is at least two characters shorter than the line (the fallback of line
    126 is never taken). *)
Theorem ExtractKey_starts_with_bracket (line : str) (k : nat) :
  boundary_at line k ->
  exists rest, ExtractKey line = Some ("["%char :: rest) /\
               length rest + 3 <= length line.
Proof.
  intros Hk. rewrite ExtractKey_offset. unfold key_of, key_offset.
  destruct (string_find line BOUNDARY 0) as [first|] eqn:E1.
  - pose proof E1 as H1. apply string_find_Some in H1 as (_ & _ & H1 & _).
    destruct (string_find line BOUNDARY (first + 1)) as [second|] eqn:E2.
    + apply string_find_Some in E2 as (_ & _ & H2 & _).
      destruct (drop_after_boundary _ _ H2) as (rest & -> & Hlen).
      exists rest. split; [reflexivity|lia].
    + destruct (drop_after_boundary _ _ H1) as (rest & -> & Hlen).
      exists rest. split; [reflexivity|lia].
  - apply no_boundary_find in E1. exfalso. apply (E1 k); [lia|exact Hk].
Qed.

Lemma ExtractKey_starts_with_bracket_witness :
  exists rest,
    ExtractKey (lit "[2024-01-01 00:00:00] [net] [INFO] up")
    = Some ("["%char :: rest).
Proof.
  destruct (ExtractKey_starts_with_bracket
              (lit "[2024-01-01 00:00:00] [net] [INFO] up") 20 eq_refl)
    as (rest & H & _).
  exists rest. exact H.
Defined.

(** ** SplitConcatenatedLines *)

(** X5. The segments the splitter appends are never empty, and each of
    them is final: splitting a segment again returns that segment alone. *)
Theorem SplitConcatenatedLines_segments_final (raw : str) (out : list str) :
  exists segs,
    SplitConcatenatedLines raw out = Some (out ++ segs) /\
    Forall (fun seg => seg <> [] /\
                       SplitConcatenatedLines seg [] = Some [seg]) segs.
Proof.
  destruct (SplitConcatenatedLines_spec raw out) as (segs & Heq & _ & Hall & _).
  exists segs. split; [exact Heq|].
  eapply Forall_impl; [exact Hall|]. intros seg [Hne Hin].
  split; [exact Hne|]. apply SplitConcatenatedLines_whole; assumption.
Qed.

Lemma year_prefix_at_chars (s : str) (i : nat) :
  year_prefix_at s i = true ->
  i + 5 < length s /\ char_at s i = "["%char /\
  isdigit (char_at s (i + 1)) = true /\ isdigit (char_at s (i + 2)) = true /\
  isdigit (char_at s (i + 3)) = true /\ isdigit (char_at s (i + 4)) = true /\
  char_at s (i + 5) = "-"%char.
Proof.
  unfold year_prefix_at, year_prefix. intros H.
  apply andb_true_iff in H as [Hlen H]. apply Nat.ltb_lt in Hlen.
  repeat (apply andb_true_iff in H as [H ?]).
  repeat match goal with
         | E : Ascii.eqb _ _ = true |- _ => apply Ascii.eqb_eq in E
         end.
  split_and!; assumption.
Qed.

Lemma IsTimestampStart_year_prefix (s : str) (i : nat) :
  IsTimestampStart s i = true -> i + 6 < length s /\ year_prefix_at s i = true.
Proof.
  rewrite IsTimestampStart_eq. intros H.
  apply andb_true_iff in H as [H1 H2]. apply Nat.ltb_lt in H1. auto.
Qed.

(** Two timestamp starts are at least six positions apart. *)
Lemma timestamp_starts_apart (raw : str) (a b : nat) :
  IsTimestampStart raw a = true -> IsTimestampStart raw b = true ->
  a < b -> a + 6 <= b.
Proof.
  intros Ha Hb Hlt.
  apply IsTimestampStart_year_prefix in Ha as [_ Ha].
  apply IsTimestampStart_year_prefix in Hb as [_ Hb].
  apply year_prefix_at_chars in Ha as (_ & _ & H1 & H2 & H3 & H4 & H5).
  apply year_prefix_at_chars in Hb as (_ & Hb & _).
  destruct (decide (a + 6 <= b)) as [?|Hn]; [assumption|exfalso].
  assert (Hcase : b = a + 1 \/ b = a + 2 \/ b = a + 3 \/ b = a + 4 \/
                  b = a + 5) by lia.
  destruct Hcase as [->|[->|[->|[->| ->]]]]; rewrite Hb in *; discriminate.
Qed.

Lemma year_prefix_at_embed (seg raw : str) (off j : nat) :
  (forall k, k < length seg -> seg !! k = raw !! (off + k)) ->
  j + 5 < length seg ->
  year_prefix_at raw (off + j) = true -> year_prefix_at seg j = true.
Proof.
  intros H Hj. unfold year_prefix_at. intros Hs.
  apply andb_true_iff in Hs as [_ Hs].
  rewrite !(char_at_embed seg raw off) by (exact H || lia).
  replace (off + j + 1) with (off + (j + 1)) in Hs by lia.
  replace (off + j + 2) with (off + (j + 2)) in Hs by lia.
  replace (off + j + 3) with (off + (j + 3)) in Hs by lia.
  replace (off + j + 4) with (off + (j + 4)) in Hs by lia.
  replace (off + j + 5) with (off + (j + 5)) in Hs by lia.
  rewrite Hs. settle_cmp (j + 5 <? length seg). reflexivity.
Qed.

(** The loop again, for the heads of the segments: every segment flushed
    after the first one starts with a year prefix, and so does the first
    one if the loop was entered at a timestamp start. *)
Lemma split_loop_heads (raw : str) (n : nat) :
  forall i start out,
    start < i ->
    exists start' segs,
      split_loop raw n i start out = Some (start', out ++ segs) /\
      (IsTimestampStart raw start = true ->
       Forall (fun seg => year_prefix_at seg 0 = true) segs) /\
      Forall (fun seg => year_prefix_at seg 0 = true) (tail segs) /\
      (segs = [] -> start' = start) /\
      (segs <> [] -> IsTimestampStart raw start' = true).
Proof.
  induction n as [|n IH]; intros i start out Hlt.
  - exists start, []. simpl. rewrite app_nil_r.
    split_and!; [reflexivity|constructor|constructor|reflexivity|congruence].
  - simpl. destruct (IsTimestampStart raw i) eqn:Hi.
    + destruct (IsTimestampStart_year_prefix _ _ Hi) as [Hin _].
      settle_cmp (start <? i). unfold substr_n.
      settle_cmp (start <=? length raw). simpl.
      destruct (IH (S i) i (out ++ [take (i - start) (drop start raw)]))
        as (start' & segs & Heq & Hfirst & Htail & Hnil & Hcons); [lia|].
      exists start', (take (i - start) (drop start raw) :: segs).
      split_and!.
      * rewrite Heq, <- app_assoc. reflexivity.
      * intros Hstart. constructor; [|exact (Hfirst Hi)].
        pose proof (timestamp_starts_apart _ _ _ Hstart Hi Hlt) as Hgap.
        apply (year_prefix_at_embed _ raw start);
          [apply embed_take_drop|rewrite length_take, length_drop; lia|].
        rewrite Nat.add_0_r.
        exact (proj2 (IsTimestampStart_year_prefix _ _ Hstart)).
      * exact (Hfirst Hi).
      * discriminate.
      * intros _. destruct segs as [|seg segs'].
        -- rewrite Hnil by reflexivity. exact Hi.
        -- apply Hcons. discriminate.
    + destruct (IH (S i) start out)
        as (start' & segs & Heq & Hfirst & Htail & Hnil & Hcons); [lia|].
      exists start', segs. split_and!; assumption.
Qed.

(** X6. Every segment after the first one starts with a year prefix: an
    opening bracket, four digits and a dash. *)
Theorem SplitConcatenatedLines_later_segments_start (raw : str)
    (out : list str) :
  exists segs,
    SplitConcatenatedLines raw out = Some (out ++ segs) /\
    Forall (fun seg => year_prefix_at seg 0 = true) (tail segs).
Proof.
  unfold SplitConcatenatedLines.
  destruct (split_loop_heads raw (length raw - 1) 1 0 out)
    as (start' & segs & Heq & _ & Htail & Hnil & Hcons); [lia|].
  rewrite Heq. simpl. destruct (start' <? length raw) eqn:Hs.
  - apply Nat.ltb_lt in Hs. unfold substr.
    settle_cmp (start' <=? length raw). simpl.
    exists (segs ++ [drop start' raw]). split; [rewrite app_assoc; reflexivity|].
    destruct segs as [|seg segs']; [constructor|].
    simpl. apply Forall_app. split; [exact Htail|].
    constructor; [|constructor].
    destruct (IsTimestampStart_year_prefix raw start' (Hcons ltac:(discriminate)))
      as [Hroom Hyp].
    apply (year_prefix_at_embed _ raw start');
      [apply embed_drop|rewrite length_drop; lia|].
    rewrite Nat.add_0_r. exact Hyp.
  - exists segs. split; [reflexivity|exact Htail].
Qed.

Lemma embed_middle (pre cur post : str) :
  forall k, k < length cur ->
            cur !! k = (pre ++ cur ++ post) !! (length pre + k).
Proof.
  intros k Hk. rewrite lookup_app_r by lia.
  replace (length pre + k - length pre) with k by lia.
  rewrite lookup_app_l by exact Hk. reflexivity.
Qed.

Lemma split_loop_skip (raw : str) (n m : nat) :
  forall i start out,
    (forall j, i <= j -> j < i + n -> IsTimestampStart raw j = false) ->
    split_loop raw (n + m) i start out = split_loop raw m (i + n) start out.
Proof.
  induction n as [|n IH]; intros i start out Hclear.
  - simpl. rewrite Nat.add_0_r. reflexivity.
  - simpl. rewrite (Hclear i) by lia. rewrite IH by (intros; apply Hclear; lia).
    f_equal. lia.
Qed.

(** Inside a piece that holds no inner timestamp start, no position
    becomes one in the whole line, provided what follows the piece is
    nothing, or starts with a bracket while the piece does not end with a
    year prefix. *)
Lemma inner_positions_clear (pre cur post : str) (j : nat) :
  no_inner_start cur ->
  post = [] \/
  (dangling_year_prefix cur = false /\ exists t, post = "["%char :: t) ->
  1 <= j -> j < length cur ->
  IsTimestampStart (pre ++ cur ++ post) (length pre + j) = false.
Proof.
  intros Hcur Hpost Hj Hlt.
  destruct (IsTimestampStart (pre ++ cur ++ post) (length pre + j)) eqn:E;
    [exfalso|reflexivity].
  apply IsTimestampStart_year_prefix in E as [Hroom Hyp].
  rewrite !length_app in Hroom.
  destruct (decide (j + 5 < length cur)) as [Hin|Hout].
  - pose proof (year_prefix_at_embed cur _ (length pre) j
                  (embed_middle pre cur post) Hin Hyp) as Hcy.
    destruct (decide (j + 6 < length cur)) as [H6|H6].
    + specialize (Hcur j Hj). rewrite IsTimestampStart_eq, Hcy in Hcur.
      destruct (j + 6 <? length cur) eqn:E6; [discriminate|].
      apply Nat.ltb_ge in E6. lia.
    + destruct Hpost as [->|[Hdang _]]; [simpl in Hroom; lia|].
      unfold dangling_year_prefix in Hdang.
      replace (length cur - 6) with j in Hdang by lia.
      rewrite Hcy in Hdang.
      destruct (7 <=? length cur) eqn:E7; [discriminate|].
      apply Nat.leb_gt in E7. lia.
  - destruct Hpost as [->|[_ [t ->]]]; [simpl in Hroom; lia|].
    apply year_prefix_at_chars in Hyp as (_ & _ & H1 & H2 & H3 & H4 & H5).
    assert (Hbr : char_at (pre ++ cur ++ "["%char :: t)
                    (length pre + length cur) = "["%char).
    { unfold char_at. rewrite nth_lookup, lookup_app_r by lia.
      replace (length pre + length cur - length pre) with (length cur) by lia.
      rewrite list_lookup_middle by reflexivity. reflexivity. }
    assert (Hcase : length cur = j + 1 \/ length cur = j + 2 \/
                    length cur = j + 3 \/ length cur = j + 4 \/
                    length cur = j + 5) by lia.
    destruct Hcase as [Hc|[Hc|[Hc|[Hc|Hc]]]]; rewrite Hc in Hbr;
      rewrite Nat.add_assoc in Hbr; rewrite Hbr in *; discriminate.
Qed.

(** The loop over a line made of pieces: it flushes every piece but the
    last and stops with [start] at the last one. *)
Lemma split_loop_entries (rest : list str) :
  forall pre cur out,
    cur <> [] -> no_inner_start cur ->
    Forall (fun seg => IsTimestampStart seg 0 = true /\ no_inner_start seg)
           rest ->
    Forall (fun seg => dangling_year_prefix seg = false) (cur :: rest) ->
    exists start' front lastseg,
      cur :: rest = front ++ [lastseg] /\
      split_loop (pre ++ cur ++ concat rest)
        (length cur - 1 + length (concat rest)) (length pre + 1) (length pre)
        out = Some (start', out ++ front) /\
      start' < length (pre ++ cur ++ concat rest) /\
      drop start' (pre ++ cur ++ concat rest) = lastseg.
Proof.
  induction rest as [|s rest IH]; intros pre cur out Hne Hcur Hrest Hdang.
  - exists (length pre), [], cur. simpl concat. rewrite !app_nil_r.
    assert (Hlen : 0 < length cur) by (destruct cur; [congruence|simpl; lia]).
    split_and!.
    + reflexivity.
    + simpl length. rewrite (split_loop_skip _ (length cur - 1) 0).
      * reflexivity.
      * intros j H1 H2.
        replace j with (length pre + (j - length pre)) by lia.
        rewrite <- (app_nil_r cur).
        apply inner_positions_clear; [exact Hcur|left; reflexivity|lia|lia].
    + rewrite length_app. lia.
    + apply drop_app_length.
  - inversion Hrest as [|? ? [Hs0 Hsin] Hrest']; subst.
    inversion Hdang as [|? ? Hdcur Hdang']; subst.
    destruct (IsTimestampStart_year_prefix _ _ Hs0) as [Hsroom Hsyp].
    apply year_prefix_at_chars in Hsyp as (_ & Hsbr & _).
    assert (Hlen : 0 < length cur) by (destruct cur; [congruence|simpl; lia]).
    assert (Es : exists s', s = "["%char :: s').
    { destruct s as [|c0 s']; [simpl in Hsroom; lia|].
      unfold char_at in Hsbr. simpl in Hsbr. subst c0. eauto. }
    destruct Es as [s' Es].
    assert (Hsne : s <> []) by (rewrite Es; discriminate).
    change (concat (s :: rest)) with (s ++ concat rest).
    replace (length cur - 1 + length (s ++ concat rest))
      with ((length cur - 1) + S (length s - 1 + length (concat rest)))
      by (rewrite length_app; lia).
    rewrite split_loop_skip.
    2:{ intros j H1 H2.
        replace j with (length pre + (j - length pre)) by lia.
        apply inner_positions_clear; [exact Hcur| |lia|lia].
        right. split; [exact Hdcur|]. exists (s' ++ concat rest).
        rewrite Es. reflexivity. }
    replace (length pre + 1 + (length cur - 1)) with (length pre + length cur)
      by lia.
    cbn [split_loop].
    assert (Hstart : IsTimestampStart (pre ++ cur ++ s ++ concat rest)
                       (length pre + length cur) = true).
    { rewrite (app_assoc pre cur), <- length_app.
      rewrite <- (Nat.add_0_r (length (pre ++ cur))).
      apply (IsTimestampStart_embed s); [|exact Hs0].
      apply embed_middle. }
    rewrite Hstart.
    settle_cmp (length pre <? length pre + length cur).
    unfold substr_n.
    assert (Hpre : length pre <= length (pre ++ cur ++ s ++ concat rest))
      by (rewrite length_app; lia).
    settle_cmp (length pre <=? length (pre ++ cur ++ s ++ concat rest)).
    cbn [mbind option_bind].
    replace (length pre + length cur - length pre) with (length cur) by lia.
    rewrite drop_app_length, take_app_length.
    destruct (IH (pre ++ cur) s (out ++ [cur]) Hsne Hsin Hrest' Hdang')
      as (start' & front & lastseg & Hsplit & Heq & Hlt & Hdrop).
    rewrite <- !app_assoc in Heq, Hlt, Hdrop.
    rewrite length_app in Heq.
    replace (S (length pre + length cur)) with (length pre + length cur + 1)
      by lia.
    exists start', (cur :: front), lastseg. split_and!.
    + simpl. rewrite Hsplit. reflexivity.
    + rewrite Heq, <- app_assoc. reflexivity.
    + exact Hlt.
    + exact Hdrop.
Qed.

(** X7. Splitting undoes concatenation: a line made of a first piece and of
    further pieces that each start with a timestamp comes back as exactly
    those pieces, provided no piece holds a timestamp start after its first
    character and no piece ends with a year prefix. *)
Theorem SplitConcatenatedLines_of_concat (first : str) (rest : list str) :
  first <> [] -> no_inner_start first ->
  Forall (fun seg => IsTimestampStart seg 0 = true /\ no_inner_start seg)
         rest ->
  Forall (fun seg => dangling_year_prefix seg = false) (first :: rest) ->
  SplitConcatenatedLines (concat (first :: rest)) [] = Some (first :: rest).
Proof.
  intros Hne Hfirst Hrest Hdang.
  destruct (split_loop_entries rest [] first [] Hne Hfirst Hrest Hdang)
    as (start' & front & lastseg & Hsplit & Heq & Hlt & Hdrop).
  cbn [app length Nat.add] in Heq, Hlt, Hdrop.
  unfold SplitConcatenatedLines.
  change (concat (first :: rest)) with (first ++ concat rest).
  assert (Hlen : 0 < length first)
    by (destruct first; [congruence|simpl; lia]).
  replace (length (first ++ concat rest) - 1)
    with (length first - 1 + length (concat rest))
    by (rewrite length_app; lia).
  rewrite Heq. cbn [mbind option_bind].
  settle_cmp (start' <? length (first ++ concat rest)).
  unfold substr. settle_cmp (start' <=? length (first ++ concat rest)).
  cbn [mbind option_bind]. rewrite Hdrop, Hsplit. reflexivity.
Qed.

Lemma no_inner_startb_sound (s : str) :
  no_inner_startb s = true -> no_inner_start s.
Proof.
  unfold no_inner_startb. rewrite forallb_forall. intros H j Hj.
  destruct (decide (j < length s)) as [Hlt|Hge].
  - apply negb_true_iff, H, in_seq. lia.
  - unfold IsTimestampStart. settle_cmp (length s <=? j). reflexivity.
Qed.

Lemma SplitConcatenatedLines_of_concat_witness :
  SplitConcatenatedLines
    (concat [lit "[2024-01-01 00:00:00] [INFO] A";
             lit "[2024-01-02 00:00:00] [INFO] B";
             lit "[2024-01-03 00:00:00] [net] [ERROR] C"]) []
  = Some [lit "[2024-01-01 00:00:00] [INFO] A";
          lit "[2024-01-02 00:00:00] [INFO] B";
          lit "[2024-01-03 00:00:00] [net] [ERROR] C"].
Proof.
  apply SplitConcatenatedLines_of_concat.
  - discriminate.
  - apply no_inner_startb_sound. vm_compute. reflexivity.
  - repeat constructor; try (apply no_inner_startb_sound; vm_compute; reflexivity).
  - repeat constructor.
Defined.

(** ** CompressAndTrimLogFile *)

Lemma trim_drop (maxLines : nat) (l : list (str * Rec)) :
  trim maxLines l = drop (length l - maxLines) l.
Proof.
  unfold trim. destruct (maxLines <? length l) eqn:E; [reflexivity|].
  apply Nat.ltb_ge in E. replace (length l - maxLines) with 0 by lia.
  reflexivity.
Qed.

(** The whole function in terms of its parts, when the file can be read. *)
Lemma CompressAndTrimLogFile_readable (f : LogFile) (maxLines : nat) :
  readable f = true ->
  exists lines out,
    logical_lines (content f) = Some lines /\
    Forall (fun l => l <> [] /\ no_inner_start l /\ lacks NEWLINE l = true)
           lines /\
    compact_records lines maxLines = Some out /\
    CompressAndTrimLogFile f maxLines
    = Some (match lines with
            | [] => Untouched
            | _ => if writable f then Rewritten (write_records out)
                   else Untouched
            end).
Proof.
  intros Hr.
  destruct (logical_lines_spec (content f)) as (lines & Hll & Hprops & _).
  destruct (compact_records_spec lines maxLines) as (st & _ & _ & Heq).
  exists lines, (trim maxLines (stable_sort st.2)).
  split_and!; [exact Hll|exact Hprops|exact Heq|].
  unfold CompressAndTrimLogFile. rewrite Hr. cbn [negb].
  unfold logical_lines in Hll. rewrite Hll. cbn [mbind option_bind].
  destruct lines as [|l lines']; [reflexivity|].
  rewrite Heq. cbn [mbind option_bind].
  destruct (writable f); reflexivity.
Qed.

(** The function always returns, and returns early on a file it cannot open. *)
Lemma compaction_outcome (f : LogFile) (maxLines : nat) :
  exists o,
    CompressAndTrimLogFile f maxLines = Some o /\
    (readable f = false \/ writable f = false -> o = Untouched).
Proof.
  destruct (readable f) eqn:Hr.
  - destruct (CompressAndTrimLogFile_readable f maxLines Hr)
      as (lines & out & _ & _ & _ & Heq).
    rewrite Heq. eexists. split; [reflexivity|].
    intros [H|H]; [discriminate|]. rewrite H. destruct lines; reflexivity.
  - exists Untouched. split; [|reflexivity].
    unfold CompressAndTrimLogFile. rewrite Hr. reflexivity.
Qed.

(** X8. The function never throws, whatever the file holds and whatever
    [maxLines] is, and it returns without rewriting the file whenever the
    file cannot be opened for reading or cannot be opened for writing. *)
Theorem CompressAndTrimLogFile_never_throws (f : LogFile) (maxLines : nat) :
  exists o,
    CompressAndTrimLogFile f maxLines = Some o /\
    (readable f = false \/ writable f = false -> o = Untouched).
Proof. exact (compaction_outcome f maxLines). Qed.

Lemma serialized_lacks_newline (r : Rec) :
  lacks NEWLINE (baseLine r) = true -> (0 <= count r < SIZE_MOD)%Z ->
  lacks NEWLINE (SerializeRecord r) = true.
Proof.
  intros Hb Hc. unfold SerializeRecord.
  destruct (1 <? count r)%Z; [|exact Hb].
  destruct (size_to_string_spec (count r) Hc) as (_ & Hdig & _).
  rewrite !lacks_app, Hb, (digits_lack NEWLINE _ eq_refl Hdig). reflexivity.
Qed.

(** The records a pass keeps hold no newline in their base line, and
    their count is a [std::size_t]. *)
Lemma kept_records_lack_newline (lines : list str) (maxLines : nat)
    (out : list (str * Rec)) :
  Forall (fun l => lacks NEWLINE l = true) lines ->
  compact_records lines maxLines = Some out ->
  Forall (fun kv => lacks NEWLINE (SerializeRecord kv.2) = true) out.
Proof.
  intros Hlines Heq.
  destruct (kept_record_spec lines maxLines) as (out' & Heq' & _ & Hrec).
  assert (out' = out) by congruence. subst out'.
  apply Forall_forall. intros [k r] Hr. simpl.
  destruct (Hrec k r Hr) as (Hc & l & (Hl & _ & _) & Hb).
  apply serialized_lacks_newline.
  - rewrite Hb. apply lacks_StripRepeatSuffix.
    rewrite Forall_forall in Hlines. apply Hlines.
    apply list_elem_of_lookup. eauto.
  - rewrite Hc. apply Z.mod_pos_bound, SIZE_MOD_pos.
Qed.

(** Reading back the bytes of a rewrite. *)
Lemma rewritten_file_reads_back (f : LogFile) (maxLines : nat) (bytes : str) :
  CompressAndTrimLogFile f maxLines = Some (Rewritten bytes) ->
  exists lines out,
    logical_lines (content f) = Some lines /\
    compact_records lines maxLines = Some out /\
    bytes = write_records out /\
    read_lines bytes [] = (fun kv => SerializeRecord kv.2) <$> out /\
    length (read_lines bytes [])
    = Nat.min maxLines (length (remove_dups (line_key <$> lines))) /\
    length (read_lines bytes []) <= maxLines.
Proof.
  intros Hrun.
  assert (Hr : readable f = true).
  { destruct (readable f) eqn:Hr; [reflexivity|].
    unfold CompressAndTrimLogFile in Hrun. rewrite Hr in Hrun.
    discriminate Hrun. }
  destruct (CompressAndTrimLogFile_readable f maxLines Hr)
    as (lines & out & Hll & Hprops & Hout & Heq).
  rewrite Heq in Hrun.
  assert (Hbytes : bytes = write_records out).
  { destruct lines; [discriminate|].
    destruct (writable f); [congruence|discriminate]. }
  assert (Hread : read_lines bytes [] = (fun kv => SerializeRecord kv.2) <$> out).
  { rewrite Hbytes, write_records_lines. apply read_lines_written.
    apply Forall_fmap.
    apply (kept_records_lack_newline lines maxLines); [|exact Hout].
    eapply Forall_impl; [exact Hprops|]. intros l (_ & _ & H). exact H. }
  assert (Hlen : length out
                 = Nat.min maxLines (length (remove_dups (line_key <$> lines)))).
  { destruct (compact_records_spec lines maxLines) as (st & _ & Hinv & Heq').
    assert (out = trim maxLines (stable_sort st.2)) by congruence. subst out.
    rewrite trim_length, (Permutation_length (stable_sort_perm st.2)).
    rewrite (records_length _ _ Hinv). reflexivity. }
  exists lines, out. rewrite Hread, length_fmap.
  split_and!; [exact Hll|exact Hout|exact Hbytes|reflexivity|exact Hlen|lia].
Qed.

(** X9. When the function rewrites the file, the new file reads back as one
    physical line per kept record, in order, each being the record's
    serialization; there are [min maxLines (number of distinct keys)] of
    them, so never more than [maxLines]. *)
Theorem rewritten_file_lines (f : LogFile) (maxLines : nat) (bytes : str) :
  CompressAndTrimLogFile f maxLines = Some (Rewritten bytes) ->
  exists lines out,
    logical_lines (content f) = Some lines /\
    compact_records lines maxLines = Some out /\
    bytes = write_records out /\
    read_lines bytes [] = (fun kv => SerializeRecord kv.2) <$> out /\
    length (read_lines bytes [])
    = Nat.min maxLines (length (remove_dups (line_key <$> lines))) /\
    length (read_lines bytes []) <= maxLines.
Proof. exact (rewritten_file_reads_back f maxLines bytes). Qed.

Lemma rewritten_file_lines_witness :
  length (read_lines (lit "b" ++ [NEWLINE]) []) <= 1.
Proof.
  destruct (rewritten_file_lines
              (mkLogFile true true
                 (lit "a" ++ [NEWLINE] ++ lit "b" ++ [NEWLINE]))
              1 (lit "b" ++ [NEWLINE]) eq_refl)
    as (lines & out & _ & _ & _ & _ & _ & H).
  exact H.
Defined.

(** X10. With [maxLines = 0] a file that can be read and written and holds
    a non-empty line is truncated to nothing. *)
Theorem zero_maxLines_empties_file (f : LogFile) :
  readable f = true -> writable f = true ->
  logical_lines (content f) <> Some [] ->
  CompressAndTrimLogFile f 0 = Some (Rewritten []).
Proof.
  intros Hr Hw Hne.
  destruct (CompressAndTrimLogFile_readable f 0 Hr)
    as (lines & out & Hll & _ & Hout & Heq).
  rewrite Heq, Hw. destruct lines as [|l lines']; [congruence|].
  destruct (compact_records_spec (l :: lines') 0) as (st & _ & _ & Heq').
  assert (Hnil : out = []).
  { assert (length out = 0); [|destruct out; [reflexivity|discriminate]].
    assert (out = trim 0 (stable_sort st.2)) by congruence. subst out.
    rewrite trim_length. reflexivity. }
  rewrite Hnil. reflexivity.
Qed.

Lemma zero_maxLines_empties_file_witness :
  CompressAndTrimLogFile
    (mkLogFile true true (lit "[2024-01-01 00:00:00] [INFO] up" ++ [NEWLINE])) 0
  = Some (Rewritten []).
Proof.
  apply zero_maxLines_empties_file; [reflexivity|reflexivity|].
  vm_compute. discriminate.
Defined.

Lemma record_lastIndex_bound (done : list str)
    (st : gmap str nat * list (str * Rec)) (kv : str * Rec) :
  dedup_inv done st -> kv ∈ st.2 -> lastIndex kv.2 < length done.
Proof.
  intros (_ & I2 & _) Hkv. destruct kv as [k r].
  apply list_elem_of_lookup in Hkv as [idx Hr].
  destruct (I2 _ _ _ Hr) as (_ & l & (Hl & _ & _) & _).
  exact (lookup_lt_Some _ _ _ Hl).
Qed.

(** In a sorted vector without two equal [lastIndex], the record with the
    largest [lastIndex] is the last one. *)
Lemma sorted_max_is_last (sorted : list (str * Rec)) (x : str * Rec) :
  StronglySorted by_recency sorted ->
  NoDup ((fun kv => lastIndex kv.2) <$> sorted) ->
  x ∈ sorted ->
  (forall y, y ∈ sorted -> lastIndex y.2 <= lastIndex x.2) ->
  exists front, sorted = front ++ [x].
Proof.
  intros Hs Hnd Hx Hmax.
  destruct sorted as [|z sorted'] using rev_ind; [inversion Hx|].
  clear IHsorted'. exists sorted'. f_equal. f_equal.
  apply elem_of_app in Hx as [Hx|Hx].
  - exfalso.
    pose proof (StronglySorted_app_1_elem_of _ _ _ x z Hs Hx ltac:(left))
      as Hle.
    unfold by_recency in Hle.
    assert (Hz : lastIndex z.2 <= lastIndex x.2)
      by (apply Hmax, elem_of_app; right; left).
    rewrite fmap_app in Hnd. apply NoDup_app in Hnd as (_ & Hdisj & _).
    apply (Hdisj (lastIndex x.2)).
    + apply list_elem_of_fmap. exists x. auto.
    + replace (lastIndex x.2) with (lastIndex z.2) by lia. left.
  - apply list_elem_of_singleton in Hx. congruence.
Qed.

(** The record of the last line ends the kept records. *)
Lemma last_record_of_pass (lines : list str) (l : str) (maxLines : nat) :
  1 <= maxLines ->
  exists front r,
    compact_records (lines ++ [l]) maxLines
    = Some (front ++ [(line_key l, r)]) /\
    baseLine r = StripRepeatSuffix l /\
    lastIndex r = length lines /\
    count r = (mult_sum (line_key l) (lines ++ [l]) mod SIZE_MOD)%Z.
Proof.
  intros Hmax.
  destruct (compact_records_spec (lines ++ [l]) maxLines)
    as (st & _ & Hinv & Heq).
  pose proof Hinv as (I1 & I2 & I3).
  destruct (I3 l) as [idx Hidx]; [apply elem_of_app; right; left|].
  apply (proj1 (I1 _ _)) in Hidx as [r Hr].
  destruct (I2 _ _ _ Hr) as (Hc & l0 & (Hl0 & Hk0 & Hlast) & Hb).
  assert (Hidx_r : lastIndex r = length lines).
  { pose proof (lookup_lt_Some _ _ _ Hl0) as Hlt.
    rewrite length_app in Hlt. simpl in Hlt.
    destruct (decide (lastIndex r = length lines)) as [?|Hne]; [assumption|].
    exfalso. apply (Hlast (length lines) l); [lia| |reflexivity].
    apply list_lookup_middle. reflexivity. }
  assert (l0 = l).
  { rewrite Hidx_r, list_lookup_middle in Hl0 by reflexivity. congruence. }
  subst l0.
  assert (Hin : (line_key l, r) ∈ stable_sort st.2).
  { rewrite stable_sort_perm. apply list_elem_of_lookup. eauto. }
  destruct (sorted_max_is_last (stable_sort st.2) (line_key l, r))
    as [front Hfront].
  - apply stable_sort_sorted.
  - rewrite stable_sort_perm. exact (records_lastIndex_NoDup _ _ Hinv).
  - exact Hin.
  - intros y Hy. rewrite stable_sort_perm in Hy.
    pose proof (record_lastIndex_bound _ _ y Hinv Hy) as Hb'.
    rewrite length_app in Hb'. simpl in *. lia.
  - rewrite Heq, trim_drop, Hfront.
    rewrite length_app. simpl length.
    rewrite drop_app_le by lia.
    exists (drop (length front + 1 - maxLines) front), r.
    split_and!; [reflexivity|exact Hb|exact Hidx_r|exact Hc].
Qed.

(** X11. The most recent line is never trimmed while [maxLines >= 1]: the
    last record kept is the one of the last logical line; it carries that
    line's suffix-stripped text, its index, and the wrapped sum of the
    multiplicities of its key. *)
Theorem last_line_survives (lines : list str) (l : str) (maxLines : nat) :
  1 <= maxLines ->
  exists front r,
    compact_records (lines ++ [l]) maxLines
    = Some (front ++ [(line_key l, r)]) /\
    baseLine r = StripRepeatSuffix l /\
    lastIndex r = length lines /\
    count r = (mult_sum (line_key l) (lines ++ [l]) mod SIZE_MOD)%Z.
Proof. exact (last_record_of_pass lines l maxLines). Qed.

Lemma last_line_survives_witness :
  exists front r,
    compact_records ([lit "a"; lit "b"] ++ [lit "a"]) 1
    = Some (front ++ [(line_key (lit "a"), r)]) /\
    baseLine r = StripRepeatSuffix (lit "a").
Proof.
  destruct (last_line_survives [lit "a"; lit "b"] (lit "a") 1 ltac:(lia))
    as (front & r & H1 & H2 & _).
  exists front, r. split; assumption.
Defined.

Lemma fresh_records_plain (lines : list str) (i : nat) :
  Forall (fun l => TryParseRepeatSuffix l = None) lines ->
  (fun kv => SerializeRecord kv.2) <$> fresh_records i lines = lines.
Proof.
  intros H. revert i. induction H as [|l lines Hl _ IH]; intros i;
    [reflexivity|].
  cbn [fresh_records]. rewrite fmap_cons, IH. f_equal.
  unfold SerializeRecord, StripRepeatSuffix, line_mult. rewrite Hl.
  reflexivity.
Qed.

(** X12. A file that can be read and written and whose logical lines have
    pairwise distinct keys and no repeat suffix is rewritten as its last
    [maxLines] logical lines, unchanged and in order, one per physical
    line. *)
Theorem distinct_lines_kept_verbatim (f : LogFile) (maxLines : nat)
    (lines : list str) :
  readable f = true -> writable f = true ->
  logical_lines (content f) = Some lines -> lines <> [] ->
  NoDup (line_key <$> lines) ->
  Forall (fun l => TryParseRepeatSuffix l = None) lines ->
  CompressAndTrimLogFile f maxLines
  = Some (Rewritten
            (flat_map (fun l => l ++ [NEWLINE])
               (drop (length lines - maxLines) lines))).
Proof.
  intros Hr Hw Hll Hne Hnd Hplain.
  unfold CompressAndTrimLogFile. rewrite Hr, Hw. cbn [negb].
  unfold logical_lines in Hll. rewrite Hll. cbn [mbind option_bind].
  rewrite (match_nonempty lines) by exact Hne.
  destruct (dedup_loop_fresh lines 0 ∅ [] Hnd) as [m' Hloop];
    [intros l _; apply lookup_empty|].
  unfold compact_records. rewrite Hloop. cbn [mbind option_bind snd app].
  rewrite stable_sort_sorted_id by apply fresh_records_sorted.
  rewrite trim_drop, fresh_records_length, write_records_lines.
  rewrite fmap_drop, (fresh_records_plain lines 0 Hplain). reflexivity.
Qed.

Lemma distinct_lines_kept_verbatim_witness :
  CompressAndTrimLogFile
    (mkLogFile true true
       (lit "[2024-01-01 00:00:00] [INFO] A[2024-01-02 00:00:00] [INFO] B"
        ++ [NEWLINE] ++ lit "[2024-01-03 00:00:00] [INFO] C" ++ [NEWLINE])) 2
  = Some (Rewritten
            (lit "[2024-01-02 00:00:00] [INFO] B" ++ [NEWLINE] ++
             lit "[2024-01-03 00:00:00] [INFO] C" ++ [NEWLINE])).
Proof.
  apply (distinct_lines_kept_verbatim _ 2
           [lit "[2024-01-01 00:00:00] [INFO] A";
            lit "[2024-01-02 00:00:00] [INFO] B";
            lit "[2024-01-03 00:00:00] [INFO] C"]).
  - reflexivity.
  - reflexivity.
  - vm_compute. reflexivity.
  - discriminate.
  - apply (bool_decide_unpack _). vm_compute. reflexivity.
  - repeat (constructor; [vm_compute; reflexivity|]). constructor.
Defined.

(** ** Log *)

Lemma render_line_nonempty (timestamp : str) (level : LogLevel)
    (message messenger : str) :
  render_line timestamp level message messenger <> [].
Proof. unfold render_line. destruct (nonempty messenger); discriminate. Qed.

Lemma Log_unfold (timestamp logPath : str) (level : LogLevel)
    (message messenger : str) (w : World) :
  Log timestamp logPath level message messenger w
  = (let w2 := append_line logPath
                 (render_line timestamp level message messenger)
                 (echo level
                    (colorStr level
                     ++ render_line timestamp level message messenger
                     ++ RESET ++ [NEWLINE]) w) in
     o ← CompressAndTrimLogFile (logfile w2) MAX_LOG_LINES;
     Some {| cout := cout w2; cerr := cerr w2;
             logfile := file_after (logfile w2) o |}).
Proof. reflexivity. Qed.

Lemma echo_logfile (level : LogLevel) (text : str) (w : World) :
  logfile (echo level text w) = logfile w.
Proof. destruct level; reflexivity. Qed.

(** X13. [Log] never throws. If the file cannot be opened for appending,
    the call leaves the file as it was and ends the bytes of [std::cerr]
    with the failure report that names the path; [std::cout] gets the
    echoed line or nothing, according to the level. *)
Theorem Log_unwritable (timestamp logPath : str) (level : LogLevel)
    (message messenger : str) (w : World) :
  exists w',
    Log timestamp logPath level message messenger w = Some w' /\
    (writable (logfile w) = false ->
     logfile w' = logfile w /\
     cout w' = cout (echo level
                       (colorStr level
                        ++ render_line timestamp level message messenger
                        ++ RESET ++ [NEWLINE]) w) /\
     cerr w' = cerr (echo level
                       (colorStr level
                        ++ render_line timestamp level message messenger
                        ++ RESET ++ [NEWLINE]) w)
               ++ RED ++ lit "[ERROR] Failed to open log file '"
               ++ logPath ++ lit "' for writing." ++ RESET ++ [NEWLINE]).
Proof.
  rewrite Log_unfold. cbv zeta.
  set (w1 := echo level _ w).
  destruct (compaction_outcome
              (logfile (append_line logPath
                          (render_line timestamp level message messenger) w1))
              MAX_LOG_LINES) as (o & Ho & Hno).
  rewrite Ho. eexists. split; [reflexivity|].
  intros Hw. cbn [cout cerr logfile].
  assert (Hw1 : writable (logfile w1) = false)
    by (unfold w1; rewrite echo_logfile; exact Hw).
  unfold append_line in *. rewrite Hw1 in *. cbn [cout cerr logfile] in *.
  rewrite (Hno (or_intror Hw1)). cbn [file_after].
  split_and!; [unfold w1; apply echo_logfile|reflexivity|reflexivity].
Qed.

Lemma Log_unwritable_witness :
  exists w',
    Log (lit "2024-01-01 00:00:00") (lit "/var/log/log.txt") info (lit "up") []
      (mkWorld [] [] (mkLogFile true false (lit "old" ++ [NEWLINE])))
    = Some w' /\
    logfile w' = mkLogFile true false (lit "old" ++ [NEWLINE]).
Proof.
  destruct (Log_unwritable (lit "2024-01-01 00:00:00") (lit "/var/log/log.txt")
              info (lit "up") []
              (mkWorld [] [] (mkLogFile true false (lit "old" ++ [NEWLINE]))))
    as (w' & H1 & H2).
  exists w'. split; [exact H1|]. exact (proj1 (H2 eq_refl)).
Defined.

Lemma read_lines_all_empty (s acc : str) :
  Forall (fun l => l = []) (read_lines s acc) ->
  acc = [] /\ Forall (fun c => c = NEWLINE) s.
Proof.
  revert acc. induction s as [|c s IH]; intros acc H; cbn [read_lines] in H.
  - split; [|constructor]. destruct acc; [reflexivity|].
    inversion H; subst. discriminate.
  - destruct (Ascii.eqb c NEWLINE) eqn:E.
    + apply Ascii.eqb_eq in E. inversion H as [|? ? Hacc Hrest]; subst.
      destruct (IH _ Hrest) as [_ Hs]. split; [reflexivity|].
      constructor; [reflexivity|exact Hs].
    + destruct (IH _ H) as [Hacc _]. destruct acc; discriminate Hacc.
Qed.

Lemma read_lines_app (a b acc : str) :
  read_lines (a ++ [NEWLINE] ++ b) acc
  = read_lines (a ++ [NEWLINE]) acc ++ read_lines b [].
Proof.
  revert acc. induction a as [|c a IH]; intros acc; cbn [app read_lines].
  - rewrite Ascii.eqb_refl. reflexivity.
  - destruct (Ascii.eqb c NEWLINE); [|apply IH].
    cbn [app]. f_equal. apply IH.
Qed.

Lemma collect_lines_app (p1 p2 : list str) (acc : list str) :
  collect_lines (p1 ++ p2) acc = collect_lines p1 acc ≫= collect_lines p2.
Proof.
  revert acc. induction p1 as [|l p1 IH]; intros acc; [reflexivity|].
  cbn [app collect_lines]. destruct (nonempty l); [|apply IH].
  destruct (SplitConcatenatedLines l []); [|reflexivity].
  cbn [mbind option_bind]. apply IH.
Qed.

(** The logical lines of a file that ends with a newline (or is empty) and
    to which one clean line is appended. *)
Lemma logical_lines_appended (bytes l : str) (old : list str) :
  bytes = [] \/ (exists c, bytes = c ++ [NEWLINE]) ->
  logical_lines bytes = Some old ->
  l <> [] -> lacks NEWLINE l = true -> no_inner_start l ->
  logical_lines (bytes ++ l ++ [NEWLINE]) = Some (old ++ [l]).
Proof.
  intros Hend Hold Hne Hnl Hin. unfold logical_lines in *.
  assert (Hread : read_lines (bytes ++ l ++ [NEWLINE]) []
                  = read_lines bytes [] ++ [l]).
  { destruct Hend as [->|[c ->]].
    - cbn [app read_lines]. rewrite (read_lines_line l [] []) by exact Hnl.
      reflexivity.
    - rewrite <- app_assoc, read_lines_app.
      rewrite (read_lines_line l [] []) by exact Hnl. reflexivity. }
  rewrite Hread, collect_lines_app, Hold. cbn [mbind option_bind].
  apply collect_lines_whole. constructor; [split; assumption|constructor].
Qed.

Lemma kept_records_nonempty (lines : list str) (maxLines : nat)
    (out : list (str * Rec)) :
  lines <> [] -> 1 <= maxLines ->
  compact_records lines maxLines = Some out -> out <> [].
Proof.
  intros Hne Hmax Heq.
  destruct lines as [|l lines'] using rev_ind; [congruence|].
  destruct (last_record_of_pass lines' l maxLines Hmax)
    as (front & r & Heq' & _).
  assert (out = front ++ [(line_key l, r)]) by congruence. subst out.
  destruct front; discriminate.
Qed.

(** [Log] on a file that can be opened for appending. *)
Lemma Log_writable (timestamp logPath : str) (level : LogLevel)
    (message messenger : str) (w : World) :
  writable (logfile w) = true ->
  Log timestamp logPath level message messenger w
  = (o ← CompressAndTrimLogFile
           (mkLogFile (readable (logfile w)) true
              (content (logfile w)
               ++ render_line timestamp level message messenger ++ [NEWLINE]))
           MAX_LOG_LINES;
     Some {| cout := cout (echo level
                             (colorStr level
                              ++ render_line timestamp level message messenger
                              ++ RESET ++ [NEWLINE]) w);
             cerr := cerr (echo level
                             (colorStr level
                              ++ render_line timestamp level message messenger
                              ++ RESET ++ [NEWLINE]) w);
             logfile :=
               file_after
                 (mkLogFile (readable (logfile w)) true
                    (content (logfile w)
                     ++ render_line timestamp level message messenger
                     ++ [NEWLINE])) o |}).
Proof.
  intros Hw. rewrite Log_unfold. cbv zeta. unfold append_line.
  rewrite echo_logfile, Hw. reflexivity.
Qed.

(** X14. On a file that can be read and written, [Log] returns, and
    afterwards the file holds at least one line and at most
    [MAX_LOG_LINES] (1000) lines, whatever it held before and whatever is
    logged. *)
Theorem Log_bounds_file (timestamp logPath : str) (level : LogLevel)
    (message messenger : str) (w : World) :
  readable (logfile w) = true -> writable (logfile w) = true ->
  exists w',
    Log timestamp logPath level message messenger w = Some w' /\
    1 <= length (read_lines (content (logfile w')) []) /\
    length (read_lines (content (logfile w')) []) <= MAX_LOG_LINES.
Proof.
  intros Hr Hw. rewrite (Log_writable _ _ _ _ _ _ Hw), Hr.
  set (l := render_line timestamp level message messenger).
  set (f2 := mkLogFile true true (content (logfile w) ++ l ++ [NEWLINE])).
  destruct (CompressAndTrimLogFile_readable f2 MAX_LOG_LINES eq_refl)
    as (lines & out & Hll & _ & Hout & Heq).
  assert (Hne : lines <> []).
  { intros ->. apply logical_lines_empty in Hll.
    apply read_lines_all_empty in Hll as [_ Hall].
    cbn [content f2] in Hall. rewrite !Forall_app in Hall.
    destruct Hall as (_ & Hl & _).
    pose proof (render_line_nonempty timestamp level message messenger) as Hn.
    fold l in Hn. unfold l, render_line in Hl.
    destruct (nonempty messenger); inversion Hl; discriminate. }
  assert (Hrun : CompressAndTrimLogFile f2 MAX_LOG_LINES
                 = Some (Rewritten (write_records out))).
  { rewrite Heq, (match_nonempty lines) by exact Hne. reflexivity. }
  rewrite Hrun. cbn [mbind option_bind file_after].
  eexists. split; [reflexivity|]. cbn [logfile content].
  destruct (rewritten_file_reads_back _ _ _ Hrun)
    as (lines' & out' & Hll' & Hout' & _ & Hread & _ & Hle).
  split; [|exact Hle].
  assert (lines' = lines) by congruence. subst lines'.
  assert (out' = out) by congruence. subst out'.
  rewrite Hread, length_fmap.
  pose proof (kept_records_nonempty lines MAX_LOG_LINES out Hne
                ltac:(unfold MAX_LOG_LINES; lia) Hout) as Hout_ne.
  destruct out; [congruence|simpl; lia].
Qed.

Lemma Log_bounds_file_witness :
  exists w',
    Log (lit "2024-01-01 00:00:00") (lit "log.txt") warning (lit "disk") []
      (mkWorld [] [] (mkLogFile true true [])) = Some w' /\
    1 <= length (read_lines (content (logfile w')) []) /\
    length (read_lines (content (logfile w')) []) <= MAX_LOG_LINES.
Proof.
  apply Log_bounds_file; reflexivity.
Defined.

(** X15. On a file that can be read and written and is empty or ends with a
    newline, logging an entry whose rendered line holds no newline, no
    timestamp start after its first character and no repeat suffix makes
    that line the last line of the file: alone, or followed by a repeat
    suffix. *)
Theorem Log_entry_is_last_line (timestamp logPath : str) (level : LogLevel)
    (message messenger : str) (w : World) :
  readable (logfile w) = true -> writable (logfile w) = true ->
  content (logfile w) = [] \/
  (exists c, content (logfile w) = c ++ [NEWLINE]) ->
  lacks NEWLINE (render_line timestamp level message messenger) = true ->
  no_inner_start (render_line timestamp level message messenger) ->
  TryParseRepeatSuffix (render_line timestamp level message messenger)
  = None ->
  exists w' front r,
    Log timestamp logPath level message messenger w = Some w' /\
    read_lines (content (logfile w')) [] = front ++ [SerializeRecord r] /\
    baseLine r = render_line timestamp level message messenger.
Proof.
  intros Hr Hw Hend Hnl Hin Hparse. rewrite (Log_writable _ _ _ _ _ _ Hw), Hr.
  set (l := render_line timestamp level message messenger) in *.
  set (f2 := mkLogFile true true (content (logfile w) ++ l ++ [NEWLINE])).
  destruct (logical_lines_spec (content (logfile w)))
    as (old & Hold & _ & _).
  assert (Hll : logical_lines (content f2) = Some (old ++ [l])).
  { apply logical_lines_appended; try assumption.
    apply render_line_nonempty. }
  destruct (last_record_of_pass old l MAX_LOG_LINES
              ltac:(unfold MAX_LOG_LINES; lia))
    as (front & r & Hout & Hb & _ & _).
  assert (Hrun : CompressAndTrimLogFile f2 MAX_LOG_LINES
                 = Some (Rewritten (write_records (front ++ [(line_key l, r)])))).
  { unfold CompressAndTrimLogFile. cbn [readable writable f2 negb].
    unfold logical_lines in Hll. rewrite Hll.
    cbn [mbind option_bind].
    rewrite (match_nonempty (old ++ [l])) by (destruct old; discriminate).
    rewrite Hout. reflexivity. }
  destruct (rewritten_file_reads_back _ _ _ Hrun)
    as (lines' & out' & Hll' & Hout' & _ & Hread & _).
  assert (lines' = old ++ [l]) by congruence. subst lines'.
  assert (out' = front ++ [(line_key l, r)]) by congruence. subst out'.
  rewrite Hrun. cbn [mbind option_bind file_after logfile content].
  eexists _, ((fun kv => SerializeRecord kv.2) <$> front), r.
  split_and!; [reflexivity| |].
  - cbn [logfile content file_after]. rewrite Hread, fmap_app. reflexivity.
  - rewrite Hb. unfold StripRepeatSuffix. rewrite Hparse. reflexivity.
Qed.

Lemma Log_entry_is_last_line_witness :
  exists w' front r,
    Log (lit "2024-01-02 00:00:00") (lit "log.txt") info (lit "up") (lit "net")
      (mkWorld [] []
         (mkLogFile true true
            (lit "[2024-01-01 00:00:00] [INFO] up" ++ [NEWLINE])))
    = Some w' /\
    read_lines (content (logfile w')) [] = front ++ [SerializeRecord r] /\
    baseLine r
    = render_line (lit "2024-01-02 00:00:00") info (lit "up") (lit "net").
Proof.
  apply Log_entry_is_last_line.
  - reflexivity.
  - reflexivity.
  - right. exists (lit "[2024-01-01 00:00:00] [INFO] up"). reflexivity.
  - reflexivity.
  - apply no_inner_startb_sound. vm_compute. reflexivity.
  - vm_compute. reflexivity.
Defined.

Lemma compact_single (a : str) (maxLines : nat) :
  1 <= maxLines ->
  compact_records [a] maxLines
  = Some [(line_key a, mkRec (StripRepeatSuffix a) (line_mult a) 0)].
Proof.
  intros Hmax. unfold compact_records. cbn [dedup_loop].
  rewrite process_line_total. cbn [fst snd]. rewrite lookup_empty.
  cbn [mbind option_bind snd app length stable_sort foldr insert_by_recency].
  unfold trim. cbn [length]. settle_cmp (maxLines <? 1). reflexivity.
Qed.

Lemma compact_pair_same_key (a b : str) (maxLines : nat) :
  1 <= maxLines -> line_key a = line_key b ->
  compact_records [a; b] maxLines
  = Some [(line_key b,
           mkRec (StripRepeatSuffix b)
             ((line_mult a + line_mult b) mod SIZE_MOD)%Z 1)].
Proof.
  intros Hmax Hk. unfold compact_records. cbn [dedup_loop].
  rewrite process_line_total. cbn [fst snd]. rewrite lookup_empty.
  cbn [mbind option_bind]. rewrite process_line_total. cbn [fst snd].
  rewrite <- Hk, lookup_insert_eq.
  cbn [mbind option_bind snd app length stable_sort foldr insert_by_recency
       alter list_alter bump fst count].
  unfold trim. cbn [length]. settle_cmp (maxLines <? 1). reflexivity.
Qed.

(** The multiplicity read back from the line written for a stable record
    whose count is not zero. *)
Lemma serialized_mult (k : str) (r : Rec) :
  stable_record (k, r) -> (1 <= count r)%Z ->
  line_mult (SerializeRecord r) = count r.
Proof.
  intros (_ & Hst & _ & _ & Hc) Hpos. simpl in *.
  unfold stable_base in Hst. apply andb_true_iff in Hst as [Hst _].
  apply andb_true_iff in Hst as [_ Hparse].
  unfold line_mult, SerializeRecord. destruct (1 <? count r)%Z eqn:Hgt.
  - rewrite (TryParseRepeatSuffix_serialized (baseLine r) (count r)) by lia.
    reflexivity.
  - apply Z.ltb_ge in Hgt.
    destruct (TryParseRepeatSuffix (baseLine r)); [discriminate|]. lia.
Qed.

(** What [clean_entry] gives about the rendered line. *)
Lemma clean_entry_line (timestamp : str) (level : LogLevel)
    (message messenger : str) :
  clean_entry timestamp level message messenger = true ->
  render_line timestamp level message messenger <> [] /\
  lacks NEWLINE (render_line timestamp level message messenger) = true /\
  no_inner_start (render_line timestamp level message messenger) /\
  StripRepeatSuffix (render_line timestamp level message messenger)
  = render_line timestamp level message messenger /\
  line_mult (render_line timestamp level message messenger) = 1%Z /\
  line_key (render_line timestamp level message messenger)
  = dedup_key level message /\
  forall n i, (0 <= n < SIZE_MOD)%Z ->
    stable_record (dedup_key level message,
                   mkRec (render_line timestamp level message messenger) n i).
Proof.
  unfold clean_entry. intros H.
  apply andb_true_iff in H as [H Hst]. apply andb_true_iff in H as [H Hin].
  apply andb_true_iff in H as [Hwd Hnl].
  apply no_inner_startb_sound in Hin.
  pose proof Hst as Hst'. unfold stable_base in Hst'.
  apply andb_true_iff in Hst' as [Hst' _].
  apply andb_true_iff in Hst' as [_ Hparse].
  set (l := render_line timestamp level message messenger) in *.
  assert (Hstrip : StripRepeatSuffix l = l).
  { unfold StripRepeatSuffix. destruct (TryParseRepeatSuffix l);
      [discriminate|reflexivity]. }
  assert (Hkey : key_of l = dedup_key level message)
    by (apply key_of_render_line; exact Hwd).
  split_and!.
  - apply render_line_nonempty.
  - exact Hnl.
  - exact Hin.
  - exact Hstrip.
  - unfold line_mult. destruct (TryParseRepeatSuffix l);
      [discriminate|reflexivity].
  - unfold line_key. rewrite Hstrip. exact Hkey.
  - intros n i Hn. unfold stable_record. cbn [fst snd baseLine count].
    split_and!; [symmetry; exact Hkey|exact Hst|exact Hin|exact Hnl|lia|lia].
Qed.

(** The pass after the first entry is appended to an empty file. *)
Lemma compact_first_entry (l : str) :
  l <> [] -> lacks NEWLINE l = true -> no_inner_start l ->
  StripRepeatSuffix l = l -> line_mult l = 1%Z ->
  CompressAndTrimLogFile (mkLogFile true true ([] ++ l ++ [NEWLINE]))
    MAX_LOG_LINES
  = Some (Rewritten (SerializeRecord (mkRec l 1 0) ++ [NEWLINE])).
Proof.
  intros Hne Hnl Hin Hstrip Hmult.
  unfold CompressAndTrimLogFile. cbn [readable writable content negb app].
  rewrite (read_lines_line l [] []) by exact Hnl.
  cbn [app read_lines].
  rewrite (collect_lines_whole [l] [])
    by (constructor; [split; assumption|constructor]).
  cbn [mbind option_bind app].
  rewrite compact_single by (unfold MAX_LOG_LINES; lia).
  cbn [mbind option_bind]. rewrite Hstrip, Hmult.
  unfold write_records. cbn [flat_map snd]. rewrite app_nil_r. reflexivity.
Qed.

(** The pass after one more entry of the same key is appended to a file
    that holds the line of a stable record. *)
Lemma compact_next_entry (k : str) (r0 : Rec) (l : str) :
  stable_record (k, r0) -> (1 <= count r0)%Z -> (count r0 + 1 < SIZE_MOD)%Z ->
  l <> [] -> lacks NEWLINE l = true -> no_inner_start l ->
  StripRepeatSuffix l = l -> line_mult l = 1%Z -> line_key l = k ->
  CompressAndTrimLogFile
    (mkLogFile true true
       ((SerializeRecord r0 ++ [NEWLINE]) ++ l ++ [NEWLINE])) MAX_LOG_LINES
  = Some (Rewritten (SerializeRecord (mkRec l (count r0 + 1) 0) ++ [NEWLINE])).
Proof.
  intros Hr0 Hpos Hlt Hne Hnl Hin Hstrip Hmult Hkey.
  destruct (serialized_reparse k r0 0 Hr0)
    as (_ & Hkey0 & _ & Hne0 & Hin0 & Hnl0).
  pose proof (serialized_mult k r0 Hr0 Hpos) as Hmult0.
  unfold CompressAndTrimLogFile. cbn [readable writable content negb].
  replace ((SerializeRecord r0 ++ [NEWLINE]) ++ l ++ [NEWLINE])
    with (flat_map (fun x => x ++ [NEWLINE]) [SerializeRecord r0; l])
    by (cbn [flat_map]; rewrite app_nil_r; reflexivity).
  rewrite read_lines_written
    by (constructor; [exact Hnl0|constructor; [exact Hnl|constructor]]).
  rewrite (collect_lines_whole [SerializeRecord r0; l] [])
    by (constructor; [split; assumption|
        constructor; [split; assumption|constructor]]).
  cbn [mbind option_bind app].
  rewrite compact_pair_same_key
    by (unfold MAX_LOG_LINES; lia || congruence).
  cbn [mbind option_bind]. rewrite Hstrip, Hmult, Hmult0.
  rewrite Z.mod_small by lia.
  unfold write_records. cbn [flat_map snd]. rewrite app_nil_r. reflexivity.
Qed.

Lemma last_cons_default {A : Type} (x d : A) (l : list A) :
  List.last (x :: l) d = List.last l x.
Proof.
  revert x d. induction l as [|y l IH]; intros x d; [reflexivity|].
  change (List.last (x :: y :: l) d) with (List.last (y :: l) d).
  rewrite !IH. reflexivity.
Qed.

(** Logging further entries of one level and message onto a file that
    holds the line of that key. *)
Lemma Log_each_collapse (logPath : str) (level : LogLevel) (message : str)
    (entries : list (str * str)) :
  forall (w : World) (l0 : str) (n : Z),
    logfile w
    = mkLogFile true true (SerializeRecord (mkRec l0 n 0) ++ [NEWLINE]) ->
    (forall c, (0 <= c < SIZE_MOD)%Z ->
               stable_record (dedup_key level message, mkRec l0 c 0)) ->
    (1 <= n)%Z -> (n + Z.of_nat (length entries) < SIZE_MOD)%Z ->
    Forall (fun e => clean_entry e.1 level message e.2 = true) entries ->
    exists w',
      Log_each logPath level message entries w = Some w' /\
      logfile w'
      = mkLogFile true true
          (SerializeRecord
             (mkRec (List.last
                       ((fun e => render_line e.1 level message e.2)
                          <$> entries) l0)
                (n + Z.of_nat (length entries)) 0) ++ [NEWLINE]).
Proof.
  induction entries as [|e rest IH]; intros w l0 n Hfile Hst Hn Hlt Hclean.
  - exists w. split; [reflexivity|]. simpl. rewrite Z.add_0_r. exact Hfile.
  - inversion Hclean as [|? ? He Hrest]; subst.
    destruct (clean_entry_line _ _ _ _ He)
      as (Hne & Hnl & Hin & Hstrip & Hmult & Hkey & Hstable).
    cbn [Log_each]. cbn [length] in Hlt.
    rewrite Log_writable by (rewrite Hfile; reflexivity).
    rewrite Hfile. cbn [readable content].
    rewrite (compact_next_entry (dedup_key level message) (mkRec l0 n 0))
      by (assumption || (apply Hst; lia) || (cbn [count]; lia)).
    cbn [mbind option_bind file_after readable writable count].
    match goal with
    | |- context [Log_each _ _ _ rest ?w1] =>
        destruct (IH w1 (render_line e.1 level message e.2) (n + 1)%Z)
          as (w' & Heq & Hfile')
    end.
    + reflexivity.
    + intros c Hc. apply Hstable. exact Hc.
    + lia.
    + lia.
    + exact Hrest.
    + exists w'. split; [exact Heq|]. rewrite Hfile'.
      rewrite fmap_cons, last_cons_default. cbn [length].
      rewrite Nat2Z.inj_succ.
      replace (n + Z.succ (Z.of_nat (length rest)))%Z
        with (n + 1 + Z.of_nat (length rest))%Z by lia.
      reflexivity.
Qed.

(** X16. Starting from an empty file that can be read and written, logging
    one level and message any number of times (fewer than [2^64]), with
    whatever clean timestamps and messengers, leaves a single line: the
    rendering of the last call, followed by [" (repeated N times)"] with
    [N] the number of calls when there was more than one. *)
Theorem repeated_Log_collapses (logPath : str) (level : LogLevel)
    (message : str) (entries : list (str * str)) (e : str * str)
    (w : World) :
  logfile w = mkLogFile true true [] ->
  Forall (fun e => clean_entry e.1 level message e.2 = true)
         (entries ++ [e]) ->
  (Z.of_nat (length (entries ++ [e])) < SIZE_MOD)%Z ->
  exists w',
    Log_each logPath level message (entries ++ [e]) w = Some w' /\
    content (logfile w')
    = SerializeRecord
        (mkRec (render_line e.1 level message e.2)
           (Z.of_nat (length (entries ++ [e]))) 0) ++ [NEWLINE].
Proof.
  intros Hfile Hclean Hlt.
  destruct (entries ++ [e]) as [|e1 rest] eqn:Hall;
    [destruct entries; discriminate|].
  inversion Hclean as [|? ? He1 Hrest]; subst.
  destruct (clean_entry_line _ _ _ _ He1)
    as (Hne & Hnl & Hin & Hstrip & Hmult & Hkey & Hstable).
  cbn [Log_each]. cbn [length] in Hlt.
  rewrite Log_writable by (rewrite Hfile; reflexivity).
  rewrite Hfile. cbn [readable content].
  rewrite compact_first_entry by assumption.
  cbn [mbind option_bind file_after readable writable].
  match goal with
  | |- context [Log_each _ _ _ rest ?w1] =>
      destruct (Log_each_collapse logPath level message rest w1
                  (render_line e1.1 level message e1.2) 1)
        as (w' & Heq & Hfile')
  end.
  - reflexivity.
  - intros c Hc. apply Hstable. exact Hc.
  - lia.
  - lia.
  - exact Hrest.
  - exists w'. split; [exact Heq|]. rewrite Hfile'. cbn [content].
    assert (Hlast : List.last
                      ((fun e0 => render_line e0.1 level message e0.2) <$> rest)
                      (render_line e1.1 level message e1.2)
                    = render_line e.1 level message e.2).
    { rewrite <- (last_cons_default _ []).
      change (List.last
                ((fun e0 => render_line e0.1 level message e0.2)
                   <$> (e1 :: rest)) []
              = render_line e.1 level message e.2).
      rewrite <- Hall, fmap_app. apply last_last. }
    rewrite Hlast. cbn [length]. rewrite Nat2Z.inj_succ.
    replace (Z.succ (Z.of_nat (length rest)))
      with (1 + Z.of_nat (length rest))%Z by lia.
    reflexivity.
Qed.

Lemma repeated_Log_collapses_witness :
  exists w',
    Log_each (lit "log.txt") info (lit "Started")
      ([(lit "2024-01-01 00:00:00", []);
        (lit "2024-01-01 00:00:05", lit "net")]
       ++ [(lit "2024-01-01 00:00:09", [])])
      (mkWorld [] [] (mkLogFile true true [])) = Some w' /\
    content (logfile w')
    = lit "[2024-01-01 00:00:09] [INFO] Started (repeated 3 times)"
      ++ [NEWLINE].
Proof.
  destruct (repeated_Log_collapses (lit "log.txt") info (lit "Started")
              [(lit "2024-01-01 00:00:00", []);
               (lit "2024-01-01 00:00:05", lit "net")]
              (lit "2024-01-01 00:00:09", [])
              (mkWorld [] [] (mkLogFile true true [])) eq_refl)
    as (w' & H1 & H2).
  - repeat (constructor; [vm_compute; reflexivity|]). constructor.
  - vm_compute. reflexivity.
  - exists w'. split; [exact H1|]. rewrite H2. vm_compute. reflexivity.
Defined.

(** ** GetLogPathOnce *)

Lemma path_append_suffix (p q : str) : exists x, path_append p q = x ++ q.
Proof.
  unfold path_append. destruct (last p) as [c|].
  - destruct (Ascii.eqb c "/"); [exists p; reflexivity|].
    exists (p ++ lit "/"). rewrite <- app_assoc. reflexivity.
  - exists []. reflexivity.
Qed.

Lemma path_append_file_name (x : str) :
  path_append (x ++ lit "C6GE") (lit "log.txt")
  = x ++ lit "C6GE" ++ lit "/log.txt".
Proof.
  unfold path_append.
  change (x ++ lit "C6GE") with (x ++ lit "C6G" ++ ["E"%char]).
  rewrite !app_assoc, last_snoc. rewrite <- !app_assoc. reflexivity.
Qed.

(** On a first call the path is a directory followed by ["/log.txt"]. *)
Lemma GetLogPathOnce_first (env : Env) :
  exists dir, GetLogPathOnce env []
              = (dir ++ lit "/log.txt", dir ++ lit "/log.txt").
Proof.
  unfold GetLogPathOnce. cbn [nonempty].
  match goal with
  | |- context [path_append ?b (lit "C6GE")] =>
      destruct (path_append_suffix b (lit "C6GE")) as [x Hx]; rewrite Hx
  end.
  destruct (negb (create_directories_fails env (x ++ lit "C6GE"))).
  - rewrite path_append_file_name. exists (x ++ lit "C6GE").
    rewrite <- app_assoc. reflexivity.
  - exists (exeDir_of env). reflexivity.
Qed.

(** X17. The first call returns a path that ends with ["/log.txt"],
    whatever the environment: the file name is fixed and the path is never
    empty. *)
Theorem GetLogPathOnce_file_name (env : Env) :
  exists dir, (GetLogPathOnce env []).1 = dir ++ lit "/log.txt" /\
              (GetLogPathOnce env []).1 <> [].
Proof.
  destruct (GetLogPathOnce_first env) as [dir Hdir]. exists dir.
  rewrite Hdir. split; [reflexivity|]. cbn [fst].
  destruct dir; discriminate.
Qed.

(** X18. The path is resolved once: after a first call, every later call
    returns the same path and leaves the cache as it is, whatever the
    environment has become. *)
Theorem GetLogPathOnce_cached (env env' : Env) :
  GetLogPathOnce env' (GetLogPathOnce env []).2
  = ((GetLogPathOnce env []).1, (GetLogPathOnce env []).2).
Proof.
  destruct (GetLogPathOnce_first env) as [dir Hdir]. rewrite Hdir.
  cbn [fst snd]. unfold GetLogPathOnce.
  destruct dir; reflexivity.
Qed.

Lemma find_last_of_slash (s : str) (i : nat) :
  match find_last_of_at (lit "/") s i with
  | None => lacks "/"%char s = true
  | Some j =>
      exists k, j = i + k /\ k < length s /\
                drop k s = "/"%char :: drop (S k) s /\
                lacks "/"%char (drop (S k) s) = true
  end.
Proof.
  revert i. induction s as [|c s IH]; intros i; [reflexivity|].
  cbn [find_last_of_at]. specialize (IH (S i)).
  destruct (find_last_of_at (lit "/") s (S i)) as [j|].
  - destruct IH as (k & -> & Hk & Hd & Hl). exists (S k).
    split_and!; [lia|simpl; lia|exact Hd|exact Hl].
  - change (existsb (Ascii.eqb c) (lit "/")) with (Ascii.eqb c "/" || false).
    rewrite orb_false_r. destruct (Ascii.eqb c "/") eqn:E.
    + apply Ascii.eqb_eq in E. subst c. exists 0.
      split_and!; [lia|simpl; lia|reflexivity|exact IH].
    + cbn [lacks forallb]. rewrite E. exact IH.
Qed.

(** X19. When the preferred directory cannot be created, the path is the
    directory of the executable followed by ["/log.txt"]; that directory is
    the executable's path up to its last slash, and it is empty, so that the
    path is ["/log.txt"], when the executable's path is unknown or holds no
    slash. *)
Theorem GetLogPathOnce_fallback (env : Env) :
  (forall d, create_directories_fails env d = true) ->
  (GetLogPathOnce env []).1 = exeDir_of env ++ lit "/log.txt" /\
  match proc_self_exe env with
  | None => exeDir_of env = []
  | Some path =>
      (lacks "/"%char path = true /\ exeDir_of env = []) \/
      (exists name, path = exeDir_of env ++ "/"%char :: name /\
                    lacks "/"%char name = true)
  end.
Proof.
  intros Hfail. split.
  - unfold GetLogPathOnce. cbn [nonempty]. rewrite Hfail. reflexivity.
  - unfold exeDir_of, find_last_of.
    destruct (proc_self_exe env) as [path|]; [|reflexivity].
    pose proof (find_last_of_slash path 0) as H.
    destruct (find_last_of_at (lit "/") path 0) as [j|].
    + right. destruct H as (k & -> & Hk & Hd & Hl). simpl.
      exists (drop (S k) path). split; [|exact Hl].
      rewrite <- Hd. symmetry. apply take_drop.
    + left. split; [exact H|reflexivity].
Qed.

Lemma GetLogPathOnce_fallback_witness :
  (GetLogPathOnce
     (mkEnv None (Some (lit "/home/u")) (fun _ => true)
        (Some (lit "/opt/app/bin/game"))) []).1
  = lit "/opt/app/bin/log.txt".
Proof.
  rewrite (proj1 (GetLogPathOnce_fallback
                    (mkEnv None (Some (lit "/home/u")) (fun _ => true)
                       (Some (lit "/opt/app/bin/game")))
                    (fun _ => eq_refl))).
  reflexivity.
Defined.
